(** * Phase 4 Jacobian controller: a shallow embedding of
      [phase4_jacobian_controller.py]

    The controller drives the end effector of a seven-joint arm along a
    circle.  Every control step it reads the joints and the tip position
    from the simulator, estimates a 3x7 Jacobian by finite differences
    (or reuses the cached one), solves a damped least-squares system with
    a closed-form 3x3 solve, bounds the joint update and commands it.

    Numbers are modelled as mathematical reals ([R]): the statements below
    are about exact arithmetic, not about IEEE-754 rounding.  Python lists
    are Rocq lists; an out-of-range subscript raises [IndexError].  The
    simulator reached through the remote API is a small explicit world
    (joint positions, clock, running flag) with a script of injected
    faults, so that "a call raises" is a behaviour of the model. *)

From Stdlib Require String.
From Stdlib Require Import Reals Lra Lia List Arith Bool.
Import ListNotations.
Import String.StringSyntax.

Open Scope string_scope.
Open Scope R_scope.

(* ================================================================= *)
(** ** Exceptions and results *)

(** The exceptions the script can meet.  [SimError] stands for any
    [Exception] raised by a remote API call; [KeyboardInterrupt] is the
    one that does not derive from [Exception]. *)
Inductive exn : Type :=
| ValueError (msg : String.string)
| IndexError
| ZeroDivisionError
| SimError
| KeyboardInterrupt.

(** [except Exception] catches everything but [KeyboardInterrupt]. *)
Definition is_Exception (e : exn) : bool :=
  match e with
  | KeyboardInterrupt => false
  | _ => true
  end.

Inductive result (A : Type) : Type :=
| Ok (a : A)
| Raise (e : exn).

Arguments Ok {A} a.
Arguments Raise {A} e.

Definition rbind {A B} (r : result A) (k : A -> result B) : result B :=
  match r with
  | Ok a => k a
  | Raise e => Raise e
  end.

Declare Scope result_scope.
Delimit Scope result_scope with result.
Notation "x <- r ;; k" := (rbind r (fun x => k))
  (at level 61, r at next level, right associativity) : result_scope.

Local Open Scope result_scope.

(** A comprehension whose element expression may raise. *)
Fixpoint rmap {A B} (f : A -> result B) (l : list A) : result (list B) :=
  match l with
  | [] => Ok []
  | a :: l' => b <- f a ;; bs <- rmap f l' ;; Ok (b :: bs)
  end.

(* ================================================================= *)
(** ** Linear algebra kernel *)

Definition vector := list R.
Definition matrix := list (list R).

(** [l[i]] for a non-negative [i]. *)
Definition idx {A} (l : list A) (i : nat) : result A :=
  match nth_error l i with
  | Some a => Ok a
  | None => Raise IndexError
  end.

(** [A[i][j]]. *)
Definition idx2 (A : matrix) (i j : nat) : result R :=
  row <- idx A i ;; idx row j.

(** The innermost loop of [mat_mult]: [result[i][j] += A[i][k] * B[k][j]]
    for the [k] of [ks], from the accumulator [acc]. *)
Fixpoint mult_acc (A B : matrix) (i j : nat) (ks : list nat) (acc : R)
  : result R :=
  match ks with
  | [] => Ok acc
  | k :: ks' =>
      a <- idx2 A i k ;;
      b <- idx2 B k j ;;
      mult_acc A B i j ks' (acc + a * b)
  end.

Definition mat_mult (A B : matrix) : result matrix :=
  a0 <- idx A 0 ;;
  b0 <- idx B 0 ;;
  let rows_A := length A in
  let cols_A := length a0 in
  let rows_B := length B in
  let cols_B := length b0 in
  if negb (cols_A =? rows_B)%nat
  then Raise (ValueError "Matrix dimensions incompatible")
  else
    rmap (fun i =>
            rmap (fun j => mult_acc A B i j (seq 0 cols_A) 0)
                 (seq 0 cols_B))
         (seq 0 rows_A).

Definition mat_transpose (A : matrix) : result matrix :=
  a0 <- idx A 0 ;;
  rmap (fun i => rmap (fun j => idx2 A j i) (seq 0 (length A)))
       (seq 0 (length a0)).

Definition mat_add (A B : matrix) : result matrix :=
  rmap (fun i =>
          a0 <- idx A 0 ;;
          rmap (fun j =>
                  a <- idx2 A i j ;;
                  b <- idx2 B i j ;;
                  Ok (a + b))
               (seq 0 (length a0)))
       (seq 0 (length A)).

Definition mat_scale (A : matrix) (scalar : R) : result matrix :=
  rmap (fun i =>
          a0 <- idx A 0 ;;
          rmap (fun j => a <- idx2 A i j ;; Ok (scalar * a))
               (seq 0 (length a0)))
       (seq 0 (length A)).

Definition mat_eye (n : nat) : matrix :=
  map (fun i => map (fun j => if (i =? j)%nat then 1 else 0) (seq 0 n))
      (seq 0 n).

(** Python's [sum]: a left fold from [0]. *)
Definition py_sum (v : list R) : R := fold_left Rplus v 0.

Definition vec_norm (v : vector) : R :=
  sqrt (py_sum (map (fun x => x * x) v)).

(** Python's [/] on floats raises on a zero divisor. *)
Definition py_div (a b : R) : result R :=
  if Req_dec_T b 0 then Raise ZeroDivisionError else Ok (a / b).

Definition singular_threshold : R := 1e-10.

(** [solve_3x3]: Cramer's rule.  The entries of [A] are read for the
    determinant, the test follows, and only then is [b] read. *)
Definition solve_3x3 (A : matrix) (b : vector) : result vector :=
  a00 <- idx2 A 0 0 ;; a11 <- idx2 A 1 1 ;; a22 <- idx2 A 2 2 ;;
  a12 <- idx2 A 1 2 ;; a21 <- idx2 A 2 1 ;; a01 <- idx2 A 0 1 ;;
  a10 <- idx2 A 1 0 ;; a20 <- idx2 A 2 0 ;; a02 <- idx2 A 0 2 ;;
  let det := a00 * (a11 * a22 - a12 * a21)
             - a01 * (a10 * a22 - a12 * a20)
             + a02 * (a10 * a21 - a11 * a20) in
  if Rlt_dec (Rabs det) singular_threshold
  then Raise (ValueError "Matrix is singular")
  else
    b0 <- idx b 0 ;; b1 <- idx b 1 ;; b2 <- idx b 2 ;;
    let det_x := b0 * (a11 * a22 - a12 * a21)
                 - a01 * (b1 * a22 - a12 * b2)
                 + a02 * (b1 * a21 - a11 * b2) in
    let det_y := a00 * (b1 * a22 - a12 * b2)
                 - b0 * (a10 * a22 - a12 * a20)
                 + a02 * (a10 * b2 - b1 * a20) in
    let det_z := a00 * (a11 * b2 - b1 * a21)
                 - a01 * (a10 * b2 - b1 * a20)
                 + b0 * (a10 * a21 - a11 * a20) in
    x <- py_div det_x det ;;
    y <- py_div det_y det ;;
    z <- py_div det_z det ;;
    Ok [x; y; z].

(* ================================================================= *)
(** ** Settings of [main]

    [USE_STEPPING] is [True] in the script: the branches that call
    [client.step()] are the ones modelled, and [DT], the sleep of the
    other branch, is not used. *)

Definition DT : R := 0.05.
Definition DURATION : R := 8.0.
Definition EPS : R := 1e-4.
Definition LAMBDA : R := 0.1.
Definition MAX_DQ : R := 0.05.
Definition STEP_SIZE : R := 0.002.
Definition JACOBIAN_UPDATE_PERIOD : nat := 5.

(* ================================================================= *)
(** ** The pure stages of one control step *)

(** Desired displacement: a circle in the x-y plane (lines 408-412). *)
Definition desired_dx (step_size t : R) : vector :=
  [ step_size * cos (2 * PI * 0.1 * t);
    step_size * sin (2 * PI * 0.1 * t);
    0 ].

(** Damped least squares (lines 451-457), for a damping [lam]. *)
Definition dls_solve (J : matrix) (dx : vector) (lam : R) : result vector :=
  J_T <- mat_transpose J ;;
  JJT <- mat_mult J J_T ;;
  let I := mat_eye 3 in
  scaled <- mat_scale I (lam ^ 2) ;;
  JJT_damped <- mat_add JJT scaled ;;
  dx_solved <- solve_3x3 JJT_damped dx ;;
  dq <- mat_mult J_T (map (fun x => [x]) dx_solved) ;;
  rmap (fun i => idx2 dq i 0) (seq 0 7).

(** Python's two-argument [min] and [max]: the first argument wins ties. *)
Definition py_min (a b : R) : R := if Rlt_dec b a then b else a.
Definition py_max (a b : R) : R := if Rgt_dec b a then b else a.

(** Per-joint clip (line 460): one component, then the comprehension. *)
Definition clip1 (max_dq dq_i : R) : R :=
  py_max (- max_dq) (py_min max_dq dq_i).

Definition clip_dq (max_dq : R) (dq : vector) : vector :=
  map (clip1 max_dq) dq.

(** Clip, then the global norm clamp (lines 460-467).  The result is the
    bounded update together with its norm [dq_norm]. *)
Definition limit_dq (max_dq : R) (dq : vector) : result (vector * R) :=
  let dq := clip_dq max_dq dq in
  let dq_norm := vec_norm dq in
  if Rgt_dec dq_norm max_dq
  then
    scale <- py_div max_dq dq_norm ;;
    let dq := map (fun x => scale * x) dq in
    Ok (dq, vec_norm dq)
  else Ok (dq, dq_norm).

(** Python's [l[i] = v]. *)
Fixpoint list_set {A} (l : list A) (i : nat) (v : A) : result (list A) :=
  match l, i with
  | [], _ => Raise IndexError
  | _ :: l', O => Ok (v :: l')
  | x :: l', S i' => l'' <- list_set l' i' v ;; Ok (x :: l'')
  end.

(** Python's [min] and [max] of a sequence, and the statistics of the
    summary (lines 510-516). *)
Definition py_min_list (l : list R) : result R :=
  match l with
  | [] => Raise (ValueError "min() arg is an empty sequence")
  | x :: l' => Ok (fold_left (fun best y => py_min best y) l' x)
  end.

Definition py_max_list (l : list R) : result R :=
  match l with
  | [] => Raise (ValueError "max() arg is an empty sequence")
  | x :: l' => Ok (fold_left (fun best y => py_max best y) l' x)
  end.

Record Stats : Type := mkStats {
  avg_dq_norm : R;
  min_dq_norm : R;
  max_dq_norm : R
}.

(** The unguarded computation of the three statistics. *)
Definition compute_stats (dq_norms : list R) : result Stats :=
  avg <- py_div (py_sum dq_norms) (INR (length dq_norms)) ;;
  mn <- py_min_list dq_norms ;;
  mx <- py_max_list dq_norms ;;
  Ok (mkStats avg mn mx).

(** [if dq_norms: ...]: nothing is computed for an empty list. *)
Definition summarize (dq_norms : list R) : result (option Stats) :=
  match dq_norms with
  | [] => Ok None
  | _ :: _ => s <- compute_stats dq_norms ;; Ok (Some s)
  end.

(* ================================================================= *)
(** ** The simulator behind the remote API

    The world holds what the script can observe of CoppeliaSim: the
    joint positions (a joint handle is its index), the simulation clock
    and the running flag, together with the forward kinematics [fk] of
    the arm and the length [sim_dt] of one simulation step.  Joints are
    kinematic: [setJointPosition] takes effect at once and a step only
    advances the clock.

    [faults] scripts the outcome of the next remote calls ([Some e]: the
    call raises [e], also a [KeyboardInterrupt] arriving during it);
    past the end of the script every call succeeds.  [log] is ghost
    state: the calls issued so far, most recent first, each with a flag
    telling whether it returned. *)

Inductive call : Type :=
| CallGetSimulationTime
| CallGetJointPosition (h : nat)
| CallSetJointPosition (h : nat) (x : R)
| CallGetObjectPosition
| CallStep
| CallStartSimulation
| CallStopSimulation.

Record World : Type := mkWorld {
  fk : vector -> vector;
  sim_dt : R;
  joints : vector;
  sim_time : R;
  running : bool;
  faults : list (option exn);
  log : list (call * bool)
}.

Definition set_joints_of (w : World) (js : vector) : World :=
  mkWorld (fk w) (sim_dt w) js (sim_time w) (running w) (faults w) (log w).

Definition set_time_of (w : World) (t : R) : World :=
  mkWorld (fk w) (sim_dt w) (joints w) t (running w) (faults w) (log w).

Definition set_running_of (w : World) (b : bool) : World :=
  mkWorld (fk w) (sim_dt w) (joints w) (sim_time w) b (faults w) (log w).

Definition set_faults_of (w : World) (fs : list (option exn)) : World :=
  mkWorld (fk w) (sim_dt w) (joints w) (sim_time w) (running w) fs (log w).

Definition record_call (c : call) (returned : bool) (w : World) : World :=
  mkWorld (fk w) (sim_dt w) (joints w) (sim_time w) (running w) (faults w)
          ((c, returned) :: log w).

(** The simulator's side of [setJointPosition]. *)
Fixpoint update_joint (js : vector) (h : nat) (x : R) : vector :=
  match js, h with
  | [], _ => []
  | _ :: js', O => x :: js'
  | y :: js', S h' => y :: update_joint js' h' x
  end.

(** *** Computations against the world

    A computation either returns, raises, or exhausts the fuel of the
    control loop; the world it leaves behind is kept in every case. *)

Inductive outcome (A : Type) : Type :=
| Done (a : A)
| Raised (e : exn)
| OutOfFuel.

Arguments Done {A} a.
Arguments Raised {A} e.
Arguments OutOfFuel {A}.

Definition M (A : Type) : Type := World -> outcome A * World.

Definition ret {A} (a : A) : M A := fun w => (Done a, w).

Definition bind {A B} (m : M A) (k : A -> M B) : M B :=
  fun w =>
    match m w with
    | (Done a, w') => k a w'
    | (Raised e, w') => (Raised e, w')
    | (OutOfFuel, w') => (OutOfFuel, w')
    end.

Definition lift {A} (r : result A) : M A :=
  fun w =>
    match r with
    | Ok a => (Done a, w)
    | Raise e => (Raised e, w)
    end.

Definition out_of_fuel {A} : M A := fun w => (OutOfFuel, w).

Declare Scope sim_scope.
Delimit Scope sim_scope with sim.
Notation "x <- m ;; k" := (bind m (fun x => k))
  (at level 61, m at next level, right associativity) : sim_scope.
Notation "m ;; k" := (bind m (fun _ => k))
  (at level 61, right associativity) : sim_scope.

Local Open Scope sim_scope.

(** [try: m except Exception: h]. *)
Definition catch {A} (m : M A) (h : exn -> M A) : M A :=
  fun w =>
    match m w with
    | (Raised e, w') => if is_Exception e then h e w' else (Raised e, w')
    | r => r
    end.

(** [try: body finally: fin]: [fin] runs however [body] ends, and the
    outcome of [body] stands unless [fin] itself raises. *)
Definition try_finally {A} (body : M A) (fin : M unit) : M A :=
  fun w =>
    match body w with
    | (OutOfFuel, w') => (OutOfFuel, w')
    | (r, w') =>
        match fin w' with
        | (Done _, w'') => (r, w'')
        | (Raised e, w'') => (Raised e, w'')
        | (OutOfFuel, w'') => (OutOfFuel, w'')
        end
    end.

(** A comprehension and a [for] loop over remote calls. *)
Fixpoint mmap {A B} (f : A -> M B) (l : list A) : M (list B) :=
  match l with
  | [] => ret []
  | a :: l' => b <- f a ;; bs <- mmap f l' ;; ret (b :: bs)
  end.

Fixpoint mfor {A} (f : A -> M unit) (l : list A) : M unit :=
  match l with
  | [] => ret tt
  | a :: l' => f a ;; mfor f l'
  end.

(** *** The remote API *)

(** The outcome scripted for the next remote call, and the world with
    that entry consumed. *)
Definition next_fault (w : World) : option exn :=
  match faults w with
  | f :: _ => f
  | [] => None
  end.

Definition pop_fault (w : World) : World := set_faults_of w (tl (faults w)).

(** One remote call: the next entry of the fault script decides whether
    it raises; otherwise [op] is its effect on the world. *)
Definition remote {A} (c : call) (op : World -> A * World) : M A :=
  fun w =>
    match next_fault w with
    | Some e => (Raised e, record_call c false (pop_fault w))
    | None =>
        let (a, w') := op (pop_fault w) in
        (Done a, record_call c true w')
    end.

Definition getSimulationTime : M R :=
  remote CallGetSimulationTime (fun w => (sim_time w, w)).

Definition getJointPosition (h : nat) : M R :=
  remote (CallGetJointPosition h) (fun w => (nth h (joints w) 0, w)).

Definition setJointPosition (h : nat) (x : R) : M unit :=
  remote (CallSetJointPosition h x)
         (fun w => (tt, set_joints_of w (update_joint (joints w) h x))).

(** [list(sim.getObjectPosition(tip_handle, -1))]. *)
Definition getObjectPosition : M vector :=
  remote CallGetObjectPosition (fun w => (fk w (joints w), w)).

(** [client.step()]. *)
Definition client_step : M unit :=
  remote CallStep (fun w => (tt, set_time_of w (sim_time w + sim_dt w))).

Definition startSimulation : M unit :=
  remote CallStartSimulation (fun w => (tt, set_running_of w true)).

Definition stopSimulation : M unit :=
  remote CallStopSimulation (fun w => (tt, set_running_of w false)).

(* ================================================================= *)
(** ** The controller *)

(** The seven joint handles resolved by [main]. *)
Definition joint_handles : list nat := seq 0 7.

Definition enumerate {A} (l : list A) : list (nat * A) :=
  combine (seq 0 (length l)) l.

(** [for j, h in enumerate(joint_handles): sim.setJointPosition(h, qs[j])]. *)
Definition command_joints (qs : vector) : M unit :=
  mfor (fun jh => x <- lift (idx qs (fst jh)) ;; setJointPosition (snd jh) x)
       (enumerate joint_handles).

(** [for k in range(3): J[k][i] = (p_pert[k] - p[k]) / EPS]. *)
Fixpoint fill_column (J : matrix) (i : nat) (p_pert p : vector) (eps : R)
  (ks : list nat) : result matrix :=
  match ks with
  | [] => Ok J
  | k :: ks' =>
      (a <- idx p_pert k ;;
       b <- idx p k ;;
       v <- py_div (a - b) eps ;;
       row <- idx J k ;;
       row' <- list_set row i v ;;
       J' <- list_set J k row' ;;
       fill_column J' i p_pert p eps ks')%result
  end.

(** The body of [for i in range(7)] (lines 420-444), for the columns
    [cols] still to probe. *)
Fixpoint probe_columns (eps : R) (q p : vector) (cols : list nat)
  (J : matrix) : M matrix :=
  match cols with
  | [] => ret J
  | i :: cols' =>
      q_i <- lift (idx q i) ;;
      q_pert <- lift (list_set q i (q_i + eps)) ;;
      command_joints q_pert ;;
      client_step ;;
      p_pert <- getObjectPosition ;;
      J' <- lift (fill_column J i p_pert p eps (seq 0 3)) ;;
      command_joints q ;;
      client_step ;;
      probe_columns eps q p cols' J'
  end.

(** The numerical Jacobian (lines 419-444). *)
Definition estimate_jacobian (eps : R) (q p : vector) : M matrix :=
  probe_columns eps q p (seq 0 7) (repeat (repeat 0 7) 3).

(** The variables of [main] that live across control steps.
    [jacobian_log] is ghost: for every pass through the loop body, the
    value of [step_counter] and whether the Jacobian was recomputed
    ([true]) or the cached one reused ([false]), oldest first. *)
Record Loop : Type := mkLoop {
  last_check_time : R;
  dq_norms : list R;
  J : option matrix;
  step_counter : nat;
  jacobian_log : list (nat * bool)
}.

Definition init_loop : Loop := mkLoop (-1) [] None 0 [].

(** [J is None or step_counter % JACOBIAN_UPDATE_PERIOD == 0]. *)
Definition refresh_due (cached : option matrix) (counter : nat) : bool :=
  match cached with
  | None => true
  | Some _ => (counter mod JACOBIAN_UPDATE_PERIOD =? 0)%nat
  end.

(** One pass through the body of the [while] loop (lines 393-487). *)
Definition tick (loop_start_time : R) (st : Loop) : M Loop :=
  t_sim <- getSimulationTime ;;
  let t := t_sim - loop_start_time in
  let counter := S (step_counter st) in
  q <- mmap getJointPosition joint_handles ;;
  p <- getObjectPosition ;;
  let dx := desired_dx STEP_SIZE t in
  Jr <- match J st with
        | Some cached =>
            if refresh_due (J st) counter
            then Jn <- estimate_jacobian EPS q p ;; ret (Jn, true)
            else ret (cached, false)
        | None => Jn <- estimate_jacobian EPS q p ;; ret (Jn, true)
        end ;;
  dq <- lift (dls_solve (fst Jr) dx LAMBDA) ;;
  lim <- lift (limit_dq MAX_DQ dq) ;;
  let dq := fst lim in
  let dq_norm := snd lim in
  let norms := dq_norms st ++ [dq_norm] in
  q_new <- lift (rmap (fun i => (a <- idx q i ;; b <- idx dq i ;; Ok (a + b))%result)
                      (seq 0 7)) ;;
  command_joints q_new ;;
  let last :=
    if Rlt_dec (last_check_time st) 0 then t
    else if Rge_dec (t - last_check_time st) 0.5 then t
         else last_check_time st in
  client_step ;;
  ret (mkLoop last norms (Some (fst Jr)) counter
              (jacobian_log st ++ [(counter, snd Jr)])).

(** The [while] loop (line 392); [fuel] bounds the number of passes. *)
Fixpoint control_loop (fuel : nat) (loop_start_time : R) (st : Loop)
  : M Loop :=
  match fuel with
  | O => out_of_fuel
  | S fuel' =>
      now <- getSimulationTime ;;
      if Rlt_dec (now - loop_start_time) DURATION
      then st' <- tick loop_start_time st ;;
           control_loop fuel' loop_start_time st'
      else ret st
  end.

(** The body of the [try] (lines 392-490): the loop, then
    [actual_duration]. *)
Definition guarded_body (fuel : nat) (loop_start_time : R) : M (R * Loop) :=
  st <- control_loop fuel loop_start_time init_loop ;;
  now <- getSimulationTime ;;
  ret (now - loop_start_time, st).

(** [for _ in range(n): try: client.step() except Exception: break]. *)
Fixpoint drain (n : nat) : M unit :=
  match n with
  | O => ret tt
  | S n' =>
      stepped <- catch (client_step ;; ret true) (fun _ => ret false) ;;
      if (stepped : bool) then drain n' else ret tt
  end.

(** The [finally] block (lines 494-505): its own errors are caught and
    only reported. *)
Definition stop_safely : M unit :=
  catch (drain 5 ;; stopSimulation) (fun _ => ret tt).

(** Lines 385-505: the control loop under its [finally]. *)
Definition run_control (fuel : nat) : M (R * Loop) :=
  loop_start_time <- getSimulationTime ;;
  try_finally (guarded_body fuel loop_start_time) stop_safely.

(** Lines 371-518: start the simulation, run, summarise. *)
Definition main_control (fuel : nat) : M (R * option Stats) :=
  startSimulation ;;
  r <- run_control fuel ;;
  s <- lift (summarize (dq_norms (snd r))) ;;
  ret (fst r, s).

(* ================================================================= *)
(** ** Mathematical reference notions

    These are the textbook objects the statements compare the code with:
    entries with a default, dot product, matrix-vector product, the 3x3
    determinant and the shape of a matrix. *)

Definition entry (A : matrix) (i j : nat) : R := nth j (nth i A []) 0.

Definition dot (u v : vector) : R :=
  fold_left Rplus (map (fun p => fst p * snd p) (combine u v)) 0.

(** Sum of squares, the radicand of [vec_norm]. *)
Definition sumsq (v : vector) : R := py_sum (map (fun x => x * x) v).

Definition mat_vec (A : matrix) (x : vector) : vector :=
  map (fun row => dot row x) A.

(** Cofactor expansion along the first row. *)
Definition det3 (A : matrix) : R :=
  entry A 0 0 * (entry A 1 1 * entry A 2 2 - entry A 1 2 * entry A 2 1)
  - entry A 0 1 * (entry A 1 0 * entry A 2 2 - entry A 1 2 * entry A 2 0)
  + entry A 0 2 * (entry A 1 0 * entry A 2 1 - entry A 1 1 * entry A 2 0).

Definition is_mat (r c : nat) (A : matrix) : Prop :=
  length A = r /\ Forall (fun row => length row = c) A.

Definition mtrans (A : matrix) : matrix :=
  map (fun j => map (fun row => nth j row 0) A) (seq 0 (length (hd [] A))).

Definition mmul (A B : matrix) : matrix :=
  map (fun row => map (fun col => dot row col) (mtrans B)) A.

Definition madd (A B : matrix) : matrix :=
  map (fun p => map (fun q => fst q + snd q) (combine (fst p) (snd p)))
      (combine A B).

Definition mscal (c : R) (A : matrix) : matrix :=
  map (map (fun a => c * a)) A.

(** The inverse of a 3x3 matrix as adjugate over determinant. *)
Definition inv3 (A : matrix) : matrix :=
  let d := det3 A in
  [ [ (entry A 1 1 * entry A 2 2 - entry A 1 2 * entry A 2 1) / d;
      (entry A 0 2 * entry A 2 1 - entry A 0 1 * entry A 2 2) / d;
      (entry A 0 1 * entry A 1 2 - entry A 0 2 * entry A 1 1) / d ];
    [ (entry A 1 2 * entry A 2 0 - entry A 1 0 * entry A 2 2) / d;
      (entry A 0 0 * entry A 2 2 - entry A 0 2 * entry A 2 0) / d;
      (entry A 0 2 * entry A 1 0 - entry A 0 0 * entry A 1 2) / d ];
    [ (entry A 1 0 * entry A 2 1 - entry A 1 1 * entry A 2 0) / d;
      (entry A 0 1 * entry A 2 0 - entry A 0 0 * entry A 2 1) / d;
      (entry A 0 0 * entry A 1 1 - entry A 0 1 * entry A 1 0) / d ] ].

(** [J J^T + lam^2 I_3]. *)
Definition damped_gram (J : matrix) (lam : R) : matrix :=
  madd (mmul J (mtrans J)) (mscal (lam ^ 2) (mat_eye 3)).

(** [J^T (J J^T + lam^2 I_3)^-1 dx]. *)
Definition dls_formula (J : matrix) (dx : vector) (lam : R) : vector :=
  mat_vec (mtrans J) (mat_vec (inv3 (damped_gram J lam)) dx).

(** The matrices of the scenarios. *)
Definition zero_3x7 : matrix :=
  [ [0; 0; 0; 0; 0; 0; 0]; [0; 0; 0; 0; 0; 0; 0]; [0; 0; 0; 0; 0; 0; 0] ].

Definition unit_3x7 : matrix :=
  [ [1; 0; 0; 0; 0; 0; 0]; [0; 1; 0; 0; 0; 0; 0]; [0; 0; 1; 0; 0; 0; 0] ].

(** *** Partial correctness of computations against the world *)

(** [returns m w Q]: if [m] returns from [w], its value and final world
    satisfy [Q]. *)
Definition returns {A} (m : M A) (w : World) (Q : A -> World -> Prop) : Prop :=
  forall a w', m w = (Done a, w') -> Q a w'.

(** [succeeds m w Q]: [m] returns from [w], with a value and a final
    world that satisfy [Q]. *)
Definition succeeds {A} (m : M A) (w : World) (Q : A -> World -> Prop) : Prop :=
  exists a w', m w = (Done a, w') /\ Q a w'.

(** What a remote call leaves untouched. *)
Record same_arm (w w' : World) : Prop := {
  same_fk : fk w' = fk w;
  same_dt : sim_dt w' = sim_dt w;
  same_joint_count : length (joints w') = length (joints w)
}.

(** *** The forward-difference Jacobian and the calls of its probes *)

(** [q] with joint [i] increased by [eps]. *)
Definition perturbed (q : vector) (i : nat) (eps : R) : vector :=
  update_joint q i (nth i q 0 + eps).

(** Entry [(k, i)] is [(P(q + eps e_i)[k] - p[k]) / eps], for the
    kinematics [P]. *)
Definition forward_difference (P : vector -> vector) (q p : vector) (eps : R)
  : matrix :=
  map (fun k =>
         map (fun i => (nth k (P (perturbed q i eps)) 0 - nth k p 0) / eps)
             (seq 0 7))
      (seq 0 3).

Definition set_calls (qs : vector) : list call :=
  map (fun jx => CallSetJointPosition (fst jx) (snd jx)) (enumerate qs).

(** The calls of the probe of column [i]: command the perturbed
    configuration, step, read the tip, restore [q], step. *)
Definition probe_calls (q : vector) (eps : R) (i : nat) : list call :=
  set_calls (perturbed q i eps) ++ [CallStep; CallGetObjectPosition]
  ++ set_calls q ++ [CallStep].

(** A sequence of calls that all returned, as the log stores it. *)
Definition logged (cs : list call) : list (call * bool) :=
  rev (map (fun c => (c, true)) cs).

(** *** Scenario worlds *)

(** An arm whose tip does not move, at rest at time 0 in a running
    simulation with steps of 0.1 s, with a given fault script and, for
    [still_arm_logged], the calls already made. *)
Definition still_arm_logged (fs : list (option exn)) (lg : list (call * bool))
  : World :=
  mkWorld (fun _ => [0; 0; 0]) 0.1 [0; 0; 0; 0; 0; 0; 0] 0 true fs lg.

Definition still_arm (fs : list (option exn)) : World := still_arm_logged fs [].

(** *** The refresh schedule *)

(** Pass [k] recomputes the Jacobian when it is the first pass or when
    [k] is a multiple of the refresh period. *)
Definition recomputes (k : nat) : bool :=
  (k =? 1)%nat || (k mod JACOBIAN_UPDATE_PERIOD =? 0)%nat.

(** The log of the first [n] passes. *)
Definition schedule (n : nat) : list (nat * bool) :=
  map (fun k => (k, recomputes k)) (seq 1 n).

(** The passes of a log that recomputed, and those that reused. *)
Definition recomputed_on (l : list (nat * bool)) : list nat :=
  map fst (filter snd l).

Definition reused_on (l : list (nat * bool)) : list nat :=
  map fst (filter (fun e => negb (snd e)) l).

(** The state of the loop variables is consistent with [k] passes. *)
Definition after_passes (k : nat) (st : Loop) : Prop :=
  step_counter st = k
  /\ jacobian_log st = schedule k
  /\ length (dq_norms st) = k
  /\ (J st = None <-> k = 0%nat).

(** Simulation steps taken by the first [k] passes in a world where no
    call fails: one per pass and fourteen more per recomputation. *)
Definition steps_after (k : nat) : nat :=
  k + 14 * length (recomputed_on (schedule k)).

(** A still arm ([fk] constantly 0, steps of 0.1 s, no fault scripted)
    in which the loop started at [t0] has made [k] passes. *)
Definition still_after (t0 : R) (k : nat) (st : Loop) (w : World) : Prop :=
  faults w = []
  /\ length (joints w) = 7%nat
  /\ (forall x, fk w x = [0; 0; 0])
  /\ sim_dt w = 0.1
  /\ sim_time w = t0 + INR (steps_after k) * 0.1
  /\ after_passes k st
  /\ (k <> 0%nat -> J st = Some zero_3x7).

(** *** The finally block *)

(** No [KeyboardInterrupt] is scripted from this world on. *)
Definition no_interrupt (w : World) : Prop :=
  Forall (fun f => f <> Some KeyboardInterrupt) (faults w).

(** The calls of the finally block, most recent first: [k] residual
    steps that returned, possibly one that raised and ended the
    draining, then the stop call, which returned or not. *)
Definition finally_calls (k : nat) (step_failed stop_ok : bool)
  : list (call * bool) :=
  (CallStopSimulation, stop_ok)
  :: (if step_failed then [(CallStep, false)] else [])
  ++ repeat (CallStep, true) k.

(** *** Further reference notions *)

(** The r x c matrix with entry [f i j] at [(i, j)]. *)
Definition matrix_of (r c : nat) (f : nat -> nat -> R) : matrix :=
  map (fun i => map (fun j => f i j) (seq 0 c)) (seq 0 r).

(** *** Minors of a 3 x 7 matrix *)

(** Sum of the squares of a list of reals. *)
Definition sum_squares (l : list R) : R :=
  fold_right (fun x acc => x * x + acc) 0 l.

(** The pairs [i < j] and the triples [i < j < k] of column indices
    below 7. *)
Definition column_pairs : list (nat * nat) :=
  Eval vm_compute in
    filter (fun p => fst p <? snd p)%nat (list_prod (seq 0 7) (seq 0 7)).

Definition column_triples : list (nat * nat * nat) :=
  Eval vm_compute in
    filter (fun t => (fst (fst t) <? snd (fst t))%nat
                     && (snd (fst t) <? snd t)%nat)
           (list_prod (list_prod (seq 0 7) (seq 0 7)) (seq 0 7)).

(** The 2 x 2 minor of rows [p], [q] and columns [i], [j]. *)
Definition minor2 (J : matrix) (p q : nat) (ij : nat * nat) : R :=
  entry J p (fst ij) * entry J q (snd ij)
  - entry J p (snd ij) * entry J q (fst ij).

(** The 3 x 3 minor of columns [i], [j], [k]. *)
Definition minor3 (J : matrix) (ijk : nat * nat * nat) : R :=
  let i := fst (fst ijk) in
  let j := snd (fst ijk) in
  let k := snd ijk in
  det3 [ [entry J 0 i; entry J 0 j; entry J 0 k];
         [entry J 1 i; entry J 1 j; entry J 1 k];
         [entry J 2 i; entry J 2 j; entry J 2 k] ].

(** *** Arms and worlds for the properties of the loop *)

(** A tip position that is an affine function of the joints:
    [A q + b]. *)
Definition affine_fk (A : matrix) (b : vector) (q : vector) : vector :=
  map (fun p => dot (fst p) q + snd p) (combine A b).

(** A world in which no fault is scripted, with seven joints and a
    kinematics that returns three coordinates. *)
Definition steady (w : World) : Prop :=
  faults w = []
  /\ length (joints w) = 7%nat
  /\ forall x, length (fk w x) = 3%nat.

(** The cached Jacobian, when there is one, is 3 x 7. *)
Definition cache_ok (st : Loop) : Prop :=
  forall Jm, J st = Some Jm -> is_mat 3 7 Jm.

(** Every recorded sample lies in [[0, MAX_DQ]]. *)
Definition samples_bounded (st : Loop) : Prop :=
  Forall (fun n => 0 <= n <= MAX_DQ) (dq_norms st).

(* ================================================================= *)
(** ** Start-up code

    What the scripts do before the control loop: locating the bundled
    client folder, ordering [sys.path], resolving the tip handle and
    (in [phase2_move_joint.py]) looking a joint up by name.  The file
    system and the scene are read through oracles: a path predicate or a
    remote call is a function of its argument. *)

(** How a start-up routine ends: it returns, leaves through
    [sys.exit(code)], raises [FileNotFoundError], or lets another
    exception through. *)
Inductive startup (A : Type) : Type :=
| Started (a : A)
| SysExit (code : nat)
| FileNotFoundError
| Uncaught (e : exn).

Arguments Started {A} a.
Arguments SysExit {A} code.
Arguments FileNotFoundError {A}.
Arguments Uncaught {A} e.

(** [sub in s] on strings. *)
Definition contains (sub s : String.string) : bool :=
  match String.index 0 sub s with
  | Some _ => true
  | None => false
  end.

(** A [for] loop whose body may [return]: the first element for which
    the body returns decides. *)
Fixpoint first_some {A B} (f : A -> option B) (l : list A) : option B :=
  match l with
  | [] => None
  | a :: l' =>
      match f a with
      | Some b => Some b
      | None => first_some f l'
      end
  end.

(** *** [find_coppelia_python_folder] *)

(** A [pathlib.Path] as the list of its components; [p / "a/b"] appends
    the components [a], [b]. *)
Definition path := list String.string.

Record FileSystem : Type := mkFileSystem {
  home : path;                      (* Path.home() *)
  exists_ : path -> bool;           (* p.exists() *)
  is_dir : path -> bool;            (* p.is_dir() *)
  glob_app : path -> list path      (* base.glob("*.app") *)
}.

Definition COPPELIA_APP_CANDIDATES (home : path) : list path :=
  [ ["/"; "Applications"; "coppeliaSim.app"];
    ["/"; "Applications"; "CoppeliaSimEdu.app"];
    ["/"; "Applications"; "CoppeliaSim.app"];
    ["/"; "Applications"; "CoppeliaSimEdu_V4_10_0_rev0.app"];
    home ++ ["Downloads"; "coppeliaSim.app"];
    home ++ ["Downloads"; "CoppeliaSimEdu.app"];
    home ++ ["Downloads"; "CoppeliaSim.app"];
    home ++ ["Downloads"; "CoppeliaSimEdu_V4_10_0_rev0.app"] ].

Definition COPPELIA_INTERNAL_PY_CANDIDATES : list path :=
  [ ["Contents"; "Resources"; "programming"; "zmqRemoteApi"; "clients";
     "python"];
    ["Contents"; "Resources"; "programming"; "zmqRemoteApi"; "clients";
     "python"; "zmqRemoteApi"];
    ["Contents"; "Resources"; "python"] ].

Definition is_valid_zmq_client (fs : FileSystem) (py_path : path) : bool :=
  if is_dir fs (py_path ++ ["zmqRemoteApi"]) then
    if is_dir fs (py_path ++ ["src"]) then true
    else if is_dir fs (py_path ++ ["zmqRemoteApi"; "src"]) then true
    else false
  else false.

(** [py_path.name] is the last component, [py_path.parent] drops it. *)
Definition normalize (py_path : path) : path :=
  if String.eqb (last py_path "") "zmqRemoteApi"
  then removelast py_path
  else py_path.

(** The body of the loop over the internal candidates, for one [app]. *)
Definition probe (fs : FileSystem) (app internal : path) : option path :=
  let py_path := normalize (app ++ internal) in
  if exists_ fs py_path && is_valid_zmq_client fs py_path
  then Some py_path
  else None.

Definition probe_app (fs : FileSystem) (app : path) : option path :=
  first_some (probe fs app) COPPELIA_INTERNAL_PY_CANDIDATES.

(** The test on the name of a globbed application. *)
Definition likely_app (lower : String.string -> String.string) (app : path)
  : bool :=
  let name := lower (last app "") in
  contains "coppelia" name || contains "coppeliasim" name.

Definition fallback_bases (fs : FileSystem) : list path :=
  [ ["/"; "Applications"]; home fs ++ ["Downloads"] ].

Definition find_coppelia_python_folder
  (lower : String.string -> String.string) (fs : FileSystem) : startup path :=
  match first_some (probe_app fs) (COPPELIA_APP_CANDIDATES (home fs)) with
  | Some py_path => Started py_path
  | None =>
      match
        first_some
          (fun base =>
             if negb (exists_ fs base) then None
             else
               first_some
                 (fun app =>
                    if likely_app lower app then probe_app fs app else None)
                 (glob_app fs base))
          (fallback_bases fs)
      with
      | Some py_path => Started py_path
      | None => FileNotFoundError
      end
  end.

(** *** [ensure_coppelia_python_path] *)

(** [x in l], [l.remove(x)] and [l.insert(i, x)] on a list of strings. *)
Definition py_in (x : String.string) (l : list String.string) : bool :=
  existsb (fun y => String.eqb y x) l.

Fixpoint py_remove (x : String.string) (l : list String.string)
  : result (list String.string) :=
  match l with
  | [] => Raise (ValueError "list.remove(x): x not in list")
  | y :: l' =>
      if String.eqb y x then Ok l'
      else (r <- py_remove x l' ;; Ok (y :: r))%result
  end.

Definition py_insert (i : nat) (x : String.string) (l : list String.string)
  : list String.string :=
  firstn i l ++ x :: skipn i l.

(** The effect on [sys.path].  [COPPELIA_PY_PATH] is the module global,
    [src_path_str] is [str(Path(COPPELIA_PY_PATH) / "src")], [script_dir]
    is [str(script_dir)]; the two booleans are the answers of
    [coppelia_path.exists()] and [src_path.exists()]. *)
Definition ensure_coppelia_python_path
  (COPPELIA_PY_PATH src_path_str script_dir : String.string)
  (coppelia_exists src_exists : bool)
  (sys_path : list String.string) : startup (list String.string) :=
  if negb coppelia_exists then FileNotFoundError
  else
    match
      (if py_in COPPELIA_PY_PATH sys_path
       then py_remove COPPELIA_PY_PATH sys_path
       else Ok sys_path)
    with
    | Raise e => Uncaught e
    | Ok p1 =>
        let p2 := py_insert 0 COPPELIA_PY_PATH p1 in
        let p3 :=
          if src_exists then
            if negb (py_in src_path_str p2)
            then py_insert 0 src_path_str p2
            else p2
          else p2 in
        if py_in script_dir p3 then
          match py_remove script_dir p3 with
          | Ok p4 => Started (py_insert 1 script_dir p4)
          | Raise e => if is_Exception e then Started p3 else Uncaught e
          end
        else Started p3
    end.

(** The same list with the first occurrence of [x], if any, left out. *)
Fixpoint without_first (x : String.string) (l : list String.string)
  : list String.string :=
  match l with
  | [] => []
  | y :: l' => if String.eqb y x then l' else y :: without_first x l'
  end.

(** *** Resolving the tip handle *)

Definition TIP_KEYWORDS : list String.string :=
  ["tip"; "hand"; "link7"; "link8"].

(** The scan of the scene: the objects whose name can be read and, in
    lower case, contains a keyword; a failing [getObjectName] skips the
    object. *)
Fixpoint collect_candidates (lower : String.string -> String.string)
  (getObjectName : nat -> result String.string) (all_objects : list nat)
  : result (list (String.string * nat)) :=
  match all_objects with
  | [] => Ok []
  | obj :: rest =>
      match getObjectName obj with
      | Ok name =>
          let name_lower := lower name in
          (cs <- collect_candidates lower getObjectName rest ;;
           Ok (if existsb (fun keyword => contains keyword name_lower)
                          TIP_KEYWORDS
               then (name, obj) :: cs
               else cs))%result
      | Raise e =>
          if is_Exception e
          then collect_candidates lower getObjectName rest
          else Raise e
      end
  end.

Definition priority_of (name_lower : String.string) : Z :=
  let priority := 0%Z in
  let priority :=
    if contains "link8" name_lower then (priority + 10)%Z
    else if contains "link7" name_lower then (priority + 5)%Z
    else priority in
  let priority :=
    if negb (contains "_resp" name_lower) then (priority + 20)%Z
    else priority in
  let priority :=
    if contains "tip" name_lower || contains "hand" name_lower
    then (priority + 2)%Z
    else priority in
  priority.

(** One round of the selection loop on [(best_candidate, best_priority)]. *)
Definition select_step (lower : String.string -> String.string)
  (st : option (String.string * nat) * Z) (c : String.string * nat)
  : option (String.string * nat) * Z :=
  let priority := priority_of (lower (fst c)) in
  if (priority >? snd st)%Z then (Some c, priority) else st.

Definition select_best (lower : String.string -> String.string)
  (candidates : list (String.string * nat))
  : option (String.string * nat) * Z :=
  fold_left (select_step lower) candidates (None, (-1)%Z).

Definition choose_tip (lower : String.string -> String.string)
  (candidates : list (String.string * nat)) : startup nat :=
  match candidates with
  | [] => SysExit 1
  | first :: _ =>
      match fst (select_best lower candidates) with
      | Some best_candidate => Started (snd best_candidate)
      | None => Started (snd first)
      end
  end.

Definition search_scene (lower : String.string -> String.string)
  (getObjectsInTree : result (list nat))
  (getObjectName : nat -> result String.string) : startup nat :=
  match
    (all_objects <- getObjectsInTree ;;
     collect_candidates lower getObjectName all_objects)%result
  with
  | Ok candidates => choose_tip lower candidates
  | Raise e => if is_Exception e then SysExit 1 else Uncaught e
  end.

(** The loop over [TIP_PATHS_TO_TRY]; [tip_handle] is the variable the
    loop assigns, [None] being Python's [None]. *)
Fixpoint resolve_tip_paths
  (getObject : String.string -> result (option nat))
  (getObjectName : nat -> result String.string)
  (paths : list String.string) (tip_handle : option nat)
  : result (option nat) :=
  match paths with
  | [] => Ok tip_handle
  | path :: rest =>
      match getObject path with
      | Ok (Some h) =>
          match getObjectName h with
          | Ok _ => Ok (Some h)
          | Raise e =>
              if is_Exception e
              then resolve_tip_paths getObject getObjectName rest (Some h)
              else Raise e
          end
      | Ok None => resolve_tip_paths getObject getObjectName rest None
      | Raise e =>
          if is_Exception e
          then resolve_tip_paths getObject getObjectName rest tip_handle
          else Raise e
      end
  end.

Definition TIP_PATHS_TO_TRY : list String.string :=
  [ "/Franka/panda_tip"; "/Franka/panda_hand"; "/Franka/panda_link7";
    "/Franka/panda_link8"; "/Franka/Franka_link8"; "/Franka/Franka_link7";
    "/Franka/Franka_link8_resp"; "/Franka/Franka_link7_resp" ].

(** Step 3 of [main]: the paths first, the scan of the scene when they
    leave [tip_handle] at [None]. *)
Definition resolve_tip (lower : String.string -> String.string)
  (getObject : String.string -> result (option nat))
  (getObjectsInTree : result (list nat))
  (getObjectName : nat -> result String.string) : startup nat :=
  match resolve_tip_paths getObject getObjectName TIP_PATHS_TO_TRY None with
  | Raise e => Uncaught e
  | Ok (Some h) => Started h
  | Ok None => search_scene lower getObjectsInTree getObjectName
  end.

(** *** [find_joint_handle_by_object_name] ([phase2_move_joint.py]) *)

Fixpoint find_by_name (getObjectName : nat -> result String.string)
  (wanted_name : String.string) (joints : list nat) : result (option nat) :=
  match joints with
  | [] => Ok None
  | h :: rest =>
      (name <- getObjectName h ;;
       if String.eqb name wanted_name then Ok (Some h)
       else find_by_name getObjectName wanted_name rest)%result
  end.

Definition find_joint_handle_by_object_name
  (getObjectsInTree : result (list nat))
  (getObjectName : nat -> result String.string)
  (wanted_name : String.string) : result (option nat) :=
  (joints <- getObjectsInTree ;;
   find_by_name getObjectName wanted_name joints)%result.

(** ASCII lower-casing, an instance of [str.lower] on ASCII names. *)
Definition lower_ascii_char (c : Ascii.ascii) : Ascii.ascii :=
  let n := Ascii.nat_of_ascii c in
  if ((65 <=? n) && (n <=? 90))%nat then Ascii.ascii_of_nat (n + 32) else c.

Fixpoint lower_ascii (s : String.string) : String.string :=
  match s with
  | String.EmptyString => String.EmptyString
  | String.String c s' => String.String (lower_ascii_char c) (lower_ascii s')
  end.

(** *** Reference notions for the start-up code *)

(** [c] is the first entry of [l] among those of greatest priority. *)
Definition first_maximal (lower : String.string -> String.string)
  (l : list (String.string * nat)) (c : String.string * nat) : Prop :=
  exists pre post,
    l = pre ++ c :: post
    /\ (forall x, In x pre ->
          (priority_of (lower (fst x)) < priority_of (lower (fst c)))%Z)
    /\ (forall x, In x post ->
          (priority_of (lower (fst x)) <= priority_of (lower (fst c)))%Z).

(** The applications the search looks into: the listed ones, and the
    globbed ones of an existing base whose name passes the test. *)
Definition app_considered (lower : String.string -> String.string)
  (fs : FileSystem) (app : path) : Prop :=
  In app (COPPELIA_APP_CANDIDATES (home fs))
  \/ exists base,
       In base (fallback_bases fs)
       /\ exists_ fs base = true
       /\ In app (glob_app fs base)
       /\ likely_app lower app = true.

(** The two folders of an application that the search can return. *)
Definition client_folders (app : path) : list path :=
  [ app ++ ["Contents"; "Resources"; "programming"; "zmqRemoteApi";
            "clients"; "python"];
    app ++ ["Contents"; "Resources"; "python"] ].

(** A folder that exists and has the layout of the client. *)
Definition client_layout (fs : FileSystem) (p : path) : Prop :=
  exists_ fs p = true
  /\ is_dir fs (p ++ ["zmqRemoteApi"]) = true
  /\ (is_dir fs (p ++ ["src"]) = true
      \/ is_dir fs (p ++ ["zmqRemoteApi"; "src"]) = true).

(* ================================================================= *)
(** ** Proof tools *)

(** Turn a list of known length into its explicit elements. *)
Ltac explode_lists :=
  repeat match goal with
    | H : is_mat _ _ _ |- _ => destruct H
    | H : Forall _ (_ :: _) |- _ => inversion H; subst; clear H
    | H : Forall _ [] |- _ => clear H
    | H : length ?l = S _ |- _ =>
        destruct l; [discriminate H | cbn [length] in H; apply eq_add_S in H]
    | H : length ?l = O |- _ =>
        destruct l; [clear H | discriminate H]
    end.

(** Equality of explicit vectors and matrices, entry by entry; [tac]
    closes the equations between reals. *)
Ltac entrywise tac :=
  repeat match goal with
    | |- Ok _ = Ok _ => apply f_equal
    | |- (_ :: _) = (_ :: _) => apply f_equal2
    | |- @nil _ = @nil _ => reflexivity
    | |- @eq R _ _ => tac
    end.

(** The kernel on small inputs. *)
Example mat_mult_2x2 :
  mat_mult [[1; 2]; [3; 4]] [[5; 6]; [7; 8]]
  = Ok [[0 + 1 * 5 + 2 * 7; 0 + 1 * 6 + 2 * 8];
        [0 + 3 * 5 + 4 * 7; 0 + 3 * 6 + 4 * 8]].
Proof. reflexivity. Qed.

Example mat_mult_mismatch :
  mat_mult [[1; 2]] [[1; 2]]
  = Raise (ValueError "Matrix dimensions incompatible").
Proof. reflexivity. Qed.

Example mat_mult_empty : mat_mult [] [[1]] = Raise IndexError.
Proof. reflexivity. Qed.

Example mat_transpose_2x3 :
  mat_transpose [[1; 2; 3]; [4; 5; 6]] = Ok [[1; 4]; [2; 5]; [3; 6]].
Proof. reflexivity. Qed.

Example mat_transpose_ragged :
  mat_transpose [[1; 2]; [3]] = Raise IndexError.
Proof. reflexivity. Qed.

Example mat_add_empty : mat_add [] [[1]] = Ok [].
Proof. reflexivity. Qed.

Lemma py_div_nonzero (a b : R) : b <> 0 -> py_div a b = Ok (a / b).
Proof.
  intros Hb. unfold py_div. destruct (Req_dec_T b 0); [contradiction | reflexivity].
Qed.

Lemma Rabs_small_nonzero (d : R) :
  ~ Rabs d < singular_threshold -> d <> 0.
Proof.
  intros H Hd. apply H. subst d. rewrite Rabs_R0.
  unfold singular_threshold. lra.
Qed.

Lemma solve_3x3_explicit (a00 a01 a02 a10 a11 a12 a20 a21 a22 b0 b1 b2 : R) :
  let A := [[a00; a01; a02]; [a10; a11; a12]; [a20; a21; a22]] in
  solve_3x3 A [b0; b1; b2] =
    if Rlt_dec (Rabs (det3 A)) singular_threshold
    then Raise (ValueError "Matrix is singular")
    else Ok [ (b0 * (a11 * a22 - a12 * a21)
               - a01 * (b1 * a22 - a12 * b2)
               + a02 * (b1 * a21 - a11 * b2)) / det3 A;
              (a00 * (b1 * a22 - a12 * b2)
               - b0 * (a10 * a22 - a12 * a20)
               + a02 * (a10 * b2 - b1 * a20)) / det3 A;
              (a00 * (a11 * b2 - b1 * a21)
               - a01 * (a10 * b2 - b1 * a20)
               + b0 * (a10 * a21 - a11 * a20)) / det3 A ].
Proof.
  intros A. unfold solve_3x3.
  cbn [idx2 idx nth_error rbind A].
  change (a00 * (a11 * a22 - a12 * a21) - a01 * (a10 * a22 - a12 * a20)
          + a02 * (a10 * a21 - a11 * a20)) with (det3 A).
  destruct (Rlt_dec (Rabs (det3 A)) singular_threshold) as [Hs | Hs];
    [reflexivity |].
  pose proof (Rabs_small_nonzero _ Hs) as Hd.
  rewrite !(py_div_nonzero _ _ Hd). reflexivity.
Qed.

(** C4.  For a 3x3 matrix [A] and a 3-vector [b], [solve_3x3] raises
    the singular-matrix error exactly when [|det A| < 1e-10]; otherwise
    it returns a vector [x] with [A x = b], and every solution of
    [A y = b] is that [x] (exact arithmetic). *)
Theorem solve_3x3_cramer (A : matrix) (b : vector)
  (HA : is_mat 3 3 A) (Hb : length b = 3%nat) :
  (solve_3x3 A b = Raise (ValueError "Matrix is singular")
   <-> Rabs (det3 A) < 1e-10)
  /\ (~ Rabs (det3 A) < 1e-10 ->
      exists x, solve_3x3 A b = Ok x
                /\ mat_vec A x = b
                /\ forall y, length y = 3%nat -> mat_vec A y = b -> y = x).
Proof.
  explode_lists. rewrite solve_3x3_explicit.
  change 1e-10 with singular_threshold.
  match goal with |- context [det3 ?A0] => set (M := A0) end.
  destruct (Rlt_dec (Rabs (det3 M)) singular_threshold) as [Hs | Hs].
  - split; [split; [intros _; exact Hs | reflexivity] |].
    intros Hn; contradiction.
  - split; [split; [discriminate | intros Hn; contradiction] |].
    intros _. pose proof (Rabs_small_nonzero _ Hs) as Hd.
    eexists; split; [reflexivity |]. split.
    + unfold M, mat_vec, dot; cbn [map combine fold_left fst snd].
      unfold M, det3, entry in Hd |- *; cbn [nth] in Hd |- *.
      entrywise ltac:(field; exact Hd).
    + intros y Hy Hsol. explode_lists.
      unfold M, mat_vec, dot in Hsol; cbn [map combine fold_left fst snd] in Hsol.
      injection Hsol as E0 E1 E2. subst.
      unfold M, det3, entry in Hd |- *; cbn [nth] in Hd |- *.
      entrywise ltac:(field; exact Hd).
Qed.

(** *** The kernel against the reference, at the controller's shapes *)

Lemma solve_3x3_shape (A : matrix) (b v : vector) :
  solve_3x3 A b = Ok v -> exists x y z, v = [x; y; z].
Proof.
  unfold solve_3x3, rbind.
  repeat match goal with
         | |- context [match ?r with Ok _ => _ | Raise _ => _ end] =>
             destruct r; try discriminate
         | |- context [if ?c then _ else _] => destruct c; try discriminate
         end.
  intros H. injection H as <-. eauto.
Qed.

Lemma solve_3x3_inv3 (A : matrix) (b : vector) :
  is_mat 3 3 A -> length b = 3%nat ->
  ~ Rabs (det3 A) < singular_threshold ->
  solve_3x3 A b = Ok (mat_vec (inv3 A) b).
Proof.
  intros HA Hb Hs. explode_lists. rewrite solve_3x3_explicit.
  match goal with |- context [det3 ?A0] => set (M := A0) in * end.
  destruct (Rlt_dec (Rabs (det3 M)) singular_threshold); [contradiction |].
  pose proof (Rabs_small_nonzero _ Hs) as Hd.
  unfold mat_vec, inv3, dot. cbn [map combine fold_left fst snd].
  unfold M, det3, entry in Hd |- *; cbn [nth] in Hd |- *.
  entrywise ltac:(field; exact Hd).
Qed.

Lemma inv3_inverse (A : matrix) :
  is_mat 3 3 A -> det3 A <> 0 ->
  mmul A (inv3 A) = mat_eye 3 /\ mmul (inv3 A) A = mat_eye 3.
Proof.
  intros HA Hd. explode_lists.
  unfold mmul, mtrans, inv3, dot, mat_eye.
  cbn [map combine fold_left fst snd hd length seq nth Nat.eqb].
  unfold det3, entry in Hd |- *; cbn [nth] in Hd |- *.
  split; entrywise ltac:(field; exact Hd).
Qed.

Lemma dls_solve_unfold (J : matrix) (dx : vector) (lam : R) :
  is_mat 3 7 J ->
  dls_solve J dx lam =
    (x <- solve_3x3 (damped_gram J lam) dx ;; Ok (mat_vec (mtrans J) x))%result.
Proof.
  intros HJ. explode_lists. unfold dls_solve.
  match goal with |- context [mat_transpose ?J0] => set (J := J0) end.
  change (mat_transpose J) with (Ok (mtrans J)).
  cbn [rbind].
  change (mat_mult J (mtrans J)) with (Ok (mmul J (mtrans J))).
  cbn [rbind].
  change (mat_scale (mat_eye 3) (lam ^ 2)) with (Ok (mscal (lam ^ 2) (mat_eye 3))).
  cbn [rbind].
  change (mat_add (mmul J (mtrans J)) (mscal (lam ^ 2) (mat_eye 3)))
    with (Ok (damped_gram J lam)).
  cbn [rbind].
  destruct (solve_3x3 (damped_gram J lam) dx) as [v | e] eqn:E; [| reflexivity].
  destruct (solve_3x3_shape _ _ _ E) as (x & y & z & ->).
  reflexivity.
Qed.

Lemma damped_gram_shape (J : matrix) (lam : R) :
  is_mat 3 7 J -> is_mat 3 3 (damped_gram J lam).
Proof.
  intros HJ. explode_lists. split; [reflexivity |].
  repeat constructor.
Qed.

Lemma zero_3x7_shape : is_mat 3 7 zero_3x7.
Proof. split; [reflexivity | repeat constructor]. Qed.

Lemma unit_3x7_shape : is_mat 3 7 unit_3x7.
Proof. split; [reflexivity | repeat constructor]. Qed.

Lemma det3_damped_zero (lam : R) :
  det3 (damped_gram zero_3x7 lam) = (lam ^ 2) ^ 3.
Proof.
  unfold det3, entry, damped_gram, madd, mmul, mscal, mtrans, dot, mat_eye,
    zero_3x7.
  cbn [map combine fold_left fst snd hd length seq nth Nat.eqb]. ring.
Qed.

Lemma det3_damped_unit (lam : R) :
  det3 (damped_gram unit_3x7 lam) = (1 + lam ^ 2) ^ 3.
Proof.
  unfold det3, entry, damped_gram, madd, mmul, mscal, mtrans, dot, mat_eye,
    unit_3x7.
  cbn [map combine fold_left fst snd hd length seq nth Nat.eqb]. ring.
Qed.

Lemma dot_zero3 (v : vector) : dot [0; 0; 0] v = 0.
Proof.
  destruct v as [| a [| b [| c v]]]; unfold dot;
    cbn [map combine fold_left fst snd]; ring.
Qed.

Lemma dls_solve_zero_jacobian (dx : vector) (lam : R) :
  length dx = 3%nat ->
  ~ Rabs (det3 (damped_gram zero_3x7 lam)) < singular_threshold ->
  dls_solve zero_3x7 dx lam = Ok [0; 0; 0; 0; 0; 0; 0].
Proof.
  intros Hdx Hs.
  rewrite (dls_solve_unfold _ _ _ zero_3x7_shape).
  rewrite (solve_3x3_inv3 _ _ (damped_gram_shape _ lam zero_3x7_shape) Hdx Hs).
  cbn [rbind]. unfold mat_vec at 1.
  change (mtrans zero_3x7) with (repeat [0; 0; 0] 7).
  cbn [repeat map]. rewrite !dot_zero3. reflexivity.
Qed.

(** The theorem at the identity matrix. *)
Lemma solve_3x3_cramer_witness :
  (solve_3x3 (mat_eye 3) [1; 2; 3] = Raise (ValueError "Matrix is singular")
   <-> Rabs (det3 (mat_eye 3)) < 1e-10)
  /\ (~ Rabs (det3 (mat_eye 3)) < 1e-10 ->
      exists x, solve_3x3 (mat_eye 3) [1; 2; 3] = Ok x
                /\ mat_vec (mat_eye 3) x = [1; 2; 3]
                /\ forall y, length y = 3%nat ->
                             mat_vec (mat_eye 3) y = [1; 2; 3] -> y = x).
Proof.
  apply (solve_3x3_cramer (mat_eye 3) [1; 2; 3]).
  - split; [reflexivity | repeat constructor].
  - reflexivity.
Defined.

(* ================================================================= *)
(** ** Reasoning about computations against the world *)

Lemma returns_ret {A} (a : A) (w : World) (Q : A -> World -> Prop) :
  Q a w -> returns (ret a) w Q.
Proof. intros HQ b w' H. injection H as <- <-. exact HQ. Qed.

Lemma returns_bind {A B} (m : M A) (k : A -> M B) (w : World)
  (Q : B -> World -> Prop) :
  returns m w (fun a w1 => returns (k a) w1 Q) -> returns (bind m k) w Q.
Proof.
  intros H b w' E. unfold bind in E.
  destruct (m w) as [[a | e |] w1] eqn:Em; try discriminate.
  exact (H a w1 Em b w' E).
Qed.

Lemma returns_lift {A} (r : result A) (w : World) (Q : A -> World -> Prop) :
  (forall a, r = Ok a -> Q a w) -> returns (lift r) w Q.
Proof.
  intros H a w' E. unfold lift in E. destruct r; [| discriminate].
  injection E as <- <-. apply H. reflexivity.
Qed.

Lemma returns_weaken {A} (m : M A) (w : World) (P Q : A -> World -> Prop) :
  returns m w P -> (forall a w', P a w' -> Q a w') -> returns m w Q.
Proof. intros HP HPQ a w' E. apply HPQ, HP, E. Qed.

Lemma returns_remote {A} (c : call) (op : World -> A * World) (w : World)
  (Q : A -> World -> Prop) :
  (next_fault w = None ->
   Q (fst (op (pop_fault w))) (record_call c true (snd (op (pop_fault w))))) ->
  returns (remote c op) w Q.
Proof.
  intros H a w' E. unfold remote in E.
  destruct (next_fault w); [discriminate |].
  destruct (op (pop_fault w)) as [a0 w0]. injection E as <- <-.
  apply H. reflexivity.
Qed.

(** One step of symbolic execution of a computation under [returns]. *)
Ltac returns_step :=
  lazymatch goal with
  | |- returns (bind _ _) _ _ => apply returns_bind
  | |- returns (ret _) _ _ => apply returns_ret
  | |- returns (lift _) _ _ => apply returns_lift; intros ? ?
  | |- returns (remote _ _) _ _ => apply returns_remote; intros _
  | |- returns (getSimulationTime) _ _ => apply returns_remote; intros _
  | |- returns (getJointPosition _) _ _ => apply returns_remote; intros _
  | |- returns (setJointPosition _ _) _ _ => apply returns_remote; intros _
  | |- returns (getObjectPosition) _ _ => apply returns_remote; intros _
  | |- returns (client_step) _ _ => apply returns_remote; intros _
  | |- returns (startSimulation) _ _ => apply returns_remote; intros _
  | |- returns (stopSimulation) _ _ => apply returns_remote; intros _
  end.

Ltac world_simpl :=
  cbn [fk sim_dt joints sim_time running faults log
       set_joints_of set_time_of set_running_of set_faults_of record_call
       pop_fault fst snd] in *.

Lemma same_arm_refl (w : World) : same_arm w w.
Proof. split; reflexivity. Qed.

Lemma command_joints_returns (qs : vector) (w : World)
  (Q : unit -> World -> Prop) :
  length qs = 7%nat -> length (joints w) = 7%nat ->
  (forall w', joints w' = qs -> same_arm w w' ->
              sim_time w' = sim_time w -> running w' = running w -> Q tt w') ->
  returns (command_joints qs) w Q.
Proof.
  intros Hq Hj HQ. destruct w as [f d js t r fs lg]. world_simpl.
  explode_lists.
  unfold command_joints, enumerate, joint_handles.
  cbn [length seq combine mfor fst snd].
  repeat (returns_step; world_simpl).
  repeat match goal with
         | H : idx _ _ = Ok _ |- _ =>
             cbn [idx nth_error] in H; injection H as <-
         end.
  apply HQ; [reflexivity | split; reflexivity | reflexivity | reflexivity].
Qed.

Lemma list_set_length {A} (l l' : list A) (i : nat) (v : A) :
  list_set l i v = Ok l' -> length l' = length l.
Proof.
  revert i l'. induction l as [| x l IH]; intros [| i] l' H;
    cbn [list_set] in H; try discriminate.
  - injection H as <-. reflexivity.
  - destruct (list_set l i v) as [l0 |] eqn:E; cbn [rbind] in H;
      [| discriminate].
    injection H as <-. cbn [length]. f_equal. eapply IH, E.
Qed.

(** However the probes are scripted to fail, a probe loop that returns
    has put the joints back to [q]. *)
Lemma probe_columns_returns (eps : R) (q p : vector) (cols : list nat) :
  length q = 7%nat ->
  forall (Jm : matrix) (w : World) (Q : matrix -> World -> Prop),
    length (joints w) = 7%nat ->
    cols <> [] \/ joints w = q ->
    (forall Jm' w', joints w' = q -> same_arm w w' ->
                    running w' = running w -> Q Jm' w') ->
    returns (probe_columns eps q p cols Jm) w Q.
Proof.
  intros Hq. induction cols as [| i cols IH]; intros Jm w Q Hj Hne HQ.
  - cbn [probe_columns]. apply returns_ret.
    destruct Hne as [Hne | Hne]; [contradiction |].
    apply HQ; [exact Hne | apply same_arm_refl | reflexivity].
  - cbn [probe_columns].
    apply returns_bind, returns_lift; intros q_i _.
    apply returns_bind, returns_lift; intros q_pert Hpert.
    apply list_set_length in Hpert.
    apply returns_bind, command_joints_returns; [congruence | exact Hj |].
    intros w1 _ [Hf1 Hd1 Hl1] _ Hr1.
    apply returns_bind, returns_remote; intros _.
    apply returns_bind, returns_remote; intros _.
    apply returns_bind, returns_lift; intros J' _.
    apply returns_bind, command_joints_returns;
      [exact Hq | world_simpl; congruence |].
    intros w2 Hq2 [Hf2 Hd2 Hl2] _ Hr2. world_simpl.
    apply returns_bind, returns_remote; intros _.
    apply IH.
    + world_simpl. congruence.
    + right. world_simpl. exact Hq2.
    + intros Jm' w' Hq' [Hf' Hd' Hl'] Hr'. world_simpl.
      apply HQ; [exact Hq' | split; congruence | congruence].
Qed.

Lemma succeeds_ret {A} (a : A) (w : World) (Q : A -> World -> Prop) :
  Q a w -> succeeds (ret a) w Q.
Proof. intros HQ. exists a, w. split; [reflexivity | exact HQ]. Qed.

Lemma succeeds_bind {A B} (m : M A) (k : A -> M B) (w : World)
  (Q : B -> World -> Prop) :
  succeeds m w (fun a w1 => succeeds (k a) w1 Q) -> succeeds (bind m k) w Q.
Proof.
  intros (a & w1 & Em & b & w' & Ek & HQ). exists b, w'.
  split; [| exact HQ]. unfold bind. rewrite Em. exact Ek.
Qed.

Lemma succeeds_lift {A} (r : result A) (a : A) (w : World)
  (Q : A -> World -> Prop) :
  r = Ok a -> Q a w -> succeeds (lift r) w Q.
Proof.
  intros -> HQ. exists a, w. split; [reflexivity | exact HQ].
Qed.

Lemma succeeds_remote {A} (c : call) (op : World -> A * World) (w : World)
  (Q : A -> World -> Prop) :
  next_fault w = None ->
  Q (fst (op (pop_fault w))) (record_call c true (snd (op (pop_fault w)))) ->
  succeeds (remote c op) w Q.
Proof.
  intros Hn HQ. unfold succeeds, remote. rewrite Hn.
  destruct (op (pop_fault w)) as [a w']. eauto.
Qed.

Lemma succeeds_weaken {A} (m : M A) (w : World) (P Q : A -> World -> Prop) :
  succeeds m w P -> (forall a w', P a w' -> Q a w') -> succeeds m w Q.
Proof. intros (a & w' & E & HP) HPQ. exists a, w'. auto. Qed.

(** Symbolic execution in a world with an empty fault script. *)
Ltac quiet_step :=
  lazymatch goal with
  | |- succeeds (bind _ _) _ _ => apply succeeds_bind
  | |- succeeds (ret _) _ _ => apply succeeds_ret
  | |- succeeds (lift _) _ _ =>
      eapply succeeds_lift;
      [cbn [idx idx2 nth_error list_set rbind fill_column];
       rewrite ?py_div_nonzero by assumption;
       cbn [idx idx2 nth_error list_set rbind fill_column]; reflexivity |]
  | |- succeeds _ _ _ => apply succeeds_remote; [reflexivity |]
  end;
  cbn [fk sim_dt joints sim_time running faults log tl
       set_joints_of set_time_of set_running_of set_faults_of record_call
       pop_fault fst snd update_joint].

Lemma command_joints_quiet (qs : vector) (w : World)
  (Q : unit -> World -> Prop) :
  faults w = [] -> length qs = 7%nat -> length (joints w) = 7%nat ->
  Q tt (mkWorld (fk w) (sim_dt w) qs (sim_time w) (running w) []
                (logged (set_calls qs) ++ log w)) ->
  succeeds (command_joints qs) w Q.
Proof.
  intros Hf Hq Hj HQ. destruct w as [f d js t r fs lg]. world_simpl.
  subst fs. explode_lists.
  unfold command_joints, enumerate, joint_handles.
  cbn [length seq combine mfor fst snd].
  repeat quiet_step. exact HQ.
Qed.

(** The estimation in a world with an empty fault script: it returns the
    forward-difference matrix, after the calls of seven probes and
    fourteen steps, with the joints back at [q]. *)
Lemma estimate_jacobian_quiet (eps : R) (q p : vector) (w : World)
  (Q : matrix -> World -> Prop) :
  faults w = [] -> length q = 7%nat -> length (joints w) = 7%nat ->
  length p = 3%nat -> (forall x, length (fk w x) = 3%nat) -> eps <> 0 ->
  Q (forward_difference (fk w) q p eps)
    (mkWorld (fk w) (sim_dt w) q
             (Nat.iter 14 (fun t => t + sim_dt w) (sim_time w))
             (running w) []
             (logged (flat_map (probe_calls q eps) (seq 0 7)) ++ log w)) ->
  succeeds (estimate_jacobian eps q p) w Q.
Proof.
  intros Hf Hq Hj Hp Hfk Heps HQ. destruct w as [f d js t r fs lg].
  world_simpl. subst fs. explode_lists.
  unfold forward_difference, perturbed in HQ.
  cbn [map seq nth update_joint Nat.iter nat_rect] in HQ.
  unfold estimate_jacobian. cbn [seq probe_columns repeat].
  repeat first
    [ apply succeeds_bind; apply command_joints_quiet;
      [reflexivity | reflexivity | reflexivity |]; world_simpl
    | match goal with
      | |- context [fill_column _ _ (f ?x) _ _ _] =>
          let H := fresh "Hlen" in
          pose proof (Hfk x) as H; revert HQ;
          destruct (f x) as [| ? [| ? [| ? [| ? ?]]]]; try discriminate H;
          intros HQ; clear H
      end
    | quiet_step ].
  cbn [nth] in HQ. exact HQ.
Qed.

(* ================================================================= *)
(** ** The damped least-squares solve *)

Lemma solve_3x3_singular (A : matrix) (b : vector) :
  is_mat 3 3 A ->
  Rabs (det3 A) < singular_threshold ->
  solve_3x3 A b = Raise (ValueError "Matrix is singular").
Proof.
  intros HA Hs. explode_lists. unfold solve_3x3.
  cbn [idx2 idx nth_error rbind].
  match type of Hs with Rabs (det3 ?A0) < _ => set (M := A0) in * end.
  match goal with
  | |- context [Rlt_dec (Rabs ?d) _] => change d with (det3 M)
  end.
  destruct (Rlt_dec (Rabs (det3 M)) singular_threshold);
    [reflexivity | contradiction].
Qed.

Lemma dls_formula_length (J : matrix) (dx : vector) (lam : R) :
  is_mat 3 7 J -> length (dls_formula J dx lam) = 7%nat.
Proof.
  intros HJ. explode_lists. reflexivity.
Qed.

Lemma dls_solve_unit_scenario :
  dls_solve unit_3x7 [0.002; 0; 0] 0 = Ok [0.002; 0; 0; 0; 0; 0; 0].
Proof.
  assert (Hd : det3 (damped_gram unit_3x7 0) = 1)
    by (rewrite det3_damped_unit; ring).
  rewrite (dls_solve_unfold _ _ _ unit_3x7_shape).
  rewrite (solve_3x3_inv3 _ [0.002; 0; 0] (damped_gram_shape _ 0 unit_3x7_shape) eq_refl).
  - cbn [rbind]. unfold inv3. rewrite Hd.
    unfold mat_vec, entry, damped_gram, madd, mmul, mscal, mtrans, dot,
      mat_eye, unit_3x7.
    cbn [map combine fold_left fst snd hd length seq nth Nat.eqb].
    entrywise lra.
  - rewrite Hd, Rabs_R1. unfold singular_threshold. lra.
Qed.

(** C3, as amended.  For a 3x7 matrix [J], a 3-vector [dx] and a damping
    [lam >= 0] whose damped 3x3 system passes the solver's test, that is
    [|det (J J^T + lam^2 I)| >= 1e-10], the solver returns the 7-vector
    [J^T (J J^T + lam^2 I)^-1 dx], where the inverse is a two-sided
    inverse of the damped system.  In particular, for the matrix whose
    first three columns are the identity and the others zero,
    [dx = (0.002, 0, 0)] and [lam = 0], it returns
    [(0.002, 0, 0, 0, 0, 0, 0)]. *)
Theorem dls_solve_formula (J : matrix) (dx : vector) (lam : R)
  (HJ : is_mat 3 7 J) (Hdx : length dx = 3%nat) (Hlam : 0 <= lam)
  (Hdet : 1e-10 <= Rabs (det3 (damped_gram J lam))) :
  dls_solve J dx lam = Ok (dls_formula J dx lam)
  /\ length (dls_formula J dx lam) = 7%nat
  /\ mmul (damped_gram J lam) (inv3 (damped_gram J lam)) = mat_eye 3
  /\ mmul (inv3 (damped_gram J lam)) (damped_gram J lam) = mat_eye 3
  /\ dls_solve unit_3x7 [0.002; 0; 0] 0 = Ok [0.002; 0; 0; 0; 0; 0; 0].
Proof.
  assert (Hs : ~ Rabs (det3 (damped_gram J lam)) < singular_threshold)
    by (unfold singular_threshold; lra).
  pose proof (damped_gram_shape J lam HJ) as HM.
  split; [| split; [| split; [| split]]].
  - rewrite (dls_solve_unfold _ _ _ HJ).
    rewrite (solve_3x3_inv3 _ _ HM Hdx Hs). reflexivity.
  - apply dls_formula_length, HJ.
  - apply inv3_inverse; [exact HM | apply Rabs_small_nonzero, Hs].
  - apply inv3_inverse; [exact HM | apply Rabs_small_nonzero, Hs].
  - exact dls_solve_unit_scenario.
Qed.

(** The theorem at the scenario itself. *)
Lemma dls_solve_formula_witness :
  dls_solve unit_3x7 [0.002; 0; 0] 0 = Ok (dls_formula unit_3x7 [0.002; 0; 0] 0)
  /\ length (dls_formula unit_3x7 [0.002; 0; 0] 0) = 7%nat
  /\ mmul (damped_gram unit_3x7 0) (inv3 (damped_gram unit_3x7 0)) = mat_eye 3
  /\ mmul (inv3 (damped_gram unit_3x7 0)) (damped_gram unit_3x7 0) = mat_eye 3
  /\ dls_solve unit_3x7 [0.002; 0; 0] 0 = Ok [0.002; 0; 0; 0; 0; 0; 0].
Proof.
  apply (dls_solve_formula unit_3x7 [0.002; 0; 0] 0).
  - exact unit_3x7_shape.
  - reflexivity.
  - lra.
  - rewrite det3_damped_unit.
    replace ((1 + 0 ^ 2) ^ 3) with 1 by ring. rewrite Rabs_R1. lra.
Defined.

(** C3, the claim as stated fails: the all-zero Jacobian with damping
    [0.01] gives the damped system [1e-4 I], which is nonsingular
    (determinant [1e-12]), and yet the solve raises. *)
Lemma dls_solve_rejects_nonsingular :
  is_mat 3 7 zero_3x7
  /\ 0 <= 0.01
  /\ det3 (damped_gram zero_3x7 0.01) = 1e-12
  /\ det3 (damped_gram zero_3x7 0.01) <> 0
  /\ dls_solve zero_3x7 [0.002; 0; 0] 0.01
     = Raise (ValueError "Matrix is singular").
Proof.
  assert (Hd : det3 (damped_gram zero_3x7 0.01) = 1e-12)
    by (rewrite det3_damped_zero; lra).
  split; [exact zero_3x7_shape |].
  split; [lra |]. split; [exact Hd |]. split; [rewrite Hd; lra |].
  rewrite (dls_solve_unfold _ _ _ zero_3x7_shape).
  rewrite solve_3x3_singular; [reflexivity | |].
  - apply damped_gram_shape, zero_3x7_shape.
  - rewrite Hd, Rabs_pos_eq by lra. unfold singular_threshold. lra.
Qed.

(** C6.  For the all-zero 3x7 Jacobian and any 3-vector [dx]: with
    [lam = 0] the damped system has determinant [0] and the solve raises
    the singular-matrix error; with [lam = 0.1] the determinant is
    [1e-6], the solve succeeds and returns the zero 7-vector. *)
Theorem dls_solve_degenerate (dx : vector) (Hdx : length dx = 3%nat) :
  det3 (damped_gram zero_3x7 0) = 0
  /\ dls_solve zero_3x7 dx 0 = Raise (ValueError "Matrix is singular")
  /\ det3 (damped_gram zero_3x7 0.1) = 1e-6
  /\ dls_solve zero_3x7 dx 0.1 = Ok [0; 0; 0; 0; 0; 0; 0].
Proof.
  assert (H0 : det3 (damped_gram zero_3x7 0) = 0)
    by (rewrite det3_damped_zero; ring).
  assert (H1 : det3 (damped_gram zero_3x7 0.1) = 1e-6)
    by (rewrite det3_damped_zero; lra).
  split; [exact H0 |]. split; [| split; [exact H1 |]].
  - rewrite (dls_solve_unfold _ _ _ zero_3x7_shape).
    rewrite solve_3x3_singular; [reflexivity | |].
    + apply damped_gram_shape, zero_3x7_shape.
    + rewrite H0, Rabs_R0. unfold singular_threshold. lra.
  - apply dls_solve_zero_jacobian; [exact Hdx |].
    rewrite H1, Rabs_pos_eq by lra. unfold singular_threshold. lra.
Qed.

(** The theorem at [dx = (0.002, 0, 0)]. *)
Lemma dls_solve_degenerate_witness :
  det3 (damped_gram zero_3x7 0) = 0
  /\ dls_solve zero_3x7 [0.002; 0; 0] 0
     = Raise (ValueError "Matrix is singular")
  /\ det3 (damped_gram zero_3x7 0.1) = 1e-6
  /\ dls_solve zero_3x7 [0.002; 0; 0] 0.1 = Ok [0; 0; 0; 0; 0; 0; 0].
Proof.
  apply (dls_solve_degenerate [0.002; 0; 0]). reflexivity.
Defined.

(* ================================================================= *)
(** ** The velocity limiter *)

Lemma clip1_Rmax_Rmin (max_dq x : R) :
  0 < max_dq -> clip1 max_dq x = Rmax (- max_dq) (Rmin max_dq x).
Proof.
  intros HM. unfold clip1, py_max, py_min.
  destruct (Rlt_dec x max_dq) as [H1 | H1].
  - rewrite (Rmin_right max_dq x) by lra.
    destruct (Rgt_dec x (- max_dq));
      [rewrite Rmax_right by lra | rewrite Rmax_left by lra]; reflexivity.
  - rewrite (Rmin_left max_dq x) by lra.
    destruct (Rgt_dec max_dq (- max_dq)); [| lra].
    rewrite Rmax_right by lra. reflexivity.
Qed.

Lemma clip1_range (max_dq x : R) :
  0 < max_dq -> - max_dq <= clip1 max_dq x <= max_dq.
Proof.
  intros HM. unfold clip1, py_max, py_min.
  destruct (Rlt_dec x max_dq);
    match goal with |- context [Rgt_dec ?a ?b] => destruct (Rgt_dec a b) end;
    lra.
Qed.

Lemma clip1_contracts (max_dq x : R) :
  0 < max_dq ->
  Rabs (clip1 max_dq x) <= Rabs x /\ 0 <= clip1 max_dq x * x.
Proof.
  intros HM. unfold clip1, py_max, py_min.
  destruct (Rlt_dec x max_dq);
    match goal with |- context [Rgt_dec ?a ?b] => destruct (Rgt_dec a b) end;
    split; try (unfold Rabs; repeat destruct Rcase_abs; lra); nra.
Qed.

Lemma fold_left_Rplus_acc (l : list R) (a : R) :
  fold_left Rplus l a = a + py_sum l.
Proof.
  unfold py_sum. revert a.
  induction l as [| x l IH]; intros a; cbn [fold_left].
  - ring.
  - rewrite IH, (IH (0 + x)). ring.
Qed.

Lemma py_sum_cons (x : R) (l : list R) : py_sum (x :: l) = x + py_sum l.
Proof.
  unfold py_sum at 1. cbn [fold_left]. rewrite fold_left_Rplus_acc. ring.
Qed.

Lemma sumsq_cons (x : R) (v : vector) : sumsq (x :: v) = x * x + sumsq v.
Proof. unfold sumsq. cbn [map]. apply py_sum_cons. Qed.

Lemma sumsq_nonneg (v : vector) : 0 <= sumsq v.
Proof.
  induction v as [| x v IH].
  - unfold sumsq, py_sum; cbn. lra.
  - rewrite sumsq_cons. nra.
Qed.

Lemma sumsq_scale (c : R) (v : vector) :
  sumsq (map (fun x => c * x) v) = c * c * sumsq v.
Proof.
  induction v as [| x v IH].
  - unfold sumsq, py_sum; cbn. ring.
  - cbn [map]. rewrite !sumsq_cons, IH. ring.
Qed.

Lemma vec_norm_scale (c : R) (v : vector) :
  0 <= c -> vec_norm (map (fun x => c * x) v) = c * vec_norm v.
Proof.
  intros Hc. unfold vec_norm. fold (sumsq v).
  fold (sumsq (map (fun x => c * x) v)).
  rewrite sumsq_scale, sqrt_mult by (try apply sumsq_nonneg; nra).
  rewrite sqrt_square by exact Hc. reflexivity.
Qed.

(** What the limiter returns, in one equation. *)
Lemma limit_dq_cases (max_dq : R) (dq : vector) :
  0 < max_dq ->
  let c := clip_dq max_dq dq in
  limit_dq max_dq dq =
    if Rgt_dec (vec_norm c) max_dq
    then let out := map (fun x => max_dq / vec_norm c * x) c in
         Ok (out, vec_norm out)
    else Ok (c, vec_norm c).
Proof.
  intros HM c. unfold limit_dq. fold c.
  destruct (Rgt_dec (vec_norm c) max_dq) as [Hgt | Hle]; [| reflexivity].
  rewrite py_div_nonzero by lra. reflexivity.
Qed.

Lemma scale_in_unit (m n : R) : 0 < m -> n > m -> 0 < m / n < 1.
Proof.
  intros Hm Hn. split.
  - apply Rdiv_lt_0_compat; lra.
  - apply Rmult_lt_reg_r with n; [lra |]. field_simplify; lra.
Qed.

Lemma limit_dq_norm (max_dq : R) (dq out : vector) (n : R) :
  0 < max_dq ->
  limit_dq max_dq dq = Ok (out, n) ->
  n = vec_norm out
  /\ vec_norm out <= max_dq
  /\ (vec_norm (clip_dq max_dq dq) > max_dq -> vec_norm out = max_dq).
Proof.
  intros HM. rewrite limit_dq_cases by exact HM. cbv zeta.
  destruct (Rgt_dec (vec_norm (clip_dq max_dq dq)) max_dq) as [Hgt | Hle];
    intros H; injection H as <- <-.
  - destruct (scale_in_unit _ _ HM Hgt) as [Hs0 Hs1].
    rewrite vec_norm_scale by lra.
    assert (E : max_dq / vec_norm (clip_dq max_dq dq)
                * vec_norm (clip_dq max_dq dq) = max_dq) by (field; lra).
    rewrite E. repeat split; lra.
  - repeat split; lra.
Qed.

Lemma clip_dq_componentwise (max_dq : R) (dq : vector) :
  0 < max_dq ->
  Forall2 (fun x y => Rabs y <= Rabs x /\ 0 <= y * x /\ Rabs y <= max_dq)
          dq (clip_dq max_dq dq).
Proof.
  intros HM. unfold clip_dq.
  induction dq as [| x dq IH]; cbn [map]; constructor; [| exact IH].
  pose proof (clip1_contracts max_dq x HM) as [Ha Hb].
  pose proof (clip1_range max_dq x HM) as Hr.
  repeat split; try assumption. apply Rabs_le; lra.
Qed.

Lemma scaled_clip_componentwise (max_dq s : R) (dq : vector) :
  0 < max_dq -> 0 < s < 1 ->
  Forall2 (fun x y => Rabs y <= Rabs x /\ 0 <= y * x /\ Rabs y <= max_dq)
          dq (map (fun x => s * x) (clip_dq max_dq dq)).
Proof.
  intros HM Hs. unfold clip_dq.
  induction dq as [| x dq IH]; cbn [map]; constructor; [| exact IH].
  pose proof (clip1_contracts max_dq x HM) as [Ha Hb].
  pose proof (clip1_range max_dq x HM) as Hr.
  rewrite Rabs_mult, (Rabs_pos_eq s) by lra.
  assert (Hc : 0 <= Rabs (clip1 max_dq x)) by apply Rabs_pos.
  assert (Hm : Rabs (clip1 max_dq x) <= max_dq) by (apply Rabs_le; lra).
  repeat split; nra.
Qed.

(** Each output component against the matching input component. *)
Lemma limit_dq_componentwise (max_dq : R) (dq out : vector) (n : R) :
  0 < max_dq ->
  limit_dq max_dq dq = Ok (out, n) ->
  Forall2 (fun x y => Rabs y <= Rabs x /\ 0 <= y * x /\ Rabs y <= max_dq)
          dq out.
Proof.
  intros HM. rewrite limit_dq_cases by exact HM. cbv zeta.
  destruct (Rgt_dec (vec_norm (clip_dq max_dq dq)) max_dq) as [Hgt | Hle];
    intros H; injection H as <- <-.
  - apply scaled_clip_componentwise; [exact HM |].
    apply scale_in_unit; assumption.
  - apply clip_dq_componentwise, HM.
Qed.

Lemma limit_dq_total (max_dq : R) (dq : vector) :
  0 < max_dq -> exists out n, limit_dq max_dq dq = Ok (out, n).
Proof.
  intros HM. rewrite limit_dq_cases by exact HM. cbv zeta.
  destruct (Rgt_dec (vec_norm (clip_dq max_dq dq)) max_dq); eauto.
Qed.

Lemma Forall2_at {A B} (P : A -> B -> Prop) (l : list A) (l' : list B) :
  Forall2 P l l' ->
  forall i a b, (i < length l)%nat -> P (nth i l a) (nth i l' b).
Proof.
  induction 1 as [| x y l l' Hxy _ IH]; intros i a b Hi; cbn [length] in Hi.
  - lia.
  - destruct i as [| i]; cbn [nth]; [exact Hxy | apply IH; lia].
Qed.

Lemma Forall2_right {A B} (P : A -> B -> Prop) (Q : B -> Prop)
  (l : list A) (l' : list B) :
  (forall a b, P a b -> Q b) -> Forall2 P l l' -> Forall Q l'.
Proof.
  intros HPQ. induction 1; constructor; eauto.
Qed.

Lemma clip_dq_nth (max_dq : R) (dq : vector) (i : nat) :
  0 < max_dq ->
  nth i (clip_dq max_dq dq) 0 = Rmax (- max_dq) (Rmin max_dq (nth i dq 0)).
Proof.
  intros HM. unfold clip_dq.
  rewrite <- (clip1_Rmax_Rmin max_dq (nth i dq 0) HM).
  revert i. induction dq as [| x dq IH]; intros [| i]; cbn [map nth];
    try apply IH; try reflexivity.
  - rewrite clip1_Rmax_Rmin, Rmin_right, Rmax_right by lra; reflexivity.
  - rewrite clip1_Rmax_Rmin, Rmin_right, Rmax_right by lra; reflexivity.
Qed.

(** The program's norm is the Euclidean one: the square root of the
    sum of the squares. *)
Lemma sumsq_sum_squares (v : vector) : sumsq v = sum_squares v.
Proof.
  induction v as [| x v IH]; [unfold sumsq, py_sum; reflexivity |].
  rewrite sumsq_cons, IH. reflexivity.
Qed.

Lemma vec_norm_euclidean (v : vector) : vec_norm v = sqrt (sum_squares v).
Proof.
  change (vec_norm v) with (sqrt (sumsq v)).
  rewrite sumsq_sum_squares. reflexivity.
Qed.

(** C5.  For a 7-vector [dq] and [maxDq > 0] the limiter returns; it
    first clamps every component on its own into [[-maxDq, maxDq]]; when
    the norm of the clamped vector exceeds [maxDq] all components are
    scaled by one factor and the norm of the result is [maxDq],
    otherwise the clamped vector is the result; in both cases every
    component of the output has magnitude at most [maxDq] and the
    Euclidean norm of the output is at most [maxDq].  The norm is stated
    twice: as the program computes it ([vec_norm]) and as the square
    root of the sum of the squares of the components. *)
Theorem limit_dq_bounds (dq : vector) (max_dq : R)
  (Hlen : length dq = 7%nat) (HM : 0 < max_dq) :
  exists out n,
    limit_dq max_dq dq = Ok (out, n)
    /\ length out = 7%nat
    /\ n = vec_norm out
    /\ (forall i, (i < 7)%nat ->
          nth i (clip_dq max_dq dq) 0
          = Rmax (- max_dq) (Rmin max_dq (nth i dq 0)))
    /\ (vec_norm (clip_dq max_dq dq) > max_dq ->
          out = map (fun x => max_dq / vec_norm (clip_dq max_dq dq) * x)
                    (clip_dq max_dq dq)
          /\ vec_norm out = max_dq)
    /\ (vec_norm (clip_dq max_dq dq) <= max_dq -> out = clip_dq max_dq dq)
    /\ Forall (fun y => Rabs y <= max_dq) out
    /\ vec_norm out <= max_dq
    /\ n = sqrt (sum_squares out)
    /\ (sqrt (sum_squares (clip_dq max_dq dq)) > max_dq ->
          out = map (fun x =>
                       max_dq / sqrt (sum_squares (clip_dq max_dq dq)) * x)
                    (clip_dq max_dq dq)
          /\ sqrt (sum_squares out) = max_dq)
    /\ (sqrt (sum_squares (clip_dq max_dq dq)) <= max_dq ->
          out = clip_dq max_dq dq)
    /\ sqrt (sum_squares out) <= max_dq.
Proof.
  destruct (limit_dq_total max_dq dq HM) as (out & n & E).
  exists out, n.
  pose proof (limit_dq_norm _ _ _ _ HM E) as (Hn & Hle & Hsc).
  pose proof (limit_dq_componentwise _ _ _ _ HM E) as HF.
  rewrite <- !vec_norm_euclidean.
  split; [exact E |].
  split; [rewrite <- (Forall2_length HF); exact Hlen |].
  split; [exact Hn |].
  split; [intros i _; apply clip_dq_nth, HM |].
  rewrite limit_dq_cases in E by exact HM. cbv zeta in E.
  destruct (Rgt_dec (vec_norm (clip_dq max_dq dq)) max_dq) as [Hgt | Hngt];
    injection E as Eo En.
  - split; [intros _; split; [symmetry; exact Eo | apply Hsc, Hgt] |].
    split; [intros Hc; lra |].
    split; [eapply Forall2_right; [| exact HF]; cbv beta; tauto |].
    split; [exact Hle |].
    split; [exact Hn |].
    split; [intros _; split; [symmetry; exact Eo | apply Hsc, Hgt] |].
    split; [intros Hc; lra | exact Hle].
  - split; [intros Hc; contradiction |].
    split; [intros _; symmetry; exact Eo |].
    split; [eapply Forall2_right; [| exact HF]; cbv beta; tauto |].
    split; [exact Hle |].
    split; [exact Hn |].
    split; [intros Hc; contradiction |].
    split; [intros _; symmetry; exact Eo | exact Hle].
Qed.

(** C9.  For a 7-vector [dq] and [maxDq > 0] the limiter contracts and
    keeps signs componentwise: output component [i] is no larger in
    magnitude than input component [i], and their product is never
    negative (exact real arithmetic). *)
Theorem limit_dq_contractive (dq : vector) (max_dq : R)
  (Hlen : length dq = 7%nat) (HM : 0 < max_dq) :
  exists out n,
    limit_dq max_dq dq = Ok (out, n)
    /\ forall i, (i < 7)%nat ->
         Rabs (nth i out 0) <= Rabs (nth i dq 0)
         /\ 0 <= nth i out 0 * nth i dq 0.
Proof.
  destruct (limit_dq_total max_dq dq HM) as (out & n & E).
  exists out, n. split; [exact E |].
  pose proof (limit_dq_componentwise _ _ _ _ HM E) as HF.
  intros i Hi.
  assert (Hi' : (i < length dq)%nat) by lia.
  pose proof (Forall2_at _ _ _ HF i 0 0 Hi') as (Ha & Hb & _).
  split; assumption.
Qed.

(** The theorem at an input that is clipped and then rescaled. *)
Lemma limit_dq_bounds_witness :
  exists out n,
    limit_dq MAX_DQ [1; -1; 0.01; 0; 0; 0; 0] = Ok (out, n)
    /\ length out = 7%nat
    /\ n = vec_norm out
    /\ (forall i, (i < 7)%nat ->
          nth i (clip_dq MAX_DQ [1; -1; 0.01; 0; 0; 0; 0]) 0
          = Rmax (- MAX_DQ) (Rmin MAX_DQ (nth i [1; -1; 0.01; 0; 0; 0; 0] 0)))
    /\ (vec_norm (clip_dq MAX_DQ [1; -1; 0.01; 0; 0; 0; 0]) > MAX_DQ ->
          out = map (fun x =>
                       MAX_DQ / vec_norm (clip_dq MAX_DQ [1; -1; 0.01; 0; 0; 0; 0])
                       * x)
                    (clip_dq MAX_DQ [1; -1; 0.01; 0; 0; 0; 0])
          /\ vec_norm out = MAX_DQ)
    /\ (vec_norm (clip_dq MAX_DQ [1; -1; 0.01; 0; 0; 0; 0]) <= MAX_DQ ->
          out = clip_dq MAX_DQ [1; -1; 0.01; 0; 0; 0; 0])
    /\ Forall (fun y => Rabs y <= MAX_DQ) out
    /\ vec_norm out <= MAX_DQ
    /\ n = sqrt (sum_squares out)
    /\ (sqrt (sum_squares (clip_dq MAX_DQ [1; -1; 0.01; 0; 0; 0; 0])) > MAX_DQ ->
          out = map (fun x =>
                       MAX_DQ / sqrt (sum_squares (clip_dq MAX_DQ [1; -1; 0.01; 0; 0; 0; 0]))
                       * x)
                    (clip_dq MAX_DQ [1; -1; 0.01; 0; 0; 0; 0])
          /\ sqrt (sum_squares out) = MAX_DQ)
    /\ (sqrt (sum_squares (clip_dq MAX_DQ [1; -1; 0.01; 0; 0; 0; 0])) <= MAX_DQ ->
          out = clip_dq MAX_DQ [1; -1; 0.01; 0; 0; 0; 0])
    /\ sqrt (sum_squares out) <= MAX_DQ.
Proof.
  apply (limit_dq_bounds [1; -1; 0.01; 0; 0; 0; 0] MAX_DQ).
  - reflexivity.
  - unfold MAX_DQ. lra.
Defined.

(** The theorem at the same input. *)
Lemma limit_dq_contractive_witness :
  exists out n,
    limit_dq MAX_DQ [1; -1; 0.01; 0; 0; 0; 0] = Ok (out, n)
    /\ forall i, (i < 7)%nat ->
         Rabs (nth i out 0) <= Rabs (nth i [1; -1; 0.01; 0; 0; 0; 0] 0)
         /\ 0 <= nth i out 0 * nth i [1; -1; 0.01; 0; 0; 0; 0] 0.
Proof.
  apply (limit_dq_contractive [1; -1; 0.01; 0; 0; 0; 0] MAX_DQ).
  - reflexivity.
  - unfold MAX_DQ. lra.
Defined.

(* ================================================================= *)
(** ** The desired displacement *)

Lemma circle_phase_shift (t : R) :
  2 * PI * 0.1 * (t + 10) = 2 * PI * 0.1 * t + 2 * PI.
Proof. replace 0.1 with (1 / 10) by lra. field. Qed.

Lemma cos_shift_2PI (x : R) : cos (x + 2 * PI) = cos x.
Proof. rewrite cos_plus, cos_2PI, sin_2PI. ring. Qed.

Lemma sin_shift_2PI (x : R) : sin (x + 2 * PI) = sin x.
Proof. rewrite sin_plus, cos_2PI, sin_2PI. ring. Qed.

Lemma Rabs_scaled_le (s c : R) : 0 <= s -> -1 <= c <= 1 -> Rabs (s * c) <= s.
Proof.
  intros Hs Hc. apply Rabs_le. split; nra.
Qed.

(** C7.  At every elapsed time [t >= 0] the desired displacement is
    [(S cos(2 pi 0.1 t), S sin(2 pi 0.1 t), 0)] with [S] the configured
    step size; it depends on [t] only, has period 10 seconds, and each
    of its components has magnitude at most [S]. *)
Theorem desired_dx_circle (t : R) (Ht : 0 <= t) :
  desired_dx STEP_SIZE t
  = [ STEP_SIZE * cos (2 * PI * 0.1 * t);
      STEP_SIZE * sin (2 * PI * 0.1 * t);
      0 ]
  /\ (forall t', t' = t -> desired_dx STEP_SIZE t' = desired_dx STEP_SIZE t)
  /\ desired_dx STEP_SIZE (t + 10) = desired_dx STEP_SIZE t
  /\ Forall (fun c => Rabs c <= STEP_SIZE) (desired_dx STEP_SIZE t).
Proof.
  assert (HS : 0 <= STEP_SIZE) by (unfold STEP_SIZE; lra).
  split; [reflexivity |].
  split; [intros t' ->; reflexivity |].
  split.
  - unfold desired_dx.
    rewrite circle_phase_shift, cos_shift_2PI, sin_shift_2PI. reflexivity.
  - unfold desired_dx. repeat apply Forall_cons; [| | | apply Forall_nil].
    + apply Rabs_scaled_le; [exact HS | apply COS_bound].
    + apply Rabs_scaled_le; [exact HS | apply SIN_bound].
    + rewrite Rabs_R0. exact HS.
Qed.

(** The theorem at a quarter of the period. *)
Lemma desired_dx_circle_witness :
  desired_dx STEP_SIZE 2.5
  = [ STEP_SIZE * cos (2 * PI * 0.1 * 2.5);
      STEP_SIZE * sin (2 * PI * 0.1 * 2.5);
      0 ]
  /\ (forall t', t' = 2.5 -> desired_dx STEP_SIZE t' = desired_dx STEP_SIZE 2.5)
  /\ desired_dx STEP_SIZE (2.5 + 10) = desired_dx STEP_SIZE 2.5
  /\ Forall (fun c => Rabs c <= STEP_SIZE) (desired_dx STEP_SIZE 2.5).
Proof.
  apply (desired_dx_circle 2.5). lra.
Defined.

(* ================================================================= *)
(** ** The Jacobian estimation *)

(** Evaluation of the model on a concrete world, leaving the arithmetic
    of the reals alone. *)
Ltac run_model :=
  cbv - [Rplus Rminus Rmult Rdiv Ropp Rinv IZR Rlt_dec Rgt_dec Rge_dec
         Req_dec_T sqrt cos sin PI pow EPS DURATION LAMBDA MAX_DQ STEP_SIZE].

Lemma iter_steps (n : nat) (d t : R) :
  Nat.iter n (fun x => x + d) t = t + INR n * d.
Proof.
  induction n as [| n IH].
  - cbn. ring.
  - rewrite S_INR.
    change (Nat.iter (S n) (fun x => x + d) t)
      with (Nat.iter n (fun x => x + d) t + d).
    rewrite IH. ring.
Qed.

(** C1, as amended.  For a joint vector [q] of length 7 and [eps > 0],
    whenever the Jacobian estimation returns, the joints of the
    simulated arm are exactly [q]; and when no remote call fails it does
    return, with the forward-difference matrix, after probing the seven
    columns in turn: command the perturbed configuration, step, read the
    tip position, command [q] again, step.  (When a probe raises, the
    error propagates as it is: no restoring call is made.) *)
Theorem estimate_jacobian_restores (w : World) (q p : vector) (eps : R)
  (Hq : length q = 7%nat) (Heps : 0 < eps)
  (Hw : length (joints w) = 7%nat) :
  (forall Jm w', estimate_jacobian eps q p w = (Done Jm, w') ->
                 joints w' = q)
  /\ (faults w = [] -> length p = 3%nat ->
      (forall x, length (fk w x) = 3%nat) ->
      exists w',
        estimate_jacobian eps q p w
        = (Done (forward_difference (fk w) q p eps), w')
        /\ joints w' = q
        /\ sim_time w' = sim_time w + 14 * sim_dt w
        /\ log w' = logged (flat_map (probe_calls q eps) (seq 0 7)) ++ log w).
Proof.
  split.
  - intros Jm w' E. revert Jm w' E.
    change (returns (estimate_jacobian eps q p) w (fun _ w' => joints w' = q)).
    apply probe_columns_returns; [exact Hq | exact Hw | left; discriminate |].
    intros Jm' w' Hj _ _. exact Hj.
  - intros Hf Hp Hfk.
    destruct (estimate_jacobian_quiet eps q p w
                (fun Jm w' =>
                   Jm = forward_difference (fk w) q p eps
                   /\ joints w' = q
                   /\ sim_time w' = sim_time w + 14 * sim_dt w
                   /\ log w'
                      = logged (flat_map (probe_calls q eps) (seq 0 7))
                        ++ log w))
      as (Jm & w' & E & -> & Hj & Ht & Hl); try assumption; [lra | |].
    + world_simpl. split; [reflexivity |]. split; [reflexivity |].
      split; [| reflexivity]. rewrite iter_steps. cbn [INR]. ring.
    + exists w'. repeat split; assumption.
Qed.

(** The theorem on the still arm at rest. *)
Lemma estimate_jacobian_restores_witness :
  (forall Jm w',
      estimate_jacobian EPS [0; 0; 0; 0; 0; 0; 0] [0; 0; 0] (still_arm [])
      = (Done Jm, w') ->
      joints w' = [0; 0; 0; 0; 0; 0; 0])
  /\ (faults (still_arm []) = [] -> length [0; 0; 0] = 3%nat ->
      (forall x, length (fk (still_arm []) x) = 3%nat) ->
      exists w',
        estimate_jacobian EPS [0; 0; 0; 0; 0; 0; 0] [0; 0; 0] (still_arm [])
        = (Done (forward_difference (fk (still_arm []))
                   [0; 0; 0; 0; 0; 0; 0] [0; 0; 0] EPS), w')
        /\ joints w' = [0; 0; 0; 0; 0; 0; 0]
        /\ sim_time w' = sim_time (still_arm []) + 14 * sim_dt (still_arm [])
        /\ log w'
           = logged (flat_map (probe_calls [0; 0; 0; 0; 0; 0; 0] EPS) (seq 0 7))
             ++ log (still_arm [])).
Proof.
  apply (estimate_jacobian_restores (still_arm []) [0; 0; 0; 0; 0; 0; 0]
           [0; 0; 0] EPS).
  - reflexivity.
  - unfold EPS. lra.
  - reflexivity.
Defined.

(** C1, the claim as stated fails: the arm is at [q = 0]; the seven
    calls that command the first perturbed configuration return and the
    step that follows raises.  The error reaches the caller with joint 0
    still at [0 + EPS]. *)
Lemma estimate_jacobian_fault_leaves_perturbed :
  exists w',
    estimate_jacobian EPS [0; 0; 0; 0; 0; 0; 0] [0; 0; 0]
      (still_arm [None; None; None; None; None; None; None; Some SimError])
    = (Raised SimError, w')
    /\ joints (still_arm [None; None; None; None; None; None; None;
                          Some SimError])
       = [0; 0; 0; 0; 0; 0; 0]
    /\ joints w' = [0 + EPS; 0; 0; 0; 0; 0; 0]
    /\ joints w' <> [0; 0; 0; 0; 0; 0; 0]
    /\ 0 < EPS.
Proof.
  eexists. split; [run_model; reflexivity |].
  split; [reflexivity |]. split; [reflexivity |].
  split; [| unfold EPS; lra].
  cbn [joints record_call]. intros H. injection H as H.
  unfold EPS in H. lra.
Qed.

(* ================================================================= *)
(** ** The control loop *)

Lemma returns_any {A} (m : M A) (w : World) (Q : A -> World -> Prop) :
  (forall a w', Q a w') -> returns m w Q.
Proof. intros H a w' _. apply H. Qed.

Lemma schedule_S (k : nat) :
  schedule (S k) = schedule k ++ [(S k, recomputes (S k))].
Proof.
  unfold schedule. rewrite seq_S, map_app. reflexivity.
Qed.

Lemma refresh_due_recomputes (cached : option matrix) (k : nat) :
  (cached = None <-> k = 0%nat) ->
  refresh_due cached (S k) = recomputes (S k).
Proof.
  intros H. unfold refresh_due, recomputes.
  destruct cached as [c |].
  - destruct k as [| k]; [destruct H as [_ H]; discriminate H; reflexivity |].
    reflexivity.
  - destruct H as [H _]. rewrite (H eq_refl). reflexivity.
Qed.

(** One pass that returns has counted itself, logged its decision and
    recorded one sample. *)
Lemma tick_returns (t0 : R) (st : Loop) (w : World)
  (Q : Loop -> World -> Prop) :
  (forall st' w',
      step_counter st' = S (step_counter st) ->
      jacobian_log st'
      = jacobian_log st
        ++ [(S (step_counter st), refresh_due (J st) (S (step_counter st)))] ->
      (exists n, dq_norms st' = dq_norms st ++ [n]) ->
      J st' <> None ->
      Q st' w') ->
  returns (tick t0 st) w Q.
Proof.
  intros HQ. unfold tick.
  apply returns_bind, returns_any; intros t_sim w1.
  apply returns_bind, returns_any; intros q w2.
  apply returns_bind, returns_any; intros p w3.
  apply returns_bind.
  assert (HJ : forall w0,
             returns
               match J st with
               | Some cached =>
                   if refresh_due (J st) (S (step_counter st))
                   then bind (estimate_jacobian EPS q p)
                             (fun Jn => ret (Jn, true))
                   else ret (cached, false)
               | None => bind (estimate_jacobian EPS q p)
                              (fun Jn => ret (Jn, true))
               end w0
               (fun Jr _ =>
                  snd Jr = refresh_due (J st) (S (step_counter st)))).
  { intros w0. destruct (J st) as [cached |] eqn:EJ.
    - destruct (refresh_due (Some cached) (S (step_counter st))) eqn:Ed.
      + apply returns_bind, returns_any; intros Jn w'.
        apply returns_ret. reflexivity.
      + apply returns_ret. reflexivity.
    - apply returns_bind, returns_any; intros Jn w'.
      apply returns_ret. reflexivity. }
  eapply returns_weaken; [apply HJ |]. cbv beta. intros Jr w4 HJr.
  apply returns_bind, returns_any; intros dq w5.
  apply returns_bind, returns_any; intros lim w6.
  apply returns_bind, returns_any; intros q_new w7.
  apply returns_bind, returns_any; intros u w8.
  apply returns_bind, returns_any; intros u' w9.
  apply returns_ret. apply HQ; cbn [step_counter jacobian_log dq_norms J].
  - reflexivity.
  - rewrite HJr. reflexivity.
  - eexists. reflexivity.
  - discriminate.
Qed.

Lemma tick_keeps_count (t0 : R) (k : nat) (st : Loop) (w : World) :
  after_passes k st ->
  returns (tick t0 st) w (fun st' _ => after_passes (S k) st').
Proof.
  intros (Hc & Hl & Hn & HJ). apply tick_returns.
  intros st' w' Hc' Hl' (n & Hn') HJ'. unfold after_passes.
  rewrite Hc in *. split; [exact Hc' |]. split; [| split].
  - rewrite Hl', Hl, schedule_S, (refresh_due_recomputes _ _ HJ).
    reflexivity.
  - rewrite Hn', length_app, Hn. cbn [length]. lia.
  - split; [intros E; contradiction | discriminate].
Qed.

(** Every run of the loop that returns leaves a log that follows the
    schedule, with one sample per pass. *)
Lemma control_loop_keeps_count (fuel : nat) (t0 : R) :
  forall (k : nat) (st : Loop) (w : World),
    after_passes k st ->
    returns (control_loop fuel t0 st) w
            (fun st' _ => after_passes (step_counter st') st').
Proof.
  induction fuel as [| fuel IH]; intros k st w Hk.
  - intros a w' E. discriminate E.
  - cbn [control_loop].
    apply returns_bind, returns_any; intros now w1.
    destruct (Rlt_dec (now - t0) DURATION).
    + apply returns_bind.
      eapply returns_weaken; [apply (tick_keeps_count t0 k), Hk |].
      cbv beta. intros st1 w2 H1. apply (IH (S k)), H1.
    + apply returns_ret. destruct Hk as (Hc & Hk). rewrite Hc.
      split; [exact Hc | exact Hk].
Qed.

Lemma init_loop_passes : after_passes 0 init_loop.
Proof.
  unfold after_passes, init_loop. cbn.
  split; [reflexivity |]. split; [reflexivity |]. split; [reflexivity |].
  split; reflexivity.
Qed.

(** *** A run on the still arm *)

Lemma forward_difference_still (P : vector -> vector) (q : vector) :
  (forall x, P x = [0; 0; 0]) ->
  forward_difference P q [0; 0; 0] EPS = zero_3x7.
Proof.
  intros HP. unfold forward_difference, zero_3x7.
  cbn [map seq]. rewrite !HP. cbn [nth]. unfold EPS.
  entrywise lra.
Qed.

Lemma vec_norm_zero7 : vec_norm [0; 0; 0; 0; 0; 0; 0] = 0.
Proof.
  unfold vec_norm, py_sum. cbn [map fold_left].
  replace (0 + 0 * 0 + 0 * 0 + 0 * 0 + 0 * 0 + 0 * 0 + 0 * 0 + 0 * 0)
    with 0 by ring.
  apply sqrt_0.
Qed.

Lemma clip1_zero : clip1 MAX_DQ 0 = 0.
Proof.
  unfold clip1, py_max, py_min, MAX_DQ.
  destruct (Rlt_dec 0 0.05); [| lra].
  match goal with |- context [Rgt_dec ?a ?b] => destruct (Rgt_dec a b) end;
    [reflexivity | lra].
Qed.

Lemma limit_dq_zero :
  limit_dq MAX_DQ [0; 0; 0; 0; 0; 0; 0] = Ok ([0; 0; 0; 0; 0; 0; 0], 0).
Proof.
  unfold limit_dq, clip_dq. cbn [map]. rewrite !clip1_zero, vec_norm_zero7.
  destruct (Rgt_dec 0 MAX_DQ) as [H | H]; [unfold MAX_DQ in H; lra |].
  reflexivity.
Qed.

Lemma dls_solve_still (t : R) :
  dls_solve zero_3x7 (desired_dx STEP_SIZE t) LAMBDA
  = Ok [0; 0; 0; 0; 0; 0; 0].
Proof.
  apply dls_solve_zero_jacobian; [reflexivity |].
  rewrite det3_damped_zero. unfold LAMBDA, singular_threshold.
  rewrite Rabs_pos_eq by lra. lra.
Qed.

Lemma recomputed_on_schedule_S (k : nat) :
  length (recomputed_on (schedule (S k)))
  = (length (recomputed_on (schedule k))
     + (if recomputes (S k) then 1 else 0))%nat.
Proof.
  rewrite schedule_S. unfold recomputed_on.
  rewrite filter_app, map_app, length_app. cbn [filter snd].
  destruct (recomputes (S k)); reflexivity.
Qed.

Lemma steps_after_S (k : nat) :
  INR (steps_after (S k))
  = INR (steps_after k) + (if recomputes (S k) then 15 else 1).
Proof.
  unfold steps_after. rewrite recomputed_on_schedule_S.
  destruct (recomputes (S k));
    rewrite !plus_INR, !mult_INR, ?plus_INR, S_INR; cbn [INR]; ring.
Qed.

Lemma tick_still (t0 : R) (k : nat) (st : Loop) (w : World) :
  still_after t0 k st w ->
  succeeds (tick t0 st) w (fun st' w' => still_after t0 (S k) st' w').
Proof.
  intros (Hf & Hj & Hfk & Hd & Ht & Hk & HJ).
  pose proof (tick_keeps_count t0 k st w Hk) as Hcount.
  assert (Hdue : refresh_due (J st) (S (step_counter st)) = recomputes (S k)).
  { destruct Hk as (Hc & _ & _ & HJ0). rewrite Hc.
    apply refresh_due_recomputes, HJ0. }
  destruct w as [f d js t r fs lg]. world_simpl. subst fs d.
  explode_lists.
  enough (Hrun : succeeds (tick t0 st)
                   (mkWorld f 0.1 [r0; r1; r2; r3; r4; r5; r6] t r [] lg)
                   (fun st' w' =>
                      faults w' = [] /\ length (joints w') = 7%nat
                      /\ fk w' = f /\ sim_dt w' = 0.1
                      /\ sim_time w'
                         = t + (if recomputes (S k) then 15 else 1) * 0.1
                      /\ J st' = Some zero_3x7)).
  { destruct Hrun as (st' & w' & E & Hf' & Hj' & Hfk' & Hd' & Ht' & HJ').
    exists st', w'. split; [exact E |].
    split; [exact Hf' |]. split; [exact Hj' |].
    split; [rewrite Hfk'; exact Hfk |]. split; [exact Hd' |].
    split; [rewrite Ht', Ht, steps_after_S;
            destruct (recomputes (S k)); ring |].
    split; [exact (Hcount st' w' E) | intros _; exact HJ']. }
  clear Hcount. unfold tick.
  apply succeeds_bind. quiet_step.
  cbn [mmap joint_handles seq]. repeat quiet_step. cbn [nth].
  rewrite Hfk.
  match goal with
  | |- succeeds ?m ?w0 ?Q0 =>
      assert (HJr : succeeds m w0
                (fun Jr w' =>
                   fst Jr = zero_3x7
                   /\ w' = mkWorld f 0.1 [r0; r1; r2; r3; r4; r5; r6]
                             (if recomputes (S k)
                              then Nat.iter 14 (fun x => x + 0.1) t else t)
                             r [] (log w')))
  end.
  { rewrite Hdue. destruct (J st) as [cached |] eqn:EJ.
    - destruct (recomputes (S k)) eqn:Ed.
      + apply succeeds_bind, estimate_jacobian_quiet;
          try reflexivity;
          [intros x; world_simpl; rewrite Hfk; reflexivity
          | unfold EPS; lra |].
        world_simpl. apply succeeds_ret. cbn [fst].
        split; [apply forward_difference_still, Hfk | reflexivity].
      + apply succeeds_ret. cbn [fst]. split; [| reflexivity].
        assert (Hk0 : k <> 0%nat).
        { destruct Hk as (_ & _ & _ & [H0 H1]). intros Ek.
          specialize (H1 Ek). rewrite EJ in H1. discriminate. }
        specialize (HJ Hk0). injection HJ as ->.
        reflexivity.
    - assert (Ek : k = 0%nat).
      { destruct Hk as (_ & _ & _ & [H0 H1]). apply H0. exact EJ. }
      subst k. cbn [recomputes Nat.eqb orb].
      apply succeeds_bind, estimate_jacobian_quiet;
        try reflexivity;
          [intros x; world_simpl; rewrite Hfk; reflexivity
          | unfold EPS; lra |].
      world_simpl. apply succeeds_ret. cbn [fst].
      split; [apply forward_difference_still, Hfk | reflexivity]. }
  eapply succeeds_weaken; [exact HJr |]. cbv beta.
  intros [Jm b] w' [EJ Ew]. cbn [fst snd] in *. subst Jm. rewrite Ew.
  apply succeeds_bind.
  eapply succeeds_lift; [apply dls_solve_still |].
  apply succeeds_bind.
  eapply succeeds_lift; [apply limit_dq_zero |]. cbn [fst snd].
  apply succeeds_bind.
  eapply succeeds_lift; [reflexivity |].
  apply succeeds_bind, command_joints_quiet; try reflexivity.
  world_simpl. repeat quiet_step.
  cbn [J]. repeat split.
  destruct (recomputes (S k)).
  - rewrite iter_steps. cbn [INR]. ring.
  - ring.
Qed.

Lemma still_after_observed (t0 : R) (k : nat) (st : Loop) (w : World)
  (c : call) :
  still_after t0 k st w ->
  next_fault w = None
  /\ still_after t0 k st (record_call c true (pop_fault w)).
Proof.
  intros (Hf & Hj & Hfk & Hd & Ht & Hk). destruct w as [f d js t r fs lg].
  world_simpl. subst fs. split; [reflexivity |].
  unfold still_after. world_simpl. cbn [tl]. tauto.
Qed.

Lemma duration_test (t0 t : R) (m : nat) :
  t = t0 + INR m * 0.1 ->
  (t - t0 < DURATION <-> (m < 80)%nat).
Proof.
  intros ->. unfold DURATION.
  replace (t0 + INR m * 0.1 - t0) with (INR m * 0.1) by ring.
  split; intros H.
  - apply INR_lt. replace (INR 80) with 80 by (cbn [INR]; ring). lra.
  - apply lt_INR in H. replace (INR 80) with 80 in H by (cbn [INR]; ring).
    lra.
Qed.

(** From [k] passes, the loop makes [n] more as long as fewer than 80
    steps of 0.1 s have gone by before each of them, and stops once 80
    or more have. *)
Lemma control_loop_still (t0 : R) (n : nat) :
  forall (k fuel : nat) (st : Loop) (w : World),
    still_after t0 k st w ->
    (forall j, (k <= j < k + n)%nat -> (steps_after j < 80)%nat) ->
    (80 <= steps_after (k + n))%nat ->
    (n < fuel)%nat ->
    succeeds (control_loop fuel t0 st) w
             (fun st' w' => still_after t0 (k + n) st' w').
Proof.
  induction n as [| n IH]; intros k fuel st w Hs Hlt Hge Hfuel;
    (destruct fuel as [| fuel]; [lia |]); cbn [control_loop];
    destruct (still_after_observed t0 k st w CallGetSimulationTime Hs)
      as [Hn Hs'];
    apply succeeds_bind, succeeds_remote; [exact Hn | | exact Hn |];
    cbn [fst snd];
    pose proof Hs as (_ & _ & _ & _ & Ht & _);
    assert (Ht' : sim_time (pop_fault w) = t0 + INR (steps_after k) * 0.1)
      by (destruct w; exact Ht);
    pose proof (duration_test t0 _ _ Ht') as Hd;
    destruct (Rlt_dec (sim_time (pop_fault w) - t0) DURATION) as [Hc | Hc].
  - apply Hd in Hc. rewrite Nat.add_0_r in Hge. lia.
  - apply succeeds_ret. rewrite Nat.add_0_r. exact Hs'.
  - apply succeeds_bind.
    eapply succeeds_weaken; [apply (tick_still t0 k), Hs' |].
    cbv beta. intros st1 w1 H1.
    replace (k + S n)%nat with (S k + n)%nat by lia.
    apply IH; [exact H1 | | | lia].
    + intros j Hj. apply Hlt. lia.
    + replace (S k + n)%nat with (k + S n)%nat by lia. exact Hge.
  - exfalso. apply Hc, Hd, Hlt. lia.
Qed.

Lemma still_arm_start : still_after 0 0 init_loop (still_arm []).
Proof.
  unfold still_after, still_arm. world_simpl.
  split; [reflexivity |]. split; [reflexivity |].
  split; [reflexivity |]. split; [reflexivity |].
  split; [cbn; ring |]. split; [exact init_loop_passes |].
  intros H. contradiction.
Qed.

(** On the still arm the loop makes exactly 20 passes. *)
Lemma still_arm_run :
  exists st' w',
    control_loop 21 0 init_loop (still_arm []) = (Done st', w')
    /\ step_counter st' = 20%nat.
Proof.
  destruct (control_loop_still 0 20 0 21 init_loop (still_arm [])
              still_arm_start) as (st' & w' & E & Hs).
  - intros j Hj.
    assert (Hall : forallb (fun j => steps_after j <? 80)%nat (seq 0 20) = true)
      by (vm_compute; reflexivity).
    rewrite forallb_forall in Hall. apply Nat.ltb_lt, Hall, in_seq. lia.
  - vm_compute. lia.
  - lia.
  - exists st', w'. split; [exact E |].
    destruct Hs as (_ & _ & _ & _ & _ & (Hc & _) & _). exact Hc.
Qed.

Lemma schedule_20 :
  schedule 20
  = [ (1, true); (2, false); (3, false); (4, false); (5, true);
      (6, false); (7, false); (8, false); (9, false); (10, true);
      (11, false); (12, false); (13, false); (14, false); (15, true);
      (16, false); (17, false); (18, false); (19, false); (20, true) ]%nat.
Proof. vm_compute. reflexivity. Qed.

(** C2, as amended.  In a run of the control loop that makes 20 passes,
    with refresh period 5, the Jacobian is recomputed exactly on passes
    1, 5, 10, 15 and 20 (on the first pass because nothing is cached,
    afterwards whenever the pass counter, which counts from 1, is a
    multiple of the period) and the cached Jacobian is reused on every
    other pass. *)
Theorem jacobian_refresh_schedule (fuel : nat) (t0 : R) (w w' : World)
  (st' : Loop)
  (Hrun : control_loop fuel t0 init_loop w = (Done st', w'))
  (Hpasses : step_counter st' = 20%nat) :
  JACOBIAN_UPDATE_PERIOD = 5%nat
  /\ recomputed_on (jacobian_log st') = [1; 5; 10; 15; 20]%nat
  /\ reused_on (jacobian_log st')
     = [2; 3; 4; 6; 7; 8; 9; 11; 12; 13; 14; 16; 17; 18; 19]%nat
  /\ jacobian_log st' = map (fun k => (k, recomputes k)) (seq 1 20).
Proof.
  pose proof (control_loop_keeps_count fuel t0 0 init_loop w
                init_loop_passes st' w' Hrun) as (_ & Hl & _).
  cbv beta in Hl. rewrite Hpasses in Hl. rewrite Hl.
  split; [reflexivity |]. rewrite schedule_20.
  split; [reflexivity |]. split; reflexivity.
Qed.

(** The theorem on the run of the still arm. *)
Lemma jacobian_refresh_schedule_witness :
  exists st' w',
    control_loop 21 0 init_loop (still_arm []) = (Done st', w')
    /\ step_counter st' = 20%nat
    /\ JACOBIAN_UPDATE_PERIOD = 5%nat
    /\ recomputed_on (jacobian_log st') = [1; 5; 10; 15; 20]%nat
    /\ reused_on (jacobian_log st')
       = [2; 3; 4; 6; 7; 8; 9; 11; 12; 13; 14; 16; 17; 18; 19]%nat
    /\ jacobian_log st' = map (fun k => (k, recomputes k)) (seq 1 20).
Proof.
  destruct still_arm_run as (st' & w' & E & Hc).
  exists st', w'. split; [exact E |]. split; [exact Hc |].
  exact (jacobian_refresh_schedule 21 0 (still_arm []) w' st' E Hc).
Defined.

(** C2, the claim as stated fails: the run of the loop on the still arm
    makes 20 passes, and it recomputes the Jacobian on passes 1, 5, 10,
    15 and 20, not on 1, 6, 11 and 16. *)
Lemma refresh_on_pass_5_not_6 :
  exists st' w',
    control_loop 21 0 init_loop (still_arm []) = (Done st', w')
    /\ step_counter st' = 20%nat
    /\ recomputed_on (jacobian_log st') = [1; 5; 10; 15; 20]%nat
    /\ recomputed_on (jacobian_log st') <> [1; 6; 11; 16]%nat.
Proof.
  destruct still_arm_run as (st' & w' & E & Hc).
  exists st', w'. split; [exact E |]. split; [exact Hc |].
  pose proof (control_loop_keeps_count 21 0 0 init_loop (still_arm [])
                init_loop_passes st' w' E) as (_ & Hl & _).
  cbv beta in Hl. rewrite Hc, schedule_20 in Hl. rewrite Hl.
  split; [reflexivity | discriminate].
Qed.

(* ================================================================= *)
(** ** Leaving the control loop *)

Lemma no_interrupt_next (w : World) (c : call) (b : bool) (e : exn) :
  no_interrupt w -> next_fault w = Some e -> is_Exception e = true.
Proof.
  unfold no_interrupt, next_fault. intros H E.
  destruct (faults w) as [| f fs]; [discriminate |]. subst f.
  inversion H as [| ? ? Hne _]; subst.
  destruct e; try reflexivity. contradiction.
Qed.

Lemma no_interrupt_pop (w : World) : no_interrupt w -> no_interrupt (pop_fault w).
Proof.
  unfold no_interrupt. destruct w as [f d js t r fs lg]. world_simpl.
  intros H. destruct fs as [| x fs]; cbn [tl]; [constructor |].
  inversion H; assumption.
Qed.

(** The draining loop when no interrupt arrives: it returns after at most
    [n] steps, the last of which may have raised. *)
Lemma drain_outcome (n : nat) :
  forall w, no_interrupt w ->
    exists k step_failed w',
      (k <= n)%nat
      /\ drain n w = (Done tt, w')
      /\ log w'
         = (if step_failed : bool then [(CallStep, false)] else [])
           ++ repeat (CallStep, true) k ++ log w
      /\ running w' = running w
      /\ no_interrupt w'.
Proof.
  induction n as [| n IH]; intros w Hw.
  - exists 0%nat, false, w. repeat split; [lia | exact Hw].
  - cbn [drain]. unfold bind at 1, catch, bind at 1, client_step, remote.
    destruct (next_fault w) as [e |] eqn:En.
    + rewrite (no_interrupt_next w CallStep false e Hw En).
      exists 0%nat, true. eexists. unfold ret.
      split; [lia |]. split; [reflexivity |].
      split; [destruct w; reflexivity |].
      split; [destruct w; reflexivity |].
      apply no_interrupt_pop in Hw. destruct w; exact Hw.
    + cbn [ret].
      match goal with
      | |- context [drain n ?w1] =>
          destruct (IH w1) as (k & sf & w' & Hk & E & Hl & Hr & Hn)
      end.
      { apply no_interrupt_pop in Hw. destruct w; exact Hw. }
      exists (S k), sf, w'. split; [lia |]. unfold ret. cbn [fst snd].
      split; [exact E |].
      split; [| split; [| exact Hn]].
      * rewrite Hl. destruct w; world_simpl.
        change (repeat (CallStep, true) (S k))
          with ((CallStep, true) :: repeat (CallStep, true) k).
        f_equal. rewrite repeat_cons, <- app_assoc. reflexivity.
      * rewrite Hr. destruct w; reflexivity.
Qed.

Lemma stop_safely_outcome (w : World) :
  no_interrupt w ->
  exists k step_failed stop_ok w',
    (k <= 5)%nat
    /\ stop_safely w = (Done tt, w')
    /\ log w' = finally_calls k step_failed stop_ok ++ log w
    /\ (stop_ok = true -> running w' = false)
    /\ (stop_ok = false -> running w' = running w).
Proof.
  intros Hw.
  destruct (drain_outcome 5 w Hw) as (k & sf & w1 & Hk & E & Hl & Hr & Hn).
  unfold stop_safely, catch, bind. rewrite E.
  unfold stopSimulation, remote.
  destruct (next_fault w1) as [e |] eqn:En.
  - rewrite (no_interrupt_next w1 CallStopSimulation false e Hn En).
    exists k, sf, false. eexists. split; [exact Hk |].
    split; [reflexivity |]. unfold finally_calls.
    split; [| split; [discriminate |]].
    + destruct w1; world_simpl. rewrite Hl. cbn [app]. f_equal.
      rewrite app_assoc. reflexivity.
    + intros _. rewrite <- Hr. destruct w1; reflexivity.
  - exists k, sf, true. eexists. split; [exact Hk |].
    cbn [fst snd]. split; [reflexivity |]. unfold finally_calls.
    split; [| split; [| discriminate]].
    + destruct w1; world_simpl. rewrite Hl. cbn [app]. f_equal.
      rewrite app_assoc. reflexivity.
    + intros _. destruct w1; reflexivity.
Qed.

(** C8, as amended.  However the body of the [try] ends -- the loop ran
    its duration, a step raised, or an interrupt arrived -- and provided
    no further interrupt arrives inside the finally block: at most 5
    residual steps are made, the draining ending at the first that
    raises; then [stopSimulation] is called; the outcome of the body,
    its result or the original error, is passed on intact; and the
    simulation is stopped whenever the stop call returns.  (When the stop
    call itself raises, the error is only reported and the running flag
    is left as it was.) *)
Theorem run_control_finally (fuel : nat) (w w1 w0 : World) (t0 : R)
  (r0 : outcome (R * Loop))
  (Hstart : getSimulationTime w = (Done t0, w1))
  (Hbody : guarded_body fuel t0 w1 = (r0, w0))
  (Hfuel : r0 <> OutOfFuel)
  (Hquiet : no_interrupt w0) :
  exists k step_failed stop_ok w',
    run_control fuel w = (r0, w')
    /\ (k <= 5)%nat
    /\ log w' = finally_calls k step_failed stop_ok ++ log w0
    /\ (stop_ok = true -> running w' = false)
    /\ (stop_ok = false -> running w' = running w0).
Proof.
  destruct (stop_safely_outcome w0 Hquiet)
    as (k & sf & ok & w' & Hk & E & Hl & Ht & Hf).
  exists k, sf, ok, w'.
  split; [| split; [exact Hk | split; [exact Hl | split; assumption]]].
  unfold run_control, bind. rewrite Hstart.
  unfold try_finally. rewrite Hbody, E.
  destruct r0; [reflexivity | reflexivity | contradiction].
Qed.

(** The theorem on a run whose first pass fails at its first call: the
    five residual steps and the stop call all return. *)
Lemma run_control_finally_witness :
  exists k step_failed stop_ok w',
    run_control 1 (still_arm [None; None; Some SimError])
    = (Raised SimError, w')
    /\ (k <= 5)%nat
    /\ log w'
       = finally_calls k step_failed stop_ok
         ++ [ (CallGetSimulationTime, false); (CallGetSimulationTime, true);
              (CallGetSimulationTime, true) ]
    /\ (stop_ok = true -> running w' = false)
    /\ (stop_ok = false -> running w' = true).
Proof.
  apply (run_control_finally 1
           (still_arm [None; None; Some SimError])
           (still_arm_logged [None; Some SimError]
              [(CallGetSimulationTime, true)])
           (still_arm_logged []
              [ (CallGetSimulationTime, false); (CallGetSimulationTime, true);
                (CallGetSimulationTime, true) ])
           0 (Raised SimError)).
  - reflexivity.
  - run_model.
    destruct (Rlt_dec (0 - 0) DURATION) as [H | H];
      [reflexivity | exfalso; apply H; unfold DURATION; lra].
  - discriminate.
  - constructor.
Defined.

(** C8, the claim as stated fails: the link to the simulator is lost
    during the first pass.  The first residual step raises, the stop
    call raises too and is only reported; the original error reaches the
    caller and the simulation is still running. *)
Lemma stop_failure_leaves_simulation_running :
  exists w',
    run_control 1
      (still_arm [None; None; Some SimError; Some SimError; Some SimError])
    = (Raised SimError, w')
    /\ running w' = true
    /\ log w'
       = [ (CallStopSimulation, false); (CallStep, false);
           (CallGetSimulationTime, false); (CallGetSimulationTime, true);
           (CallGetSimulationTime, true) ].
Proof.
  eexists. split.
  - run_model.
    destruct (Rlt_dec (0 - 0) DURATION) as [H | H];
      [reflexivity | exfalso; apply H; unfold DURATION; lra].
  - split; reflexivity.
Qed.

(* ================================================================= *)
(** ** The statistics of the summary *)

Lemma compute_stats_nonempty (x : R) (l : list R) :
  exists s, compute_stats (x :: l) = Ok s.
Proof.
  unfold compute_stats. rewrite py_div_nonzero.
  - cbn [rbind py_min_list py_max_list]. eauto.
  - change (length (x :: l)) with (S (length l)). rewrite S_INR.
    pose proof (pos_INR (length l)). lra.
Qed.

Lemma compute_stats_empty : compute_stats [] = Raise ZeroDivisionError.
Proof.
  unfold compute_stats, py_div. cbn [length INR].
  destruct (Req_dec_T 0 0) as [_ | H]; [reflexivity | contradiction].
Qed.

(** C10.  The statistics are guarded against an empty set of samples:
    every pass of the loop that returns has recorded exactly one
    [|dq|] sample, so a loop that returns holds as many samples as it
    made passes; the average, minimum and maximum are computed only for
    a non-empty list; for the empty list the summary returns without
    computing them, where the unguarded computation would divide by zero
    and [min] would reject the empty sequence.  Hence whenever the
    control loop has returned, also after zero passes, [main] returns
    too. *)
Theorem summary_guarded :
  summarize [] = Ok None
  /\ compute_stats [] = Raise ZeroDivisionError
  /\ py_min_list [] = Raise (ValueError "min() arg is an empty sequence")
  /\ (forall x l, exists s, summarize (x :: l) = Ok (Some s))
  /\ (forall t0 st w st' w',
         tick t0 st w = (Done st', w') ->
         step_counter st' = S (step_counter st)
         /\ exists n, dq_norms st' = dq_norms st ++ [n])
  /\ (forall fuel t0 w st' w',
         control_loop fuel t0 init_loop w = (Done st', w') ->
         length (dq_norms st') = step_counter st')
  /\ (forall fuel w r w',
         bind startSimulation (fun _ => run_control fuel) w = (Done r, w') ->
         exists s, main_control fuel w = (Done (fst r, s), w')).
Proof.
  split; [reflexivity |]. split; [exact compute_stats_empty |].
  split; [reflexivity |]. split; [| split; [| split]].
  - intros x l. destruct (compute_stats_nonempty x l) as [s E].
    exists s. unfold summarize. rewrite E. reflexivity.
  - intros t0 st w st' w' E. revert st' w' E.
    change (returns (tick t0 st) w
              (fun st' _ =>
                 step_counter st' = S (step_counter st)
                 /\ exists n, dq_norms st' = dq_norms st ++ [n])).
    apply tick_returns. intros st' w' Hc _ Hn _. split; assumption.
  - intros fuel t0 w st' w' E.
    pose proof (control_loop_keeps_count fuel t0 0 init_loop w
                  init_loop_passes st' w' E) as (_ & _ & Hn & _).
    exact Hn.
  - intros fuel w r w' E. unfold main_control.
    unfold bind in E |- *.
    destruct (startSimulation w) as [[u | e |] w1]; try discriminate.
    rewrite E.
    assert (Hs : exists s, summarize (dq_norms (snd r)) = Ok s).
    { destruct (dq_norms (snd r)) as [| x l].
      - exists None. reflexivity.
      - destruct (compute_stats_nonempty x l) as [s Es].
        exists (Some s). unfold summarize. rewrite Es. reflexivity. }
    destruct Hs as [s Es]. exists s. unfold lift, ret. rewrite Es.
    reflexivity.
Qed.

(* ================================================================= *)
(** ** The linear algebra kernel at arbitrary shapes *)

Lemma rmap_ok {A B} (f : A -> result B) (g : A -> B) (l : list A) :
  (forall a, In a l -> f a = Ok (g a)) -> rmap f l = Ok (map g l).
Proof.
  induction l as [| a l IH]; intros H; cbn [rmap map]; [reflexivity |].
  rewrite (H a (or_introl eq_refl)). cbn [rbind].
  rewrite IH by (intros a' Ha'; apply H; right; exact Ha').
  reflexivity.
Qed.

Lemma idx_ok {A} (l : list A) (i : nat) (d : A) :
  (i < length l)%nat -> idx l i = Ok (nth i l d).
Proof.
  intros H. unfold idx. rewrite (nth_error_nth' l d H). reflexivity.
Qed.

Lemma idx_out {A} (l : list A) (i : nat) :
  (length l <= i)%nat -> idx l i = Raise IndexError.
Proof.
  intros H. unfold idx.
  destruct (nth_error l i) eqn:E; [| reflexivity].
  apply nth_error_None in H. congruence.
Qed.

Lemma map_seq_nth {A B} (F : A -> B) (l : list A) (d : A) :
  map (fun i => F (nth i l d)) (seq 0 (length l)) = map F l.
Proof.
  induction l as [| a l IH]; [reflexivity |].
  cbn [length seq map nth]. f_equal.
  rewrite <- seq_shift, map_map. exact IH.
Qed.

Lemma nth_map_seq {B} (F : nat -> B) (n i : nat) (d : B) :
  (i < n)%nat -> nth i (map F (seq 0 n)) d = F i.
Proof.
  intros Hi.
  rewrite (nth_indep _ d (F 0%nat)) by (rewrite length_map, length_seq; lia).
  rewrite (map_nth F (seq 0 n) 0%nat i), seq_nth by lia. reflexivity.
Qed.

Lemma is_mat_row (r c : nat) (A : matrix) (i : nat) :
  is_mat r c A -> (i < r)%nat -> length (nth i A []) = c.
Proof.
  intros [Hr Hc] Hi. rewrite Forall_forall in Hc.
  apply Hc, nth_In. lia.
Qed.

Lemma is_mat_hd (r c : nat) (A : matrix) :
  is_mat r c A -> (0 < r)%nat -> length (hd [] A) = c.
Proof.
  intros H Hr. rewrite <- (is_mat_row r c A 0 H Hr).
  destruct A; reflexivity.
Qed.

Lemma idx2_ok (r c : nat) (A : matrix) (i j : nat) :
  is_mat r c A -> (i < r)%nat -> (j < c)%nat ->
  idx2 A i j = Ok (entry A i j).
Proof.
  intros H Hi Hj. unfold idx2, entry.
  rewrite (idx_ok A i []) by (destruct H; lia). cbn [rbind].
  apply idx_ok. rewrite (is_mat_row r c A i H Hi). exact Hj.
Qed.

Lemma mult_acc_ok (r n c : nat) (A B : matrix) (i j : nat) :
  is_mat r n A -> is_mat n c B -> (i < r)%nat -> (j < c)%nat ->
  forall (ks : list nat) (acc : R),
    (forall k, In k ks -> (k < n)%nat) ->
    mult_acc A B i j ks acc
    = Ok (fold_left Rplus (map (fun k => entry A i k * entry B k j) ks) acc).
Proof.
  intros HA HB Hi Hj. induction ks as [| k ks IH]; intros acc Hk;
    cbn [mult_acc map fold_left]; [reflexivity |].
  assert (Hkn : (k < n)%nat) by (apply Hk; left; reflexivity).
  rewrite (idx2_ok r n A i k HA Hi Hkn). cbn [rbind].
  rewrite (idx2_ok n c B k j HB Hkn Hj). cbn [rbind].
  apply IH. intros k' Hk'. apply Hk. right. exact Hk'.
Qed.

Lemma combine_seq (u v : vector) (n : nat) :
  length u = n -> length v = n ->
  map (fun p => fst p * snd p) (combine u v)
  = map (fun k => nth k u 0 * nth k v 0) (seq 0 n).
Proof.
  revert v n. induction u as [| x u IH]; intros v n Hu Hv; subst n.
  - reflexivity.
  - destruct v as [| y v]; [discriminate Hv |].
    cbn [length seq map combine fst snd nth]. f_equal.
    rewrite <- seq_shift, map_map. apply IH; [reflexivity |].
    cbn [length] in Hv. lia.
Qed.

(** Column [j] of [B], as [mtrans] builds it. *)
Lemma column_entry (B : matrix) (j k : nat) :
  nth k (map (fun row => nth j row 0) B) 0 = entry B k j.
Proof.
  unfold entry.
  pose proof (map_nth (fun row : list R => nth j row 0) B [] k) as H.
  cbv beta in H. rewrite <- H. f_equal. destruct j; reflexivity.
Qed.

Lemma dot_row_column (r n c : nat) (A B : matrix) (i j : nat) :
  is_mat r n A -> is_mat n c B -> (i < r)%nat ->
  dot (nth i A []) (map (fun row => nth j row 0) B)
  = fold_left Rplus (map (fun k => entry A i k * entry B k j) (seq 0 n)) 0.
Proof.
  intros HA HB Hi. unfold dot.
  rewrite (combine_seq _ _ n).
  - f_equal. apply map_ext. intros k. rewrite column_entry. reflexivity.
  - apply (is_mat_row r n A i HA Hi).
  - rewrite length_map. destruct HB as [HB _]. exact HB.
Qed.

Lemma mmul_shape (r n c : nat) (A B : matrix) :
  is_mat r n A -> is_mat n c B -> (0 < n)%nat -> is_mat r c (mmul A B).
Proof.
  intros [HAr HAc] HB Hn. unfold mmul, mtrans. split.
  - rewrite length_map. exact HAr.
  - rewrite Forall_forall. intros row Hrow.
    apply in_map_iff in Hrow. destruct Hrow as (a & <- & _).
    rewrite !length_map, length_seq. apply (is_mat_hd n c B HB Hn).
Qed.

Lemma mat_mult_mmul (r n c : nat) (A B : matrix)
  (HA : is_mat r n A) (HB : is_mat n c B)
  (Hr : (0 < r)%nat) (Hn : (0 < n)%nat) :
  mat_mult A B = Ok (mmul A B)
  /\ is_mat r c (mmul A B)
  /\ forall i j, (i < r)%nat -> (j < c)%nat ->
       entry (mmul A B) i j
       = fold_left Rplus
           (map (fun k => entry A i k * entry B k j) (seq 0 n)) 0.
Proof.
  pose proof HA as [HAr HAc]. pose proof HB as [HBr HBc].
  assert (Hmm : mmul A B
                = map (fun i =>
                         map (fun j =>
                                fold_left Rplus
                                  (map (fun k => entry A i k * entry B k j)
                                       (seq 0 n)) 0)
                             (seq 0 c))
                      (seq 0 r)).
  { unfold mmul, mtrans. rewrite (is_mat_hd n c B HB Hn).
    rewrite <- HAr.
    rewrite <- (map_seq_nth
                  (fun row =>
                     map (fun col => dot row col)
                         (map (fun j => map (fun row0 => nth j row0 0) B)
                              (seq 0 c))) A []).
    apply map_ext_in. intros i Hi. apply in_seq in Hi.
    rewrite map_map. apply map_ext. intros j.
    apply (dot_row_column r n c); [exact HA | exact HB | lia]. }
  split; [| split; [apply (mmul_shape r n c); assumption |]].
  - unfold mat_mult.
    rewrite (idx_ok A 0 []) by lia. cbn [rbind].
    rewrite (idx_ok B 0 []) by lia. cbn [rbind].
    rewrite (is_mat_row r n A 0 HA Hr), (is_mat_row n c B 0 HB Hn).
    rewrite HBr, Nat.eqb_refl, HAr. cbn [negb]. rewrite Hmm.
    apply rmap_ok. intros i Hi. apply in_seq in Hi.
    apply rmap_ok. intros j Hj. apply in_seq in Hj.
    apply (mult_acc_ok r n c); try assumption; try lia.
    intros k Hk. apply in_seq in Hk. lia.
  - intros i j Hi Hj. rewrite Hmm. unfold entry.
    rewrite (nth_map_seq _ r i [] Hi), (nth_map_seq _ c j 0 Hj).
    reflexivity.
Qed.

(** X1.  On conforming shapes -- [A] is r x n, [B] is n x c, with
    [r, n > 0] -- [mat_mult] returns the r x c matrix whose entry
    [(i, j)] is the sum over [k] of [A[i][k] * B[k][j]]. *)
Theorem mat_mult_conforming (r n c : nat) (A B : matrix)
  (HA : is_mat r n A) (HB : is_mat n c B)
  (Hr : (0 < r)%nat) (Hn : (0 < n)%nat) :
  exists C,
    mat_mult A B = Ok C
    /\ is_mat r c C
    /\ forall i j, (i < r)%nat -> (j < c)%nat ->
         entry C i j
         = fold_left Rplus
             (map (fun k => entry A i k * entry B k j) (seq 0 n)) 0.
Proof.
  exists (mmul A B). apply (mat_mult_mmul r n c); assumption.
Qed.

(** The theorem at a 2x3 times 3x2 product. *)
Lemma mat_mult_conforming_witness :
  exists C,
    mat_mult [[1; 2; 3]; [4; 5; 6]] [[1; 0]; [0; 1]; [1; 1]] = Ok C
    /\ is_mat 2 2 C
    /\ forall i j, (i < 2)%nat -> (j < 2)%nat ->
         entry C i j
         = fold_left Rplus
             (map (fun k => entry [[1; 2; 3]; [4; 5; 6]] i k
                            * entry [[1; 0]; [0; 1]; [1; 1]] k j)
                  (seq 0 3)) 0.
Proof.
  apply (mat_mult_conforming 2 3 2).
  - split; [reflexivity | repeat constructor].
  - split; [reflexivity | repeat constructor].
  - lia.
  - lia.
Defined.

(** *** Errors of [mat_mult] *)

Lemma rmap_raises {A B} (f : A -> result B) (l : list A) (e : exn) :
  rmap f l = Raise e -> exists a, In a l /\ f a = Raise e.
Proof.
  induction l as [| a l IH]; cbn [rmap]; [discriminate |].
  destruct (f a) as [b | e'] eqn:Ea; cbn [rbind].
  - destruct (rmap f l) as [bs | e''] eqn:El; cbn [rbind]; [discriminate |].
    intros H. injection H as ->.
    destruct (IH eq_refl) as (a' & Ha' & Ea'). exists a'. split; [right |]; assumption.
  - intros H. injection H as ->. exists a. split; [left; reflexivity | exact Ea].
Qed.

Lemma idx_raises {A} (l : list A) (i : nat) (e : exn) :
  idx l i = Raise e -> e = IndexError.
Proof.
  unfold idx. destruct (nth_error l i); [discriminate |].
  intros H. injection H as <-. reflexivity.
Qed.

Lemma idx2_raises (A : matrix) (i j : nat) (e : exn) :
  idx2 A i j = Raise e -> e = IndexError.
Proof.
  unfold idx2. destruct (idx A i) as [row | e'] eqn:E; cbn [rbind].
  - apply idx_raises.
  - intros H. injection H as <-. eapply idx_raises, E.
Qed.

Lemma mult_acc_raises (A B : matrix) (i j : nat) (ks : list nat) :
  forall acc e, mult_acc A B i j ks acc = Raise e -> e = IndexError.
Proof.
  induction ks as [| k ks IH]; intros acc e; cbn [mult_acc]; [discriminate |].
  destruct (idx2 A i k) as [a | e1] eqn:E1; cbn [rbind];
    [| intros H; injection H as <-; eapply idx2_raises, E1].
  destruct (idx2 B k j) as [b | e2] eqn:E2; cbn [rbind];
    [| intros H; injection H as <-; eapply idx2_raises, E2].
  apply IH.
Qed.

(** X2.  [mat_mult] on unusable operands: an empty operand raises
    [IndexError] (its first row is read before any test); for non-empty
    operands the "dimensions incompatible" [ValueError] is raised
    exactly when the length of the first row of [A] differs from the
    number of rows of [B], and every other failure (a ragged operand) is
    an [IndexError]. *)
Theorem mat_mult_errors (A B : matrix) :
  (A = [] \/ B = [] -> mat_mult A B = Raise IndexError)
  /\ (A <> [] -> B <> [] ->
      (mat_mult A B = Raise (ValueError "Matrix dimensions incompatible")
       <-> length (hd [] A) <> length B)
      /\ forall e, mat_mult A B = Raise e ->
            e = ValueError "Matrix dimensions incompatible"
            \/ e = IndexError).
Proof.
  split.
  - intros [-> | ->]; [reflexivity |]. destruct A; reflexivity.
  - intros HA HB. destruct A as [| a0 A]; [contradiction |].
    destruct B as [| b0 B]; [contradiction |].
    unfold mat_mult. cbn [idx nth_error rbind hd].
    destruct (length a0 =? length (b0 :: B))%nat eqn:En; cbn [negb].
    + apply Nat.eqb_eq in En.
      assert (Hidx : forall e,
                 rmap (fun i =>
                         rmap (fun j =>
                                 mult_acc (a0 :: A) (b0 :: B) i j
                                   (seq 0 (length a0)) 0)
                              (seq 0 (length b0)))
                      (seq 0 (length (a0 :: A))) = Raise e ->
                 e = IndexError).
      { intros e H. apply rmap_raises in H. destruct H as (i & _ & H).
        apply rmap_raises in H. destruct H as (j & _ & H).
        eapply mult_acc_raises, H. }
      split.
      * split; [| intros Hne; contradiction].
        intros H. apply Hidx in H. discriminate H.
      * intros e H. right. apply Hidx, H.
    + apply Nat.eqb_neq in En. split.
      * split; [intros _; exact En | reflexivity].
      * intros e H. injection H as <-. left. reflexivity.
Qed.

(** *** Matrices given by their entries *)

Lemma matrix_of_shape (r c : nat) (f : nat -> nat -> R) :
  is_mat r c (matrix_of r c f).
Proof.
  unfold matrix_of. split.
  - rewrite length_map, length_seq. reflexivity.
  - rewrite Forall_forall. intros row H. apply in_map_iff in H.
    destruct H as (i & <- & _). rewrite length_map, length_seq. reflexivity.
Qed.

Lemma matrix_of_entry (r c : nat) (f : nat -> nat -> R) (i j : nat) :
  (i < r)%nat -> (j < c)%nat -> entry (matrix_of r c f) i j = f i j.
Proof.
  intros Hi Hj. unfold entry, matrix_of.
  rewrite (nth_map_seq _ r i [] Hi), (nth_map_seq _ c j 0 Hj). reflexivity.
Qed.

Lemma mat_ext (r c : nat) (A B : matrix) :
  is_mat r c A -> is_mat r c B ->
  (forall i j, (i < r)%nat -> (j < c)%nat -> entry A i j = entry B i j) ->
  A = B.
Proof.
  intros HA HB H. pose proof HA as [HAr _]. pose proof HB as [HBr _].
  apply (nth_ext A B [] []); [congruence |].
  intros i Hi. rewrite HAr in Hi.
  apply (nth_ext _ _ 0 0).
  - rewrite (is_mat_row r c A i HA Hi), (is_mat_row r c B i HB Hi).
    reflexivity.
  - intros j Hj. rewrite (is_mat_row r c A i HA Hi) in Hj.
    apply (H i j Hi Hj).
Qed.

Lemma rmap_matrix_of (r c : nat) (f : nat -> nat -> result R)
  (g : nat -> nat -> R) :
  (forall i j, (i < r)%nat -> (j < c)%nat -> f i j = Ok (g i j)) ->
  rmap (fun i => rmap (fun j => f i j) (seq 0 c)) (seq 0 r)
  = Ok (matrix_of r c g).
Proof.
  intros H. unfold matrix_of. apply rmap_ok. intros i Hi.
  apply in_seq in Hi. apply rmap_ok. intros j Hj. apply in_seq in Hj.
  apply H; lia.
Qed.

(** *** [mat_transpose] *)

Lemma mtrans_shape (r c : nat) (A : matrix) :
  is_mat r c A -> (0 < r)%nat -> is_mat c r (mtrans A).
Proof.
  intros HA Hr. unfold mtrans. rewrite (is_mat_hd r c A HA Hr). split.
  - rewrite length_map, length_seq. reflexivity.
  - rewrite Forall_forall. intros row H. apply in_map_iff in H.
    destruct H as (j & <- & _). rewrite length_map. destruct HA; assumption.
Qed.

Lemma mtrans_entry (r c : nat) (A : matrix) (i j : nat) :
  is_mat r c A -> (i < r)%nat -> (j < c)%nat ->
  entry (mtrans A) j i = entry A i j.
Proof.
  intros HA Hi Hj. unfold mtrans.
  rewrite (is_mat_hd r c A HA) by lia. unfold entry at 1.
  rewrite (nth_map_seq _ c j [] Hj). apply column_entry.
Qed.

Lemma mat_transpose_mtrans (r c : nat) (A : matrix) :
  is_mat r c A -> (0 < r)%nat -> mat_transpose A = Ok (mtrans A).
Proof.
  intros HA Hr. pose proof HA as [HAr _]. unfold mat_transpose.
  rewrite (idx_ok A 0 []) by lia. cbn [rbind].
  rewrite (is_mat_row r c A 0 HA Hr), HAr.
  rewrite (rmap_matrix_of c r (fun i j => idx2 A j i) (fun i j => entry A j i))
    by (intros i j Hi Hj; apply (idx2_ok r c); assumption).
  f_equal. apply (mat_ext c r).
  - apply matrix_of_shape.
  - apply mtrans_shape; assumption.
  - intros j i Hj Hi. rewrite matrix_of_entry by assumption.
    symmetry. apply (mtrans_entry r c); assumption.
Qed.

Lemma mtrans_involutive (r c : nat) (A : matrix) :
  is_mat r c A -> (0 < r)%nat -> (0 < c)%nat -> mtrans (mtrans A) = A.
Proof.
  intros HA Hr Hc. pose proof (mtrans_shape r c A HA Hr) as HT.
  apply (mat_ext r c); [apply mtrans_shape; assumption | exact HA |].
  intros i j Hi Hj.
  rewrite (mtrans_entry c r (mtrans A) j i HT Hj Hi).
  apply (mtrans_entry r c); assumption.
Qed.

(** X3.  On a rectangular r x c matrix with [r, c > 0], [mat_transpose]
    returns the c x r matrix with the entries mirrored, and transposing
    twice gives the matrix back. *)
Theorem mat_transpose_involution (r c : nat) (A : matrix)
  (HA : is_mat r c A) (Hr : (0 < r)%nat) (Hc : (0 < c)%nat) :
  exists T,
    mat_transpose A = Ok T
    /\ is_mat c r T
    /\ (forall i j, (i < r)%nat -> (j < c)%nat -> entry T j i = entry A i j)
    /\ mat_transpose T = Ok A.
Proof.
  exists (mtrans A).
  split; [apply (mat_transpose_mtrans r c); assumption |].
  split; [apply mtrans_shape; assumption |].
  split; [intros i j; apply (mtrans_entry r c), HA |].
  rewrite (mat_transpose_mtrans c r) by (try apply mtrans_shape; assumption).
  f_equal. apply (mtrans_involutive r c); assumption.
Qed.

(** The theorem at a 2x3 matrix. *)
Lemma mat_transpose_involution_witness :
  exists T,
    mat_transpose [[1; 2; 3]; [4; 5; 6]] = Ok T
    /\ is_mat 3 2 T
    /\ (forall i j, (i < 2)%nat -> (j < 3)%nat ->
          entry T j i = entry [[1; 2; 3]; [4; 5; 6]] i j)
    /\ mat_transpose T = Ok [[1; 2; 3]; [4; 5; 6]].
Proof.
  apply (mat_transpose_involution 2 3).
  - split; [reflexivity | repeat constructor].
  - lia.
  - lia.
Defined.

(** *** [mat_add] and [mat_scale] *)

Lemma madd_shape (r c : nat) (A B : matrix) :
  is_mat r c A -> is_mat r c B -> is_mat r c (madd A B).
Proof.
  intros [HAr HAc] [HBr HBc]. unfold madd. split.
  - rewrite length_map, length_combine, HAr, HBr. apply Nat.min_id.
  - rewrite Forall_forall in *. intros row H. apply in_map_iff in H.
    destruct H as ([a b] & <- & Hab). cbn [fst snd].
    rewrite length_map, length_combine.
    rewrite (HAc a (in_combine_l _ _ _ _ Hab)),
            (HBc b (in_combine_r _ _ _ _ Hab)).
    apply Nat.min_id.
Qed.

Lemma madd_entry (r c : nat) (A B : matrix) (i j : nat) :
  is_mat r c A -> is_mat r c B -> (i < r)%nat -> (j < c)%nat ->
  entry (madd A B) i j = entry A i j + entry B i j.
Proof.
  intros HA HB Hi Hj. pose proof HA as [HAr _]. pose proof HB as [HBr _].
  unfold entry, madd.
  pose proof (map_nth
                (fun p : list R * list R =>
                   map (fun q => fst q + snd q) (combine (fst p) (snd p)))
                (combine A B) ([], []) i) as H1.
  cbn [fst snd combine map] in H1. rewrite H1.
  rewrite combine_nth by congruence. cbn [fst snd].
  pose proof (is_mat_row r c A i HA Hi) as La.
  pose proof (is_mat_row r c B i HB Hi) as Lb.
  rewrite (nth_indep _ 0 ((fun q : R * R => fst q + snd q) (0, 0)))
    by (rewrite length_map, length_combine, La, Lb, Nat.min_id; exact Hj).
  rewrite (map_nth (fun q : R * R => fst q + snd q)).
  rewrite combine_nth by congruence. reflexivity.
Qed.

Lemma mat_add_madd (r c : nat) (A B : matrix) :
  is_mat r c A -> is_mat r c B -> mat_add A B = Ok (madd A B).
Proof.
  intros HA HB. pose proof HA as [HAr _]. unfold mat_add. rewrite HAr.
  destruct r as [| r'].
  - destruct A; [reflexivity | discriminate HAr].
  - rewrite (idx_ok A 0 []) by lia. cbn [rbind].
    rewrite (is_mat_row (S r') c A 0 HA) by lia.
    rewrite (rmap_matrix_of (S r') c _
               (fun i j => entry A i j + entry B i j)).
    + f_equal. apply (mat_ext (S r') c).
      * apply matrix_of_shape.
      * apply madd_shape; assumption.
      * intros i j Hi Hj. rewrite matrix_of_entry by assumption.
        symmetry. apply (madd_entry (S r') c); assumption.
    + intros i j Hi Hj.
      rewrite (idx2_ok (S r') c A i j HA Hi Hj),
              (idx2_ok (S r') c B i j HB Hi Hj).
      reflexivity.
Qed.

Lemma madd_comm (r c : nat) (A B : matrix) :
  is_mat r c A -> is_mat r c B -> madd A B = madd B A.
Proof.
  intros HA HB. apply (mat_ext r c); try (apply madd_shape; assumption).
  intros i j Hi Hj.
  rewrite (madd_entry r c A B), (madd_entry r c B A) by assumption.
  apply Rplus_comm.
Qed.

(** X4.  On two matrices of one shape [mat_add] returns the matrix of
    that shape with the entries added, and the order of the operands
    does not matter. *)
Theorem mat_add_entrywise (r c : nat) (A B : matrix)
  (HA : is_mat r c A) (HB : is_mat r c B) :
  exists S,
    mat_add A B = Ok S
    /\ is_mat r c S
    /\ (forall i j, (i < r)%nat -> (j < c)%nat ->
          entry S i j = entry A i j + entry B i j)
    /\ mat_add B A = Ok S.
Proof.
  exists (madd A B).
  split; [apply (mat_add_madd r c); assumption |].
  split; [apply madd_shape; assumption |].
  split; [intros i j; apply (madd_entry r c); assumption |].
  rewrite (madd_comm r c A B) by assumption.
  apply (mat_add_madd r c); assumption.
Qed.

(** The theorem at two 2x2 matrices. *)
Lemma mat_add_entrywise_witness :
  exists S,
    mat_add [[1; 2]; [3; 4]] [[5; 6]; [7; 8]] = Ok S
    /\ is_mat 2 2 S
    /\ (forall i j, (i < 2)%nat -> (j < 2)%nat ->
          entry S i j
          = entry [[1; 2]; [3; 4]] i j + entry [[5; 6]; [7; 8]] i j)
    /\ mat_add [[5; 6]; [7; 8]] [[1; 2]; [3; 4]] = Ok S.
Proof.
  apply (mat_add_entrywise 2 2).
  - split; [reflexivity | repeat constructor].
  - split; [reflexivity | repeat constructor].
Defined.

Lemma mscal_shape (r c : nat) (s : R) (A : matrix) :
  is_mat r c A -> is_mat r c (mscal s A).
Proof.
  intros [HAr HAc]. unfold mscal. split.
  - rewrite length_map. exact HAr.
  - rewrite Forall_forall in *. intros row H. apply in_map_iff in H.
    destruct H as (a & <- & Ha). rewrite length_map. apply HAc, Ha.
Qed.

Lemma mscal_entry (r c : nat) (s : R) (A : matrix) (i j : nat) :
  is_mat r c A -> (i < r)%nat -> (j < c)%nat ->
  entry (mscal s A) i j = s * entry A i j.
Proof.
  intros HA Hi Hj. unfold entry, mscal.
  pose proof (map_nth (map (fun a => s * a)) A [] i) as H1.
  cbn [map] in H1. rewrite H1.
  rewrite (nth_indep _ 0 ((fun a => s * a) 0))
    by (rewrite length_map, (is_mat_row r c A i HA Hi); exact Hj).
  apply (map_nth (fun a => s * a)).
Qed.

Lemma mat_scale_mscal (r c : nat) (s : R) (A : matrix) :
  is_mat r c A -> mat_scale A s = Ok (mscal s A).
Proof.
  intros HA. pose proof HA as [HAr _]. unfold mat_scale. rewrite HAr.
  destruct r as [| r'].
  - destruct A; [reflexivity | discriminate HAr].
  - rewrite (idx_ok A 0 []) by lia. cbn [rbind].
    rewrite (is_mat_row (S r') c A 0 HA) by lia.
    rewrite (rmap_matrix_of (S r') c _ (fun i j => s * entry A i j)).
    + f_equal. apply (mat_ext (S r') c).
      * apply matrix_of_shape.
      * apply mscal_shape; assumption.
      * intros i j Hi Hj. rewrite matrix_of_entry by assumption.
        symmetry. apply (mscal_entry (S r') c); assumption.
    + intros i j Hi Hj. rewrite (idx2_ok (S r') c A i j HA Hi Hj).
      reflexivity.
Qed.

(** X5.  On a rectangular matrix [mat_scale] multiplies every entry by
    the scalar and keeps the shape; scaling by 1 gives the matrix back,
    and scaling by [s] and then by [t] is scaling by [t * s]. *)
Theorem mat_scale_entrywise (r c : nat) (A : matrix) (s t : R)
  (HA : is_mat r c A) :
  exists S,
    mat_scale A s = Ok S
    /\ is_mat r c S
    /\ (forall i j, (i < r)%nat -> (j < c)%nat ->
          entry S i j = s * entry A i j)
    /\ mat_scale A 1 = Ok A
    /\ (S' <- mat_scale A s ;; mat_scale S' t)%result = mat_scale A (t * s).
Proof.
  exists (mscal s A).
  split; [apply (mat_scale_mscal r c), HA |].
  split; [apply mscal_shape, HA |].
  split; [intros i j; apply (mscal_entry r c), HA |].
  split.
  - rewrite (mat_scale_mscal r c 1 A HA). f_equal.
    apply (mat_ext r c); [apply mscal_shape, HA | exact HA |].
    intros i j Hi Hj. rewrite (mscal_entry r c) by assumption. ring.
  - rewrite (mat_scale_mscal r c s A HA). cbn [rbind].
    rewrite (mat_scale_mscal r c t _ (mscal_shape r c s A HA)).
    rewrite (mat_scale_mscal r c (t * s) A HA). f_equal.
    apply (mat_ext r c); try (repeat apply mscal_shape; exact HA).
    intros i j Hi Hj.
    rewrite (mscal_entry r c t (mscal s A)), !(mscal_entry r c _ A)
      by (try apply mscal_shape; assumption).
    ring.
Qed.

(** The theorem at a 2x2 matrix. *)
Lemma mat_scale_entrywise_witness :
  exists S,
    mat_scale [[1; 2]; [3; 4]] 2 = Ok S
    /\ is_mat 2 2 S
    /\ (forall i j, (i < 2)%nat -> (j < 2)%nat ->
          entry S i j = 2 * entry [[1; 2]; [3; 4]] i j)
    /\ mat_scale [[1; 2]; [3; 4]] 1 = Ok [[1; 2]; [3; 4]]
    /\ (S' <- mat_scale [[1; 2]; [3; 4]] 2 ;; mat_scale S' 3)%result
       = mat_scale [[1; 2]; [3; 4]] (3 * 2).
Proof.
  apply (mat_scale_entrywise 2 2).
  split; [reflexivity | repeat constructor].
Defined.

(** *** [mat_eye] *)

Lemma mat_eye_matrix_of (n : nat) :
  mat_eye n = matrix_of n n (fun i j => if (i =? j)%nat then 1 else 0).
Proof. reflexivity. Qed.

Lemma sum_skips (i : nat) (f : nat -> R) (s m : nat) :
  (i < s \/ s + m <= i)%nat ->
  fold_left Rplus
    (map (fun k => (if (i =? k)%nat then 1 else 0) * f k) (seq s m)) 0 = 0.
Proof.
  revert s. induction m as [| m IH]; intros s Hi; [reflexivity |].
  cbn [seq map fold_left]. rewrite fold_left_Rplus_acc.
  fold (py_sum (map (fun k => (if (i =? k)%nat then 1 else 0) * f k)
                    (seq (S s) m))).
  unfold py_sum. rewrite IH by lia.
  destruct (Nat.eqb_spec i s); [lia | ring].
Qed.

Lemma sum_picks (i : nat) (f : nat -> R) (s m : nat) :
  (s <= i < s + m)%nat ->
  fold_left Rplus
    (map (fun k => (if (i =? k)%nat then 1 else 0) * f k) (seq s m)) 0 = f i.
Proof.
  revert s. induction m as [| m IH]; intros s Hi; [lia |].
  cbn [seq map fold_left]. rewrite fold_left_Rplus_acc. unfold py_sum.
  destruct (Nat.eqb_spec i s) as [-> | Hne].
  - rewrite sum_skips by lia. ring.
  - rewrite IH by lia. ring.
Qed.

Lemma sum_picks_r (j : nat) (f : nat -> R) (n : nat) :
  (j < n)%nat ->
  fold_left Rplus
    (map (fun k => f k * (if (k =? j)%nat then 1 else 0)) (seq 0 n)) 0 = f j.
Proof.
  intros Hj. rewrite <- (sum_picks j f 0 n) by lia. f_equal.
  apply map_ext. intros k. rewrite (Nat.eqb_sym k j). ring.
Qed.

Lemma mat_eye_entry_seq (n : nat) (i : nat) (g : nat -> R) :
  (i < n)%nat ->
  map (fun k => entry (mat_eye n) i k * g k) (seq 0 n)
  = map (fun k => (if (i =? k)%nat then 1 else 0) * g k) (seq 0 n).
Proof.
  intros Hi. apply map_ext_in. intros k Hk. apply in_seq in Hk.
  rewrite mat_eye_matrix_of, matrix_of_entry by lia. reflexivity.
Qed.

(** X6.  [mat_eye n] is the n x n matrix with ones on the diagonal, and
    it is a unit of [mat_mult] on both sides: multiplying a rectangular
    matrix by it returns that matrix (exact arithmetic). *)
Theorem mat_eye_unit (r n : nat) (A : matrix)
  (HA : is_mat r n A) (Hr : (0 < r)%nat) (Hn : (0 < n)%nat) :
  is_mat r r (mat_eye r)
  /\ (forall i j, (i < r)%nat -> (j < r)%nat ->
        entry (mat_eye r) i j = if (i =? j)%nat then 1 else 0)
  /\ mat_mult (mat_eye r) A = Ok A
  /\ mat_mult A (mat_eye n) = Ok A.
Proof.
  assert (Hshape : forall m, is_mat m m (mat_eye m))
    by (intros m; rewrite mat_eye_matrix_of; apply matrix_of_shape).
  split; [apply Hshape |].
  split; [intros i j Hi Hj; rewrite mat_eye_matrix_of;
          apply matrix_of_entry; assumption |].
  split.
  - destruct (mat_mult_mmul r r n (mat_eye r) A (Hshape r) HA Hr Hr)
      as (E & HS & Hent).
    rewrite E. f_equal. apply (mat_ext r n); [exact HS | exact HA |].
    intros i j Hi Hj. rewrite (Hent i j Hi Hj).
    rewrite (mat_eye_entry_seq r i (fun k => entry A k j) Hi).
    apply (sum_picks i (fun k => entry A k j) 0 r). lia.
  - destruct (mat_mult_mmul r n n A (mat_eye n) HA (Hshape n) Hr Hn)
      as (E & HS & Hent).
    rewrite E. f_equal. apply (mat_ext r n); [exact HS | exact HA |].
    intros i j Hi Hj. rewrite (Hent i j Hi Hj).
    rewrite <- (sum_picks_r j (fun k => entry A i k) n Hj). f_equal.
    apply map_ext_in. intros k Hk. apply in_seq in Hk.
    rewrite mat_eye_matrix_of, matrix_of_entry by lia. reflexivity.
Qed.

(** The theorem at a 2x3 matrix. *)
Lemma mat_eye_unit_witness :
  is_mat 2 2 (mat_eye 2)
  /\ (forall i j, (i < 2)%nat -> (j < 2)%nat ->
        entry (mat_eye 2) i j = if (i =? j)%nat then 1 else 0)
  /\ mat_mult (mat_eye 2) [[1; 2; 3]; [4; 5; 6]] = Ok [[1; 2; 3]; [4; 5; 6]]
  /\ mat_mult [[1; 2; 3]; [4; 5; 6]] (mat_eye 3) = Ok [[1; 2; 3]; [4; 5; 6]].
Proof.
  apply (mat_eye_unit 2 3).
  - split; [reflexivity | repeat constructor].
  - lia.
  - lia.
Defined.

(** *** [vec_norm] *)

Lemma sumsq_zero (v : vector) : sumsq v = 0 <-> Forall (fun x => x = 0) v.
Proof.
  induction v as [| x v IH].
  - split; [constructor | reflexivity].
  - rewrite sumsq_cons. pose proof (sumsq_nonneg v) as Hv. split.
    + intros H. assert (Hx : x = 0) by nra.
      constructor; [exact Hx |]. apply IH. nra.
    + intros H. inversion H as [| ? ? Hx Hrest]; subst.
      apply IH in Hrest. rewrite Hrest. ring.
Qed.

Lemma sumsq_dominates (v : vector) (x : R) : In x v -> x * x <= sumsq v.
Proof.
  induction v as [| y v IH]; intros H; [contradiction |].
  rewrite sumsq_cons. pose proof (sumsq_nonneg v) as Hv.
  destruct H as [-> | H]; [nra |]. specialize (IH H). nra.
Qed.

Lemma vec_norm_cons (x : R) (v : vector) :
  vec_norm (x :: v) = sqrt (x * x + vec_norm v * vec_norm v).
Proof.
  change (vec_norm (x :: v)) with (sqrt (sumsq (x :: v))).
  change (vec_norm v) with (sqrt (sumsq v)).
  rewrite sumsq_cons, sqrt_sqrt by apply sumsq_nonneg. reflexivity.
Qed.

Lemma vec_norm_nonneg (v : vector) : 0 <= vec_norm v.
Proof. apply sqrt_pos. Qed.

(** The triangle inequality in the plane. *)
Lemma sqrt_triangle (x y a b : R) :
  0 <= a -> 0 <= b ->
  sqrt ((x + y) * (x + y) + (a + b) * (a + b))
  <= sqrt (x * x + a * a) + sqrt (y * y + b * b).
Proof.
  intros Ha Hb.
  set (P := x * x + a * a). set (Q := y * y + b * b).
  assert (HP : 0 <= P) by (unfold P; nra).
  assert (HQ : 0 <= Q) by (unfold Q; nra).
  pose proof (sqrt_pos P) as Hp. pose proof (sqrt_pos Q) as Hq.
  assert (Hcs : x * y + a * b <= sqrt P * sqrt Q).
  { rewrite <- sqrt_mult by assumption.
    destruct (Rle_dec (x * y + a * b) 0) as [Hneg | Hpos].
    - pose proof (sqrt_pos (P * Q)). lra.
    - rewrite <- (sqrt_square (x * y + a * b)) by lra.
      apply sqrt_le_1_alt.
      assert (E : P * Q - (x * y + a * b) * (x * y + a * b)
                  = (x * b - y * a) * (x * b - y * a))
        by (unfold P, Q; ring).
      pose proof (Rle_0_sqr (x * b - y * a)) as Hsq. unfold Rsqr in Hsq.
      lra. }
  assert (HL : 0 <= (x + y) * (x + y) + (a + b) * (a + b)).
  { pose proof (Rle_0_sqr (x + y)) as H1. pose proof (Rle_0_sqr (a + b)) as H2.
    unfold Rsqr in H1, H2. lra. }
  apply Rsqr_incr_0_var; [| lra].
  rewrite Rsqr_sqrt by exact HL.
  unfold Rsqr.
  replace ((sqrt P + sqrt Q) * (sqrt P + sqrt Q))
    with (sqrt P * sqrt P + sqrt Q * sqrt Q + 2 * (sqrt P * sqrt Q)) by ring.
  rewrite !sqrt_sqrt by assumption.
  set (s := sqrt P * sqrt Q) in *. unfold P, Q. clearbody s. nra.
Qed.

Lemma vec_norm_triangle (u v : vector) :
  vec_norm (map (fun p => fst p + snd p) (combine u v))
  <= vec_norm u + vec_norm v.
Proof.
  revert v. induction u as [| x u IH]; intros v.
  - cbn [combine map]. pose proof (vec_norm_nonneg v).
    pose proof (vec_norm_nonneg []). unfold vec_norm at 1.
    unfold py_sum. cbn [map fold_left]. rewrite sqrt_0. lra.
  - destruct v as [| y v].
    + cbn [combine map]. pose proof (vec_norm_nonneg (x :: u)).
      pose proof (vec_norm_nonneg []). unfold vec_norm at 1.
      unfold py_sum. cbn [map fold_left]. rewrite sqrt_0. lra.
    + cbn [combine map fst snd]. rewrite !vec_norm_cons.
      specialize (IH v).
      pose proof (vec_norm_nonneg u) as Hu.
      pose proof (vec_norm_nonneg v) as Hv.
      pose proof (vec_norm_nonneg
                    (map (fun p => fst p + snd p) (combine u v))) as Hc.
      eapply Rle_trans; [| apply sqrt_triangle; assumption].
      apply sqrt_le_1_alt. nra.
Qed.

(** X7.  [vec_norm] is the Euclidean norm on lists of reals, the square
    root of the sum of the squares, and it is a norm: it is never
    negative, it is zero exactly on the all-zero lists, scaling the list
    by [c] scales it by [|c|], and the norm of a componentwise sum is at
    most the sum of the norms (triangle inequality); moreover no
    component exceeds it in magnitude. *)
Theorem vec_norm_is_norm (v : vector) (c : R) :
  0 <= vec_norm v
  /\ (vec_norm v = 0 <-> Forall (fun x => x = 0) v)
  /\ Forall (fun x => Rabs x <= vec_norm v) v
  /\ vec_norm (map (fun x => c * x) v) = Rabs c * vec_norm v
  /\ vec_norm v = sqrt (sum_squares v)
  /\ forall u : vector,
       vec_norm (map (fun p => fst p + snd p) (combine u v))
       <= vec_norm u + vec_norm v.
Proof.
  split; [| split; [| split; [| split; [| split]]]];
    [| | | | apply vec_norm_euclidean | intros u; apply vec_norm_triangle].
  all: change (vec_norm v) with (sqrt (sumsq v)).
  all: pose proof (sumsq_nonneg v) as Hv.
  - apply sqrt_pos.
  - rewrite <- sumsq_zero. split.
    + intros H. apply sqrt_eq_0; assumption.
    + intros ->. apply sqrt_0.
  - rewrite Forall_forall. intros x Hx.
    rewrite <- sqrt_Rsqr_abs. apply sqrt_le_1_alt.
    unfold Rsqr. apply sumsq_dominates, Hx.
  - unfold vec_norm. fold (sumsq (map (fun x => c * x) v)). fold (sumsq v).
    rewrite sumsq_scale, sqrt_mult by (try exact Hv; nra).
    fold (Rsqr c). rewrite sqrt_Rsqr_abs. reflexivity.
Qed.

(** X8.  At every time the desired displacement has Euclidean length
    [|step_size|]: with the configured step size the tip is asked to
    move by exactly [STEP_SIZE] on every pass. *)
Theorem desired_dx_norm (step_size t : R) :
  vec_norm (desired_dx step_size t) = Rabs step_size
  /\ vec_norm (desired_dx STEP_SIZE t) = STEP_SIZE.
Proof.
  assert (H : forall s, vec_norm (desired_dx s t) = Rabs s).
  { intros s. unfold vec_norm, desired_dx, py_sum. cbn [map fold_left].
    set (a := 2 * PI * 0.1 * t).
    replace (0 + s * cos a * (s * cos a) + s * sin a * (s * sin a) + 0 * 0)
      with (Rsqr s * (Rsqr (sin a) + Rsqr (cos a))) by (unfold Rsqr; ring).
    rewrite sin2_cos2, Rmult_1_r. apply sqrt_Rsqr_abs. }
  split; [apply H |].
  rewrite H. apply Rabs_pos_eq. unfold STEP_SIZE. lra.
Qed.

(* ================================================================= *)
(** ** The damped system is positive definite *)

Lemma sum_squares_nonneg (l : list R) : 0 <= sum_squares l.
Proof.
  induction l as [| x l IH]; cbn [sum_squares fold_right]; [lra |].
  fold (sum_squares l). nra.
Qed.

(** The determinant of [J J^T + mu I] as a polynomial in [mu = lam^2]
    whose coefficients are sums of squares of minors of [J]
    (Cauchy-Binet). *)
Lemma det3_damped_gram_minors (J : matrix) (lam : R) :
  is_mat 3 7 J ->
  det3 (damped_gram J lam)
  = (lam ^ 2) ^ 3
    + (lam ^ 2) ^ 2 * sum_squares (concat J)
    + lam ^ 2 * (sum_squares (map (minor2 J 0 1) column_pairs)
                 + sum_squares (map (minor2 J 0 2) column_pairs)
                 + sum_squares (map (minor2 J 1 2) column_pairs))
    + sum_squares (map (minor3 J) column_triples).
Proof.
  intros HJ. explode_lists.
  unfold det3, damped_gram, madd, mmul, mscal, mtrans, dot, mat_eye,
    sum_squares, column_pairs, column_triples, minor2, minor3, det3, entry.
  cbn [map combine fold_left fold_right fst snd hd length seq nth Nat.eqb
       concat app].
  ring.
Qed.

Lemma det3_damped_gram_lower (J : matrix) (lam : R) :
  is_mat 3 7 J -> (lam ^ 2) ^ 3 <= det3 (damped_gram J lam).
Proof.
  intros HJ. rewrite (det3_damped_gram_minors J lam HJ).
  pose proof (sum_squares_nonneg (concat J)).
  pose proof (sum_squares_nonneg (map (minor2 J 0 1) column_pairs)).
  pose proof (sum_squares_nonneg (map (minor2 J 0 2) column_pairs)).
  pose proof (sum_squares_nonneg (map (minor2 J 1 2) column_pairs)).
  pose proof (sum_squares_nonneg (map (minor3 J) column_triples)).
  assert (0 <= lam ^ 2) by (apply pow2_ge_0).
  assert (0 <= (lam ^ 2) ^ 2) by (apply pow2_ge_0).
  nra.
Qed.

Lemma dls_solve_damped (J : matrix) (dx : vector) (lam : R) :
  is_mat 3 7 J -> length dx = 3%nat -> 1e-10 <= (lam ^ 2) ^ 3 ->
  dls_solve J dx lam = Ok (dls_formula J dx lam).
Proof.
  intros HJ Hdx Hlam.
  pose proof (det3_damped_gram_lower J lam HJ) as Hdet.
  rewrite (dls_solve_unfold _ _ _ HJ).
  rewrite (solve_3x3_inv3 _ _ (damped_gram_shape J lam HJ) Hdx);
    [reflexivity |].
  rewrite Rabs_pos_eq by lra. unfold singular_threshold. lra.
Qed.

Lemma LAMBDA_damps : 1e-10 <= (LAMBDA ^ 2) ^ 3.
Proof. unfold LAMBDA. lra. Qed.

(** X9.  In exact arithmetic the damped system of a 3x7 matrix is
    positive definite: its determinant is at least [lam^6].  So for a
    damping with [lam^6 >= 1e-10], in particular for the configured
    [LAMBDA = 0.1], the solve never raises the singular-matrix error,
    whatever the Jacobian: it returns the damped least-squares vector. *)
Theorem dls_solve_never_singular (J : matrix) (dx : vector) (lam : R)
  (HJ : is_mat 3 7 J) (Hdx : length dx = 3%nat)
  (Hlam : 1e-10 <= (lam ^ 2) ^ 3) :
  (lam ^ 2) ^ 3 <= det3 (damped_gram J lam)
  /\ dls_solve J dx lam = Ok (dls_formula J dx lam)
  /\ dls_solve J dx LAMBDA = Ok (dls_formula J dx LAMBDA).
Proof.
  split; [apply det3_damped_gram_lower, HJ |].
  split; [apply dls_solve_damped; assumption |].
  apply dls_solve_damped; [exact HJ | exact Hdx | exact LAMBDA_damps].
Qed.

(** The theorem at the all-zero Jacobian, where only the damping keeps
    the system regular. *)
Lemma dls_solve_never_singular_witness :
  (LAMBDA ^ 2) ^ 3 <= det3 (damped_gram zero_3x7 LAMBDA)
  /\ dls_solve zero_3x7 [0.002; 0; 0] LAMBDA
     = Ok (dls_formula zero_3x7 [0.002; 0; 0] LAMBDA)
  /\ dls_solve zero_3x7 [0.002; 0; 0] LAMBDA
     = Ok (dls_formula zero_3x7 [0.002; 0; 0] LAMBDA).
Proof.
  apply (dls_solve_never_singular zero_3x7 [0.002; 0; 0] LAMBDA).
  - exact zero_3x7_shape.
  - reflexivity.
  - exact LAMBDA_damps.
Defined.

(** *** What the damped solution achieves *)

Lemma inv3_solves (A : matrix) (b : vector) :
  is_mat 3 3 A -> length b = 3%nat -> det3 A <> 0 ->
  mat_vec A (mat_vec (inv3 A) b) = b.
Proof.
  intros HA Hb Hd. explode_lists.
  unfold mat_vec, inv3, dot. cbn [map combine fold_left fst snd].
  unfold det3, entry in Hd |- *; cbn [nth] in Hd |- *.
  entrywise ltac:(field; exact Hd).
Qed.

Lemma damped_gram_apply (J : matrix) (lam y0 y1 y2 : R) :
  is_mat 3 7 J ->
  mat_vec (damped_gram J lam) [y0; y1; y2]
  = map (fun p => fst p + lam ^ 2 * snd p)
        (combine (mat_vec J (mat_vec (mtrans J) [y0; y1; y2])) [y0; y1; y2]).
Proof.
  intros HJ. explode_lists.
  unfold mat_vec, damped_gram, madd, mmul, mscal, mtrans, dot, mat_eye.
  cbn [map combine fold_left fst snd hd length seq nth Nat.eqb].
  entrywise ltac:(ring).
Qed.

(** X10.  When the damped system passes the singularity test, the
    returned [dq] is [J^T y] for the solution [y] of
    [(J J^T + lam^2 I) y = dx], and it moves the tip, to first order, by
    [J dq = dx - lam^2 y]; with [lam = 0] it achieves the desired
    displacement exactly: [J dq = dx]. *)
Theorem dls_solve_residual (J : matrix) (dx : vector) (lam : R)
  (HJ : is_mat 3 7 J) (Hdx : length dx = 3%nat)
  (Hdet : 1e-10 <= Rabs (det3 (damped_gram J lam))) :
  exists y dq,
    solve_3x3 (damped_gram J lam) dx = Ok y
    /\ dls_solve J dx lam = Ok dq
    /\ mat_vec (damped_gram J lam) y = dx
    /\ (forall k, (k < 3)%nat ->
          nth k (mat_vec J dq) 0 = nth k dx 0 - lam ^ 2 * nth k y 0)
    /\ (lam = 0 -> mat_vec J dq = dx).
Proof.
  assert (Hs : ~ Rabs (det3 (damped_gram J lam)) < singular_threshold)
    by (unfold singular_threshold; lra).
  pose proof (damped_gram_shape J lam HJ) as HM.
  pose proof (Rabs_small_nonzero _ Hs) as Hd.
  pose proof (inv3_solves _ dx HM Hdx Hd) as Hy.
  exists (mat_vec (inv3 (damped_gram J lam)) dx),
         (mat_vec (mtrans J) (mat_vec (inv3 (damped_gram J lam)) dx)).
  split; [apply solve_3x3_inv3; assumption |].
  split; [rewrite (dls_solve_unfold _ _ _ HJ),
            (solve_3x3_inv3 _ _ HM Hdx Hs); reflexivity |].
  split; [exact Hy |].
  remember (mat_vec (inv3 (damped_gram J lam)) dx) as y eqn:Ey.
  assert (Hy3 : exists y0 y1 y2, y = [y0; y1; y2])
    by (rewrite Ey; unfold mat_vec, inv3; cbn [map]; eauto).
  destruct Hy3 as (y0 & y1 & y2 & ->). clear Ey.
  rewrite (damped_gram_apply J lam y0 y1 y2 HJ) in Hy.
  remember (mat_vec J (mat_vec (mtrans J) [y0; y1; y2])) as z eqn:Ez.
  assert (Hz3 : exists z0 z1 z2, z = [z0; z1; z2]).
  { rewrite Ez. clear Ez Hy. explode_lists. unfold mat_vec. cbn [map]. eauto. }
  destruct Hz3 as (z0 & z1 & z2 & ->). clear Ez.
  revert Hy. explode_lists. intros Hy. cbn [combine map fst snd] in Hy.
  injection Hy as E0 E1 E2. split.
  - intros k Hk.
    destruct k as [| [| [| k]]]; [| | | lia]; cbn [nth]; lra.
  - intros ->. f_equal; [lra |]. f_equal; [lra |]. f_equal. lra.
Qed.

(** The theorem at the scenario of the identity columns, undamped. *)
Lemma dls_solve_residual_witness :
  exists y dq,
    solve_3x3 (damped_gram unit_3x7 0) [0.002; 0; 0] = Ok y
    /\ dls_solve unit_3x7 [0.002; 0; 0] 0 = Ok dq
    /\ mat_vec (damped_gram unit_3x7 0) y = [0.002; 0; 0]
    /\ (forall k, (k < 3)%nat ->
          nth k (mat_vec unit_3x7 dq) 0
          = nth k [0.002; 0; 0] 0 - 0 ^ 2 * nth k y 0)
    /\ (0 = 0 -> mat_vec unit_3x7 dq = [0.002; 0; 0]).
Proof.
  apply (dls_solve_residual unit_3x7 [0.002; 0; 0] 0).
  - exact unit_3x7_shape.
  - reflexivity.
  - rewrite det3_damped_unit.
    replace ((1 + 0 ^ 2) ^ 3) with 1 by ring. rewrite Rabs_R1. lra.
Defined.

(* ================================================================= *)
(** ** The limiter as a projection *)

Lemma clip1_inside (max_dq x : R) : Rabs x <= max_dq -> clip1 max_dq x = x.
Proof.
  intros H.
  assert (Hx : - max_dq <= x <= max_dq)
    by (unfold Rabs in H; destruct (Rcase_abs x); lra).
  unfold clip1, py_max, py_min.
  destruct (Rlt_dec x max_dq);
    match goal with |- context [Rgt_dec ?a ?b] => destruct (Rgt_dec a b) end;
    lra.
Qed.

Lemma clip_dq_inside (max_dq : R) (v : vector) :
  Forall (fun x => Rabs x <= max_dq) v -> clip_dq max_dq v = v.
Proof.
  unfold clip_dq. induction 1 as [| x v Hx _ IH]; cbn [map]; [reflexivity |].
  rewrite (clip1_inside _ _ Hx), IH. reflexivity.
Qed.

Lemma limit_dq_admissible (max_dq : R) (v : vector) :
  Forall (fun x => Rabs x <= max_dq) v -> vec_norm v <= max_dq ->
  limit_dq max_dq v = Ok (v, vec_norm v).
Proof.
  intros Hv Hn. unfold limit_dq. rewrite (clip_dq_inside _ _ Hv).
  destruct (Rgt_dec (vec_norm v) max_dq); [lra | reflexivity].
Qed.

Lemma limit_dq_output_admissible (max_dq : R) (dq out : vector) (n : R) :
  0 < max_dq -> limit_dq max_dq dq = Ok (out, n) ->
  Forall (fun y => Rabs y <= max_dq) out
  /\ vec_norm out <= max_dq /\ n = vec_norm out /\ length out = length dq.
Proof.
  intros HM E.
  pose proof (limit_dq_norm _ _ _ _ HM E) as (Hn & Hle & _).
  pose proof (limit_dq_componentwise _ _ _ _ HM E) as HF.
  split; [| split; [exact Hle | split; [exact Hn |]]].
  - eapply Forall2_right; [| exact HF]. cbv beta. tauto.
  - symmetry. apply (Forall2_length HF).
Qed.

(** X11.  For [maxDq > 0] the limiter is a projection onto the
    admissible updates: a vector whose components and norm are already
    within [maxDq] is returned unchanged, and what the limiter returns
    is such a vector, so limiting a second time changes nothing. *)
Theorem limit_dq_projection (dq : vector) (max_dq : R) (HM : 0 < max_dq) :
  (Forall (fun x => Rabs x <= max_dq) dq -> vec_norm dq <= max_dq ->
   limit_dq max_dq dq = Ok (dq, vec_norm dq))
  /\ exists out n,
       limit_dq max_dq dq = Ok (out, n)
       /\ limit_dq max_dq out = Ok (out, n).
Proof.
  split; [apply limit_dq_admissible |].
  destruct (limit_dq_total max_dq dq HM) as (out & n & E).
  exists out, n. split; [exact E |].
  destruct (limit_dq_output_admissible _ _ _ _ HM E) as (Hc & Hn & -> & _).
  apply limit_dq_admissible; assumption.
Qed.

(** The theorem at an input that is clipped and rescaled. *)
Lemma limit_dq_projection_witness :
  (Forall (fun x => Rabs x <= MAX_DQ) [1; -1; 0.01; 0; 0; 0; 0] ->
   vec_norm [1; -1; 0.01; 0; 0; 0; 0] <= MAX_DQ ->
   limit_dq MAX_DQ [1; -1; 0.01; 0; 0; 0; 0]
   = Ok ([1; -1; 0.01; 0; 0; 0; 0], vec_norm [1; -1; 0.01; 0; 0; 0; 0]))
  /\ exists out n,
       limit_dq MAX_DQ [1; -1; 0.01; 0; 0; 0; 0] = Ok (out, n)
       /\ limit_dq MAX_DQ out = Ok (out, n).
Proof.
  apply (limit_dq_projection [1; -1; 0.01; 0; 0; 0; 0] MAX_DQ).
  unfold MAX_DQ. lra.
Defined.

(* ================================================================= *)
(** ** The statistics of a non-empty list of samples *)

Lemma fold_py_min (l : list R) (b : R) :
  In (fold_left (fun best y => py_min best y) l b) (b :: l)
  /\ forall x, In x (b :: l) ->
       fold_left (fun best y => py_min best y) l b <= x.
Proof.
  revert b. induction l as [| y l IH]; intros b; cbn [fold_left].
  - split; [left; reflexivity |]. intros x [<- | []]. lra.
  - destruct (IH (py_min b y)) as [Hin Hle]. split.
    + destruct Hin as [E | Hin]; [| right; right; exact Hin].
      rewrite <- E. unfold py_min.
      destruct (Rlt_dec y b); [right; left | left]; reflexivity.
    + intros x Hx.
      assert (Hm : fold_left (fun best y0 => py_min best y0) l (py_min b y)
                   <= py_min b y) by (apply Hle; left; reflexivity).
      unfold py_min in Hm |- *. destruct Hx as [<- | [<- | Hx]].
      * destruct (Rlt_dec y b); lra.
      * destruct (Rlt_dec y b); lra.
      * apply Hle. right. exact Hx.
Qed.

Lemma fold_py_max (l : list R) (b : R) :
  In (fold_left (fun best y => py_max best y) l b) (b :: l)
  /\ forall x, In x (b :: l) ->
       x <= fold_left (fun best y => py_max best y) l b.
Proof.
  revert b. induction l as [| y l IH]; intros b; cbn [fold_left].
  - split; [left; reflexivity |]. intros x [<- | []]. lra.
  - destruct (IH (py_max b y)) as [Hin Hle]. split.
    + destruct Hin as [E | Hin]; [| right; right; exact Hin].
      rewrite <- E. unfold py_max.
      destruct (Rgt_dec y b); [right; left | left]; reflexivity.
    + intros x Hx.
      assert (Hm : py_max b y
                   <= fold_left (fun best y0 => py_max best y0) l (py_max b y))
        by (apply Hle; left; reflexivity).
      unfold py_max in Hm |- *. destruct Hx as [<- | [<- | Hx]].
      * destruct (Rgt_dec y b); lra.
      * destruct (Rgt_dec y b); lra.
      * apply Hle. right. exact Hx.
Qed.

Lemma py_sum_between (l : list R) (lo hi : R) :
  (forall x, In x l -> lo <= x <= hi) ->
  INR (length l) * lo <= py_sum l <= INR (length l) * hi.
Proof.
  induction l as [| x l IH]; intros H.
  - unfold py_sum. cbn. lra.
  - rewrite py_sum_cons. change (length (x :: l)) with (S (length l)).
    rewrite S_INR.
    assert (Hx : lo <= x <= hi) by (apply H; left; reflexivity).
    assert (Hl : INR (length l) * lo <= py_sum l <= INR (length l) * hi)
      by (apply IH; intros y Hy; apply H; right; exact Hy).
    lra.
Qed.

Lemma summarize_nonempty (x : R) (l : list R) :
  exists s,
    summarize (x :: l) = Ok (Some s)
    /\ In (min_dq_norm s) (x :: l)
    /\ In (max_dq_norm s) (x :: l)
    /\ (forall y, In y (x :: l) -> min_dq_norm s <= y <= max_dq_norm s)
    /\ avg_dq_norm s = py_sum (x :: l) / INR (length (x :: l))
    /\ min_dq_norm s <= avg_dq_norm s <= max_dq_norm s.
Proof.
  assert (Hn : 0 < INR (length (x :: l))).
  { change (length (x :: l)) with (S (length l)). rewrite S_INR.
    pose proof (pos_INR (length l)). lra. }
  destruct (fold_py_min l x) as [Hmin_in Hmin_le].
  destruct (fold_py_max l x) as [Hmax_in Hmax_le].
  eexists. unfold summarize, compute_stats.
  rewrite py_div_nonzero by lra.
  cbn [rbind py_min_list py_max_list].
  split; [reflexivity |]. cbn [min_dq_norm max_dq_norm avg_dq_norm].
  split; [exact Hmin_in |]. split; [exact Hmax_in |].
  split; [intros y Hy; split; [apply Hmin_le | apply Hmax_le]; exact Hy |].
  split; [reflexivity |].
  pose proof (py_sum_between (x :: l) _ _
                (fun y Hy => conj (Hmin_le y Hy) (Hmax_le y Hy))) as [Hlo Hhi].
  split.
  - apply Rmult_le_reg_l with (INR (length (x :: l))); [exact Hn |].
    replace (INR (length (x :: l))
             * (py_sum (x :: l) / INR (length (x :: l))))
      with (py_sum (x :: l)) by (field; lra).
    exact Hlo.
  - apply Rmult_le_reg_l with (INR (length (x :: l))); [exact Hn |].
    replace (INR (length (x :: l))
             * (py_sum (x :: l) / INR (length (x :: l))))
      with (py_sum (x :: l)) by (field; lra).
    exact Hhi.
Qed.

(** X12.  For a non-empty list of samples the summary returns the
    three statistics: the minimum and the maximum are samples and bound
    every sample, the average is the sum over the count, and the
    average lies between the minimum and the maximum. *)
Theorem summarize_statistics (x : R) (l : list R) :
  exists s,
    summarize (x :: l) = Ok (Some s)
    /\ In (min_dq_norm s) (x :: l)
    /\ In (max_dq_norm s) (x :: l)
    /\ (forall y, In y (x :: l) -> min_dq_norm s <= y <= max_dq_norm s)
    /\ avg_dq_norm s = py_sum (x :: l) / INR (length (x :: l))
    /\ min_dq_norm s <= avg_dq_norm s <= max_dq_norm s.
Proof. apply summarize_nonempty. Qed.

(* ================================================================= *)
(** ** The estimation on an affine arm *)

Lemma forward_difference_shape (P : vector -> vector) (q p : vector) (eps : R) :
  is_mat 3 7 (forward_difference P q p eps).
Proof. split; [reflexivity | repeat constructor]. Qed.

Lemma affine_fk_length (A : matrix) (b x : vector) :
  is_mat 3 7 A -> length b = 3%nat -> length (affine_fk A b x) = 3%nat.
Proof.
  intros [HA _] Hb. unfold affine_fk.
  rewrite length_map, length_combine, HA, Hb. reflexivity.
Qed.

Lemma forward_difference_affine (A : matrix) (b q : vector) (eps : R) :
  is_mat 3 7 A -> length b = 3%nat -> length q = 7%nat -> eps <> 0 ->
  forward_difference (affine_fk A b) q (affine_fk A b q) eps = A.
Proof.
  intros HA Hb Hq Heps. explode_lists.
  unfold forward_difference, perturbed, affine_fk, dot.
  cbn [map seq nth update_joint combine fold_left fst snd].
  entrywise ltac:(field; exact Heps).
Qed.

(** X13.  On an arm whose tip position is an affine function [A q + b]
    of the joints, and when no remote call fails, the estimation at the
    current joints [q] and tip position returns exactly [A] (exact
    arithmetic), for every perturbation [eps > 0], and leaves the joints
    at [q]. *)
Theorem estimate_jacobian_affine (w : World) (A : matrix) (b : vector)
  (eps : R)
  (Hf : faults w = []) (Hj : length (joints w) = 7%nat)
  (Hfk : fk w = affine_fk A b)
  (HA : is_mat 3 7 A) (Hb : length b = 3%nat) (Heps : 0 < eps) :
  exists w',
    estimate_jacobian eps (joints w) (fk w (joints w)) w = (Done A, w')
    /\ joints w' = joints w.
Proof.
  destruct (estimate_jacobian_quiet eps (joints w) (fk w (joints w)) w
              (fun Jm w' => Jm = A /\ joints w' = joints w))
    as (Jm & w' & E & -> & Hj'); try assumption.
  - rewrite Hfk. apply affine_fk_length; assumption.
  - intros x. rewrite Hfk. apply affine_fk_length; assumption.
  - lra.
  - split; [| reflexivity]. rewrite Hfk.
    apply forward_difference_affine; try assumption. lra.
  - exists w'. split; assumption.
Qed.

(** The theorem on the arm whose tip coordinates are its first three
    joints. *)
Lemma estimate_jacobian_affine_witness :
  exists w',
    estimate_jacobian EPS
      (joints (mkWorld (affine_fk unit_3x7 [0; 0; 0]) 0.1
                       [0; 0; 0; 0; 0; 0; 0] 0 true [] []))
      (fk (mkWorld (affine_fk unit_3x7 [0; 0; 0]) 0.1
                   [0; 0; 0; 0; 0; 0; 0] 0 true [] [])
          (joints (mkWorld (affine_fk unit_3x7 [0; 0; 0]) 0.1
                           [0; 0; 0; 0; 0; 0; 0] 0 true [] [])))
      (mkWorld (affine_fk unit_3x7 [0; 0; 0]) 0.1
               [0; 0; 0; 0; 0; 0; 0] 0 true [] [])
    = (Done unit_3x7, w')
    /\ joints w'
       = joints (mkWorld (affine_fk unit_3x7 [0; 0; 0]) 0.1
                         [0; 0; 0; 0; 0; 0; 0] 0 true [] []).
Proof.
  apply (estimate_jacobian_affine
           (mkWorld (affine_fk unit_3x7 [0; 0; 0]) 0.1
                    [0; 0; 0; 0; 0; 0; 0] 0 true [] [])
           unit_3x7 [0; 0; 0] EPS).
  - reflexivity.
  - reflexivity.
  - reflexivity.
  - exact unit_3x7_shape.
  - reflexivity.
  - unfold EPS. lra.
Defined.

(* ================================================================= *)
(** ** One pass when no remote call fails *)

Lemma tick_steady (t0 : R) (st : Loop) (w : World) :
  steady w -> cache_ok st ->
  succeeds (tick t0 st) w
    (fun st' w' =>
       steady w' /\ fk w' = fk w /\ sim_dt w' = sim_dt w
       /\ running w' = running w
       /\ sim_time w'
          = sim_time w
            + (if refresh_due (J st) (S (step_counter st)) then 15 else 1)
              * sim_dt w
       /\ cache_ok st'
       /\ (exists n, dq_norms st' = dq_norms st ++ [n] /\ 0 <= n <= MAX_DQ)
       /\ Forall2 (fun old new => Rabs (new - old) <= MAX_DQ)
                  (joints w) (joints w')).
Proof.
  intros (Hf & Hj & Hfk) Hcache.
  destruct w as [f d js t r fs lg]. world_simpl. subst fs.
  explode_lists. unfold tick.
  apply succeeds_bind. quiet_step.
  cbn [mmap joint_handles seq]. repeat quiet_step. cbn [nth].
  match goal with
  | |- succeeds ?m ?w0 ?Q0 =>
      assert (HJr : succeeds m w0
                (fun Jr w' =>
                   is_mat 3 7 (fst Jr)
                   /\ w' = mkWorld f d [r0; r1; r2; r3; r4; r5; r6]
                             (if refresh_due (J st) (S (step_counter st))
                              then Nat.iter 14 (fun x => x + d) t else t)
                             r [] (log w')))
  end.
  { destruct (J st) as [cached |] eqn:EJ.
    - destruct (refresh_due (Some cached) (S (step_counter st))) eqn:Ed.
      + apply succeeds_bind, estimate_jacobian_quiet; try reflexivity;
          [apply Hfk | intros x; apply Hfk | unfold EPS; lra |].
        world_simpl. apply succeeds_ret. cbn [fst].
        split; [apply forward_difference_shape | reflexivity].
      + apply succeeds_ret. cbn [fst].
        split; [exact (Hcache cached EJ) | reflexivity].
    - cbn [refresh_due].
      apply succeeds_bind, estimate_jacobian_quiet; try reflexivity;
        [apply Hfk | intros x; apply Hfk | unfold EPS; lra |].
      world_simpl. apply succeeds_ret. cbn [fst].
      split; [apply forward_difference_shape | reflexivity]. }
  eapply succeeds_weaken; [exact HJr |]. cbv beta.
  intros [Jm b] w' [HJm Ew]. cbn [fst snd] in *. rewrite Ew. clear HJr Ew.
  apply succeeds_bind.
  eapply succeeds_lift;
    [apply dls_solve_damped; [exact HJm | reflexivity | exact LAMBDA_damps] |].
  assert (HM : 0 < MAX_DQ) by (unfold MAX_DQ; lra).
  match goal with
  | |- context [limit_dq MAX_DQ ?v] =>
      destruct (limit_dq_total MAX_DQ v HM) as (out & n & E);
      pose proof (limit_dq_output_admissible _ _ _ _ HM E)
        as (Hout & Hnorm & Hn & Hlen);
      rewrite (dls_formula_length _ _ _ HJm) in Hlen
  end.
  apply succeeds_bind.
  eapply succeeds_lift; [exact E |]. cbn [fst snd].
  destruct out as [| o0 [| o1 [| o2 [| o3 [| o4 [| o5 [| o6 [| o7 out]]]]]]]];
    try discriminate Hlen.
  apply succeeds_bind.
  eapply succeeds_lift; [reflexivity |].
  apply succeeds_bind, command_joints_quiet; try reflexivity.
  world_simpl. repeat quiet_step.
  cbn [J dq_norms].
  split; [split; [reflexivity | split; [reflexivity | exact Hfk]] |].
  split; [reflexivity |]. split; [reflexivity |]. split; [reflexivity |].
  split.
  { destruct (refresh_due (J st) (S (step_counter st))).
    - rewrite iter_steps. cbn [INR]. ring.
    - ring. }
  split; [intros Jm' H; injection H as <-; exact HJm |].
  split.
  { exists n. split; [reflexivity |]. rewrite Hn.
    split; [apply sqrt_pos | exact Hnorm]. }
  repeat match goal with
         | H : Forall _ (_ :: _) |- _ => inversion H; subst; clear H
         end.
  repeat (apply Forall2_cons;
          [match goal with
           | |- Rabs (?a + ?b - ?a) <= _ =>
               replace (a + b - a) with b by ring; assumption
           end |]).
  apply Forall2_nil.
Qed.

(** X14.  In a world where no remote call fails (seven joints, a tip
    position of three coordinates), a pass of the loop body always
    returns: no singular matrix, no index error, no division by zero.
    It advances the simulation by 15 steps when it recomputes the
    Jacobian and by one step otherwise, records one sample between 0
    and [MAX_DQ], and moves no joint by more than [MAX_DQ]. *)
Theorem tick_succeeds (t0 : R) (st : Loop) (w : World)
  (Hw : steady w) (Hc : cache_ok st) :
  exists st' w',
    tick t0 st w = (Done st', w')
    /\ steady w'
    /\ sim_time w'
       = sim_time w
         + (if refresh_due (J st) (S (step_counter st)) then 15 else 1)
           * sim_dt w
    /\ (exists n, dq_norms st' = dq_norms st ++ [n] /\ 0 <= n <= MAX_DQ)
    /\ Forall2 (fun old new => Rabs (new - old) <= MAX_DQ)
               (joints w) (joints w').
Proof.
  destruct (tick_steady t0 st w Hw Hc)
    as (st' & w' & E & Hs & _ & _ & _ & Ht & _ & Hn & Hq).
  exists st', w'. repeat split; try assumption; apply Hs.
Qed.

Lemma still_arm_steady : steady (still_arm []).
Proof. split; [reflexivity | split; [reflexivity | intros x; reflexivity]]. Qed.

Lemma init_loop_cache_ok : cache_ok init_loop.
Proof. intros Jm H. discriminate H. Qed.

(** The theorem on the first pass of the still arm. *)
Lemma tick_succeeds_witness :
  exists st' w',
    tick 0 init_loop (still_arm []) = (Done st', w')
    /\ steady w'
    /\ sim_time w'
       = sim_time (still_arm [])
         + (if refresh_due (J init_loop) (S (step_counter init_loop))
            then 15 else 1)
           * sim_dt (still_arm [])
    /\ (exists n, dq_norms st' = dq_norms init_loop ++ [n]
                  /\ 0 <= n <= MAX_DQ)
    /\ Forall2 (fun old new => Rabs (new - old) <= MAX_DQ)
               (joints (still_arm [])) (joints w').
Proof.
  apply (tick_succeeds 0 init_loop (still_arm [])).
  - exact still_arm_steady.
  - exact init_loop_cache_ok.
Defined.

(* ================================================================= *)
(** ** Termination of the loop and the complete run *)

Lemma steady_observed (w : World) (c : call) :
  steady w ->
  next_fault w = None /\ steady (record_call c true (pop_fault w)).
Proof.
  intros (Hf & Hj & Hfk). destruct w as [f d js t r fs lg].
  world_simpl. subst fs. split; [reflexivity |].
  unfold steady. world_simpl. cbn [tl]. tauto.
Qed.

Lemma control_loop_steady (t0 : R) (n : nat) :
  forall (st : Loop) (w : World),
    steady w -> cache_ok st -> samples_bounded st -> 0 < sim_dt w ->
    DURATION - (sim_time w - t0) <= INR n * sim_dt w ->
    succeeds (control_loop (S n) t0 st) w
      (fun st' w' =>
         steady w' /\ fk w' = fk w /\ sim_dt w' = sim_dt w
         /\ running w' = running w
         /\ DURATION <= sim_time w' - t0
         /\ cache_ok st' /\ samples_bounded st'
         /\ (length (dq_norms st) <= length (dq_norms st'))%nat
         /\ (sim_time w - t0 < DURATION ->
             (length (dq_norms st) < length (dq_norms st'))%nat)).
Proof.
  induction n as [| n IH]; intros st w Hw Hc Hb Hdt Hfuel;
    cbn [control_loop];
    destruct (steady_observed w CallGetSimulationTime Hw) as [Hn Hw1];
    (apply succeeds_bind, succeeds_remote; [exact Hn |]); cbn [fst snd];
    assert (Ht1 : sim_time (pop_fault w) = sim_time w) by (destruct w; reflexivity);
    rewrite Ht1;
    destruct (Rlt_dec (sim_time w - t0) DURATION) as [Hlt | Hge].
  - exfalso. cbn [INR] in Hfuel. lra.
  - apply succeeds_ret.
    assert (E : forall b, sim_time (record_call CallGetSimulationTime b
                                      (pop_fault w)) = sim_time w)
      by (intros b; destruct w; reflexivity).
    rewrite E.
    split; [exact Hw1 |]. split; [destruct w; reflexivity |].
    split; [destruct w; reflexivity |]. split; [destruct w; reflexivity |].
    split; [lra |]. split; [exact Hc |]. split; [exact Hb |].
    split; [lia | intros Hlt; contradiction].
  - apply succeeds_bind.
    eapply succeeds_weaken; [apply (tick_steady t0 st), Hc; exact Hw1 |].
    cbv beta.
    intros st1 w2 (Hw2 & Hfk2 & Hdt2 & Hr2 & Ht2 & Hc2 & (x & Hx & Hxb) & _).
    assert (Edt : sim_dt (record_call CallGetSimulationTime true (pop_fault w))
                  = sim_dt w) by (destruct w; reflexivity).
    assert (Etm : sim_time (record_call CallGetSimulationTime true
                              (pop_fault w)) = sim_time w)
      by (destruct w; reflexivity).
    rewrite Edt in Hdt2, Ht2. rewrite Etm in Ht2.
    assert (Hadv : sim_time w + sim_dt w <= sim_time w2).
    { rewrite Ht2.
      destruct (refresh_due (J st) (S (step_counter st))); nra. }
    assert (Hb2 : samples_bounded st1).
    { unfold samples_bounded. rewrite Hx. apply Forall_app.
      split; [exact Hb | constructor; [exact Hxb | constructor]]. }
    eapply succeeds_weaken.
    + apply (IH st1 w2); try assumption; [rewrite Hdt2; exact Hdt |].
      rewrite Hdt2. rewrite S_INR in Hfuel. nra.
    + cbv beta.
      intros st' w' (Hw' & Hfk' & Hdt' & Hr' & Hd' & Hc' & Hb' & Hlen & _).
      rewrite Hx, length_app in Hlen. cbn [length] in Hlen.
      split; [exact Hw' |].
      split; [rewrite Hfk', Hfk2; destruct w; reflexivity |].
      split; [rewrite Hdt', Hdt2; reflexivity |].
      split; [rewrite Hr', Hr2; destruct w; reflexivity |].
      split; [exact Hd' |]. split; [exact Hc' |]. split; [exact Hb' |].
      split; [lia | intros _; lia].
  - apply succeeds_ret.
    assert (E : forall b, sim_time (record_call CallGetSimulationTime b
                                      (pop_fault w)) = sim_time w)
      by (intros b; destruct w; reflexivity).
    rewrite E.
    split; [exact Hw1 |]. split; [destruct w; reflexivity |].
    split; [destruct w; reflexivity |]. split; [destruct w; reflexivity |].
    split; [lra |]. split; [exact Hc |]. split; [exact Hb |].
    split; [lia | intros Hlt; contradiction].
Qed.

Lemma control_loop_passes (fuel : nat) (t0 : R) :
  forall (st : Loop) (w : World),
    returns (control_loop fuel t0 st) w
            (fun st' _ => (step_counter st' < step_counter st + fuel)%nat).
Proof.
  induction fuel as [| fuel IH]; intros st w.
  - intros a w' E. discriminate E.
  - cbn [control_loop].
    apply returns_bind, returns_any; intros now w1.
    destruct (Rlt_dec (now - t0) DURATION).
    + apply returns_bind, tick_returns. intros st1 w2 Hc _ _ _.
      eapply returns_weaken; [apply IH |]. cbv beta.
      intros st' w' H. lia.
    + apply returns_ret. lia.
Qed.

(** X15.  In a world where no remote call fails and a simulation step
    has positive length, the control loop, started with fuel for more
    than [DURATION / sim_dt] passes, terminates normally: at least one
    pass and at most [n] are made, at least [DURATION] of simulated time
    has gone by, there is one sample per pass, each between 0 and
    [MAX_DQ], and the log follows the refresh schedule. *)
Theorem control_loop_terminates (w : World) (n : nat)
  (Hw : steady w) (Hdt : 0 < sim_dt w)
  (Hfuel : DURATION <= INR n * sim_dt w) :
  exists st' w',
    control_loop (S n) (sim_time w) init_loop w = (Done st', w')
    /\ DURATION <= sim_time w' - sim_time w
    /\ (1 <= step_counter st' <= n)%nat
    /\ length (dq_norms st') = step_counter st'
    /\ samples_bounded st'
    /\ jacobian_log st' = schedule (step_counter st')
    /\ running w' = running w.
Proof.
  destruct (control_loop_steady (sim_time w) n init_loop w Hw
              init_loop_cache_ok (Forall_nil _) Hdt)
    as (st' & w' & E & _ & _ & _ & Hr & Hd & _ & Hb & _ & Hone).
  { lra. }
  pose proof (control_loop_keeps_count (S n) (sim_time w) 0 init_loop w
                init_loop_passes st' w' E) as (_ & Hl & Hlen & _).
  cbv beta in Hl, Hlen.
  pose proof (control_loop_passes (S n) (sim_time w) init_loop w st' w' E)
    as Hle. cbv beta in Hle. cbn [step_counter init_loop] in Hle.
  assert (H1 : (0 < length (dq_norms st'))%nat).
  { apply Hone. unfold DURATION. lra. }
  exists st', w'. split; [exact E |]. split; [exact Hd |].
  split; [lia |]. split; [exact Hlen |]. split; [exact Hb |].
  split; [exact Hl | exact Hr].
Qed.

(** The theorem on the still arm, whose steps are 0.1 s long. *)
Lemma control_loop_terminates_witness :
  exists st' w',
    control_loop 81 (sim_time (still_arm [])) init_loop (still_arm [])
    = (Done st', w')
    /\ DURATION <= sim_time w' - sim_time (still_arm [])
    /\ (1 <= step_counter st' <= 80)%nat
    /\ length (dq_norms st') = step_counter st'
    /\ samples_bounded st'
    /\ jacobian_log st' = schedule (step_counter st')
    /\ running w' = running (still_arm []).
Proof.
  apply (control_loop_terminates (still_arm []) 80).
  - exact still_arm_steady.
  - cbn [sim_dt still_arm still_arm_logged]. lra.
  - cbn [sim_dt still_arm still_arm_logged]. unfold DURATION.
    replace (INR 80) with 80 by (cbn [INR]; ring). lra.
Defined.

Lemma bind_done_eq {A B} (m : M A) (k : A -> M B) (w : World) (a : A)
  (w1 : World) :
  m w = (Done a, w1) -> bind m k w = k a w1.
Proof. intros E. unfold bind. rewrite E. reflexivity. Qed.

Lemma try_finally_done {A} (body : M A) (fin : M unit) (w w1 w2 : World)
  (a : A) :
  body w = (Done a, w1) -> fin w1 = (Done tt, w2) ->
  try_finally body fin w = (Done a, w2).
Proof. intros Eb Ef. unfold try_finally. rewrite Eb, Ef. reflexivity. Qed.

Lemma stop_safely_quiet (w : World) :
  faults w = [] ->
  stop_safely w
  = (Done tt,
     mkWorld (fk w) (sim_dt w) (joints w)
             (Nat.iter 5 (fun t => t + sim_dt w) (sim_time w)) false []
             (finally_calls 5 false true ++ log w)).
Proof.
  intros Hf. destruct w as [f d js t r fs lg]. world_simpl. subst fs.
  reflexivity.
Qed.

Lemma samples_bounded_stats (st : Loop) (s : Stats) :
  samples_bounded st ->
  summarize (dq_norms st) = Ok (Some s) ->
  0 <= min_dq_norm s /\ min_dq_norm s <= avg_dq_norm s <= max_dq_norm s
  /\ max_dq_norm s <= MAX_DQ.
Proof.
  unfold samples_bounded. intros Hb E.
  destruct (dq_norms st) as [| x l]; [discriminate E |].
  destruct (summarize_nonempty x l) as (s' & E' & Hmin & Hmax & _ & _ & Havg).
  rewrite E' in E. injection E as <-.
  rewrite Forall_forall in Hb.
  split; [apply (Hb _ Hmin) |]. split; [exact Havg | apply (Hb _ Hmax)].
Qed.

(** X16.  End to end, when no remote call fails and a simulation step
    has positive length: [main], from starting the simulation on,
    returns; at least [DURATION] of simulated time is reported; the
    finally block makes its five residual steps and the stop call, which
    all return, and the simulation is left stopped; and the summary
    holds statistics with [0 <= min <= avg <= max <= MAX_DQ]. *)
Theorem main_control_completes (w : World) (n : nat)
  (Hw : steady w) (Hdt : 0 < sim_dt w)
  (Hfuel : DURATION <= INR n * sim_dt w) :
  exists d s w',
    main_control (S n) w = (Done (d, Some s), w')
    /\ running w' = false
    /\ DURATION <= d
    /\ firstn 6 (log w') = finally_calls 5 false true
    /\ 0 <= min_dq_norm s
    /\ min_dq_norm s <= avg_dq_norm s <= max_dq_norm s
    /\ max_dq_norm s <= MAX_DQ.
Proof.
  pose proof Hw as (Hf & Hj & Hfk).
  destruct w as [f d0 js t r fs lg]. world_simpl. subst fs.
  set (w1 := mkWorld f d0 js t true []
               ((CallGetSimulationTime, true)
                :: (CallStartSimulation, true) :: lg)).
  assert (Hw1 : steady w1) by (split; [reflexivity | split; assumption]).
  destruct (control_loop_steady t (n) init_loop w1 Hw1
              init_loop_cache_ok (Forall_nil _) Hdt)
    as (st' & w2 & E & Hw2 & _ & _ & Hr2 & Hd2 & _ & Hb & _ & Hone).
  { cbn [sim_time sim_dt w1]. lra. }
  assert (Hne : dq_norms st' <> []).
  { intros Hnil. rewrite Hnil in Hone. cbn [length dq_norms init_loop] in Hone.
    assert (0 < 0)%nat; [| lia]. apply Hone. cbn [sim_time w1].
    unfold DURATION. lra. }
  destruct (dq_norms st') as [| x l] eqn:Ex; [contradiction |].
  destruct (summarize_nonempty x l) as (s & Es & _).
  assert (Hstats : 0 <= min_dq_norm s
                   /\ min_dq_norm s <= avg_dq_norm s <= max_dq_norm s
                   /\ max_dq_norm s <= MAX_DQ).
  { apply (samples_bounded_stats st'); [exact Hb |]. rewrite Ex. exact Es. }
  destruct Hw2 as (Hf2 & Hj2 & Hfk2).
  destruct w2 as [f2 d2 js2 t2 r2 fs2 lg2]. world_simpl. subst fs2.
  eexists (t2 - t), s. eexists.
  split.
  - set (w3 := mkWorld f2 d2 js2 t2 r2 [] ((CallGetSimulationTime, true) :: lg2)).
    assert (Ebody : guarded_body (S n) t w1 = (Done (t2 - t, st'), w3)).
    { unfold guarded_body. rewrite (bind_done_eq _ _ _ _ _ E).
      reflexivity. }
    assert (Erun : run_control (S n)
                     (mkWorld f d0 js t true [] ((CallStartSimulation, true) :: lg))
                   = (Done (t2 - t, st'),
                      mkWorld f2 d2 js2
                        (Nat.iter 5 (fun x => x + d2) t2) false []
                        (finally_calls 5 false true ++ log w3))).
    { unfold run_control.
      rewrite (bind_done_eq _ _ _ t w1) by reflexivity.
      apply (try_finally_done _ _ _ _ _ _ Ebody).
      apply (stop_safely_quiet w3). reflexivity. }
    unfold main_control.
    rewrite (bind_done_eq _ _ _ tt
               (mkWorld f d0 js t true [] ((CallStartSimulation, true) :: lg)))
      by reflexivity.
    rewrite (bind_done_eq _ _ _ _ _ Erun).
    cbn [snd fst]. rewrite Ex.
    unfold bind, lift. rewrite Es. reflexivity.
  - cbn [running log]. split; [reflexivity |].
    split; [exact Hd2 |]. split; [reflexivity |]. exact Hstats.
Qed.

(** The theorem on the still arm. *)
Lemma main_control_completes_witness :
  exists d s w',
    main_control 81 (still_arm []) = (Done (d, Some s), w')
    /\ running w' = false
    /\ DURATION <= d
    /\ firstn 6 (log w') = finally_calls 5 false true
    /\ 0 <= min_dq_norm s
    /\ min_dq_norm s <= avg_dq_norm s <= max_dq_norm s
    /\ max_dq_norm s <= MAX_DQ.
Proof.
  apply (main_control_completes (still_arm []) 80).
  - exact still_arm_steady.
  - cbn [sim_dt still_arm still_arm_logged]. lra.
  - cbn [sim_dt still_arm still_arm_logged]. unfold DURATION.
    replace (INR 80) with 80 by (cbn [INR]; ring). lra.
Defined.

(* ================================================================= *)
(** ** An interrupt inside the finally block *)

Lemma drain_interrupted (j : nat) :
  forall (n : nat) (w : World) (rest : list (option exn)),
    (j < n)%nat ->
    faults w = repeat None j ++ Some KeyboardInterrupt :: rest ->
    exists w',
      drain n w = (Raised KeyboardInterrupt, w')
      /\ running w' = running w
      /\ faults w' = rest
      /\ log w' = (CallStep, false) :: repeat (CallStep, true) j ++ log w.
Proof.
  induction j as [| j IH]; intros n w rest Hn Hf;
    (destruct n as [| n]; [lia |]);
    destruct w as [f d js t r fs lg]; world_simpl; subst fs.
  - eexists. cbn [drain]. unfold bind, catch, client_step, remote.
    cbn [repeat app next_fault faults is_Exception].
    split; [reflexivity |]. repeat split.
  - cbn [drain]. unfold bind at 1, catch, bind at 1, client_step, remote.
    cbn [repeat app next_fault faults fst snd ret].
    match goal with
    | |- context [drain n ?w1] =>
        destruct (IH n w1 rest) as (w' & E & Hr & Hfl & Hl);
        [lia | reflexivity |]
    end.
    exists w'. unfold ret. cbn [fst snd]. split; [exact E |].
    split; [exact Hr |]. split; [exact Hfl |].
    rewrite Hl. cbn [log record_call set_time_of pop_fault set_faults_of].
    f_equal.
    change ((CallStep, true) :: repeat (CallStep, true) j ++ lg)
      with (((CallStep, true) :: repeat (CallStep, true) j) ++ lg).
    rewrite (repeat_cons j (CallStep, true)), <- app_assoc. reflexivity.
Qed.

(** X17.  When a [KeyboardInterrupt] arrives during one of the residual
    steps of the finally block (after [j < 5] steps that returned), it
    is not caught: [stopSimulation] is not called, the running flag is
    left as it was, and the interrupt is what reaches the caller, in
    place of the outcome of the loop. *)
Theorem interrupt_skips_stop (fuel : nat) (w w1 w0 : World) (t0 : R)
  (r0 : outcome (R * Loop)) (j : nat) (rest : list (option exn))
  (Hstart : getSimulationTime w = (Done t0, w1))
  (Hbody : guarded_body fuel t0 w1 = (r0, w0))
  (Hfuel : r0 <> OutOfFuel)
  (Hj : (j < 5)%nat)
  (Hint : faults w0 = repeat None j ++ Some KeyboardInterrupt :: rest) :
  exists w',
    run_control fuel w = (Raised KeyboardInterrupt, w')
    /\ running w' = running w0
    /\ log w' = (CallStep, false) :: repeat (CallStep, true) j ++ log w0
    /\ ~ In (CallStopSimulation, true) (firstn (S j) (log w'))
    /\ ~ In (CallStopSimulation, false) (firstn (S j) (log w')).
Proof.
  destruct (drain_interrupted j 5 w0 rest Hj Hint) as (w' & E & Hr & _ & Hl).
  exists w'.
  assert (Hfirst : firstn (S j) (log w')
                   = (CallStep, false) :: repeat (CallStep, true) j).
  { rewrite Hl. cbn [firstn]. f_equal.
    rewrite firstn_app, repeat_length, Nat.sub_diag. cbn [firstn].
    rewrite app_nil_r, firstn_all2 by (rewrite repeat_length; lia).
    reflexivity. }
  split; [| split; [exact Hr | split; [exact Hl |]]].
  - unfold run_control. rewrite (bind_done_eq _ _ _ _ _ Hstart).
    unfold try_finally. rewrite Hbody.
    unfold stop_safely, catch, bind. rewrite E. cbn [is_Exception].
    destruct r0; [reflexivity | reflexivity | contradiction].
  - rewrite Hfirst. split; intros [H | H]; try discriminate H;
      apply repeat_spec in H; discriminate H.
Qed.

(** The theorem on a run whose first pass fails and whose second
    residual step is interrupted. *)
Lemma interrupt_skips_stop_witness :
  exists w',
    run_control 1
      (still_arm [None; None; Some SimError; None; Some KeyboardInterrupt])
    = (Raised KeyboardInterrupt, w')
    /\ running w' = true
    /\ log w'
       = (CallStep, false) :: repeat (CallStep, true) 1
         ++ [ (CallGetSimulationTime, false); (CallGetSimulationTime, true);
              (CallGetSimulationTime, true) ]
    /\ ~ In (CallStopSimulation, true) (firstn 2 (log w'))
    /\ ~ In (CallStopSimulation, false) (firstn 2 (log w')).
Proof.
  apply (interrupt_skips_stop 1
           (still_arm [None; None; Some SimError; None;
                       Some KeyboardInterrupt])
           (still_arm_logged [None; Some SimError; None;
                              Some KeyboardInterrupt]
              [(CallGetSimulationTime, true)])
           (still_arm_logged [None; Some KeyboardInterrupt]
              [ (CallGetSimulationTime, false); (CallGetSimulationTime, true);
                (CallGetSimulationTime, true) ])
           0 (Raised SimError) 1 []).
  - reflexivity.
  - run_model.
    destruct (Rlt_dec (0 - 0) DURATION) as [H | H];
      [reflexivity | exfalso; apply H; unfold DURATION; lra].
  - discriminate.
  - lia.
  - reflexivity.
Defined.

(* ================================================================= *)
(** ** Start-up code *)

(** *** Tip selection *)

Lemma priority_of_range (s : String.string) :
  (0 <= priority_of s <= 32)%Z.
Proof.
  unfold priority_of.
  destruct (contains "link8" s), (contains "link7" s),
    (contains "_resp" s), (contains "tip" s), (contains "hand" s);
    cbn; lia.
Qed.

Lemma priority_of_resp (s : String.string) :
  if contains "_resp" s
  then (priority_of s <= 12)%Z
  else (20 <= priority_of s)%Z.
Proof.
  unfold priority_of.
  destruct (contains "link8" s), (contains "link7" s),
    (contains "_resp" s), (contains "tip" s), (contains "hand" s);
    cbn; lia.
Qed.

Lemma select_step_maximal (lower : String.string -> String.string)
  (seen : list (String.string * nat))
  (st : option (String.string * nat) * Z) (c : String.string * nat) :
  match fst st with
  | None => seen = [] /\ snd st = (-1)%Z
  | Some b => snd st = priority_of (lower (fst b))
              /\ first_maximal lower seen b
  end ->
  exists b,
    fst (select_step lower st c) = Some b
    /\ snd (select_step lower st c) = priority_of (lower (fst b))
    /\ first_maximal lower (seen ++ [c]) b.
Proof.
  intros Hinv. unfold select_step.
  pose proof (priority_of_range (lower (fst c))) as Hc.
  destruct (Z.gtb_spec (priority_of (lower (fst c))) (snd st)) as [Hgt | Hle].
  - exists c. split; [reflexivity |]. split; [reflexivity |].
    exists seen, []. split; [reflexivity |]. split; [| intros x []].
    intros x Hx. destruct (fst st) as [b |].
    + destruct Hinv as (Hb & pre & post & -> & Hpre & Hpost).
      rewrite Hb in Hgt.
      apply in_app_or in Hx. destruct Hx as [Hx | [<- | Hx]].
      * specialize (Hpre x Hx). lia.
      * exact Hgt.
      * specialize (Hpost x Hx). lia.
    + destruct Hinv as [-> _]. destruct Hx.
  - destruct (fst st) as [b |] eqn:Eb.
    + destruct Hinv as (Hb & pre & post & -> & Hpre & Hpost).
      exists b. split; [reflexivity |]. split; [exact Hb |].
      exists pre, (post ++ [c]). split.
      * rewrite <- app_assoc. reflexivity.
      * split; [exact Hpre |]. intros x Hx.
        apply in_app_or in Hx. destruct Hx as [Hx | [<- | []]].
        -- exact (Hpost x Hx).
        -- rewrite <- Hb. exact Hle.
    + destruct Hinv as [_ Hm]. lia.
Qed.

Lemma select_fold_maximal (lower : String.string -> String.string)
  (cs : list (String.string * nat)) :
  forall (seen : list (String.string * nat))
         (st : option (String.string * nat) * Z) (b : String.string * nat),
    fst st = Some b ->
    snd st = priority_of (lower (fst b)) ->
    first_maximal lower seen b ->
    exists b',
      fst (fold_left (select_step lower) cs st) = Some b'
      /\ first_maximal lower (seen ++ cs) b'.
Proof.
  induction cs as [| c cs IH]; intros seen st b Hb Hp Hm.
  - exists b. rewrite app_nil_r. split; assumption.
  - cbn [fold_left].
    destruct (select_step_maximal lower seen st c) as (b1 & E1 & P1 & M1).
    { rewrite Hb. split; assumption. }
    destruct (IH (seen ++ [c]) _ b1 E1 P1 M1) as (b' & E' & M').
    exists b'. split; [exact E' |].
    rewrite <- app_assoc in M'. exact M'.
Qed.

Lemma select_best_first_maximal (lower : String.string -> String.string)
  (candidates : list (String.string * nat)) :
  candidates <> [] ->
  exists c,
    fst (select_best lower candidates) = Some c
    /\ first_maximal lower candidates c.
Proof.
  intros Hne. destruct candidates as [| c cs]; [contradiction |].
  unfold select_best. cbn [fold_left].
  destruct (select_step_maximal lower [] (None, (-1)%Z) c)
    as (b1 & E1 & P1 & M1); [split; reflexivity |].
  exact (select_fold_maximal lower cs [c] _ b1 E1 P1 M1).
Qed.

Lemma first_maximal_in (lower : String.string -> String.string)
  (l : list (String.string * nat)) (c : String.string * nat) :
  first_maximal lower l c -> In c l.
Proof.
  intros (pre & post & -> & _). apply in_or_app. right. left. reflexivity.
Qed.

Lemma first_maximal_bound (lower : String.string -> String.string)
  (l : list (String.string * nat)) (c x : String.string * nat) :
  first_maximal lower l c -> In x l ->
  (priority_of (lower (fst x)) <= priority_of (lower (fst c)))%Z.
Proof.
  intros (pre & post & -> & Hpre & Hpost) Hx.
  apply in_app_or in Hx. destruct Hx as [Hx | [<- | Hx]].
  - specialize (Hpre x Hx). lia.
  - lia.
  - exact (Hpost x Hx).
Qed.

(** X18.  Among a non-empty list of candidates the selection returns
    the handle of the first candidate of greatest priority; the loop
    always leaves [best_candidate] set, so the branch that falls back to
    the first candidate is never taken. *)
Theorem choose_tip_first_maximal (lower : String.string -> String.string)
  (candidates : list (String.string * nat))
  (Hne : candidates <> []) :
  exists c,
    fst (select_best lower candidates) = Some c
    /\ choose_tip lower candidates = Started (snd c)
    /\ first_maximal lower candidates c.
Proof.
  destruct (select_best_first_maximal lower candidates Hne) as (c & E & M).
  exists c. split; [exact E |]. split; [| exact M].
  unfold choose_tip. destruct candidates as [| c0 cs]; [contradiction |].
  rewrite E. reflexivity.
Qed.

Lemma choose_tip_first_maximal_witness :
  exists c,
    fst (select_best lower_ascii
           [("Franka_link7", 4%nat); ("Franka_link8_resp", 7%nat);
            ("Franka_Link8", 9%nat); ("panda_link8", 11%nat)]) = Some c
    /\ choose_tip lower_ascii
         [("Franka_link7", 4%nat); ("Franka_link8_resp", 7%nat);
          ("Franka_Link8", 9%nat); ("panda_link8", 11%nat)]
       = Started (snd c)
    /\ first_maximal lower_ascii
         [("Franka_link7", 4%nat); ("Franka_link8_resp", 7%nat);
          ("Franka_Link8", 9%nat); ("panda_link8", 11%nat)] c.
Proof.
  apply (choose_tip_first_maximal lower_ascii
           [("Franka_link7", 4%nat); ("Franka_link8_resp", 7%nat);
            ("Franka_Link8", 9%nat); ("panda_link8", 11%nat)]).
  discriminate.
Defined.

(** X19.  A candidate whose lower-cased name has no ["_resp"] outranks
    every candidate that has it, whatever link the names mention: when
    such a candidate is present, the selected one is without ["_resp"]. *)
Theorem choose_tip_prefers_non_resp
  (lower : String.string -> String.string)
  (candidates : list (String.string * nat)) (a : String.string * nat)
  (Ha : In a candidates)
  (Hresp : contains "_resp" (lower (fst a)) = false) :
  (forall s, contains "_resp" s = true ->
             (priority_of s < priority_of (lower (fst a)))%Z)
  /\ exists c,
       In c candidates
       /\ choose_tip lower candidates = Started (snd c)
       /\ contains "_resp" (lower (fst c)) = false.
Proof.
  pose proof (priority_of_resp (lower (fst a))) as Pa. rewrite Hresp in Pa.
  split.
  - intros s Hs. pose proof (priority_of_resp s) as Ps.
    rewrite Hs in Ps. lia.
  - assert (Hne : candidates <> []) by (intros ->; destruct Ha).
    destruct (select_best_first_maximal lower candidates Hne) as (c & E & M).
    exists c. split; [exact (first_maximal_in lower _ _ M) |]. split.
    + unfold choose_tip. destruct candidates as [| c0 cs]; [contradiction |].
      rewrite E. reflexivity.
    + pose proof (first_maximal_bound lower _ _ a M Ha) as Hle.
      pose proof (priority_of_resp (lower (fst c))) as Pc.
      destruct (contains "_resp" (lower (fst c))); [lia | reflexivity].
Qed.

Lemma choose_tip_prefers_non_resp_witness :
  (forall s, contains "_resp" s = true ->
             (priority_of s
              < priority_of (lower_ascii (fst ("Franka_link7", 4%nat))))%Z)
  /\ exists c,
       In c [("Franka_link8_resp", 7%nat); ("Franka_link7", 4%nat)]
       /\ choose_tip lower_ascii
            [("Franka_link8_resp", 7%nat); ("Franka_link7", 4%nat)]
          = Started (snd c)
       /\ contains "_resp" (lower_ascii (fst c)) = false.
Proof.
  apply (choose_tip_prefers_non_resp lower_ascii
           [("Franka_link8_resp", 7%nat); ("Franka_link7", 4%nat)]
           ("Franka_link7", 4%nat)).
  - right. left. reflexivity.
  - vm_compute. reflexivity.
Defined.

Lemma collect_candidates_sound (lower : String.string -> String.string)
  (getObjectName : nat -> result String.string) (all_objects : list nat) :
  match collect_candidates lower getObjectName all_objects with
  | Ok cs =>
      forall c, In c cs ->
        In (snd c) all_objects
        /\ getObjectName (snd c) = Ok (fst c)
        /\ existsb (fun keyword => contains keyword (lower (fst c)))
                   TIP_KEYWORDS = true
  | Raise e => is_Exception e = false
  end.
Proof.
  induction all_objects as [| obj rest IH]; cbn [collect_candidates].
  - intros c [].
  - destruct (getObjectName obj) as [name | e] eqn:En.
    + destruct (collect_candidates lower getObjectName rest) as [cs | e'];
        cbn [rbind]; [| exact IH].
      destruct (existsb _ TIP_KEYWORDS) eqn:Ek.
      * intros c [<- | Hc].
        -- cbn [fst snd]. split; [left; reflexivity |]. split; assumption.
        -- destruct (IH c Hc) as (H1 & H2 & H3).
           split; [right; exact H1 |]. split; assumption.
      * intros c Hc. destruct (IH c Hc) as (H1 & H2 & H3).
        split; [right; exact H1 |]. split; assumption.
    + destruct (is_Exception e) eqn:Ee; [| exact Ee].
      destruct (collect_candidates lower getObjectName rest) as [cs | e'];
        [| exact IH].
      intros c Hc. destruct (IH c Hc) as (H1 & H2 & H3).
      split; [right; exact H1 |]. split; assumption.
Qed.

(** How the scan of the scene can end. *)
Lemma search_scene_cases (lower : String.string -> String.string)
  (getObjectsInTree : result (list nat))
  (getObjectName : nat -> result String.string) :
  match search_scene lower getObjectsInTree getObjectName with
  | Started h =>
      exists all_objects name,
        getObjectsInTree = Ok all_objects
        /\ In h all_objects
        /\ getObjectName h = Ok name
        /\ existsb (fun keyword => contains keyword (lower name))
                   TIP_KEYWORDS = true
  | SysExit code => code = 1%nat
  | FileNotFoundError => False
  | Uncaught e => is_Exception e = false
  end.
Proof.
  unfold search_scene.
  destruct getObjectsInTree as [all_objects | e]; cbn [rbind].
  - pose proof (collect_candidates_sound lower getObjectName all_objects)
      as Hs.
    destruct (collect_candidates lower getObjectName all_objects)
      as [cs | e].
    + destruct cs as [| c0 cs]; [reflexivity |].
      destruct (select_best_first_maximal lower (c0 :: cs)) as (c & E & M);
        [discriminate |].
      unfold choose_tip. rewrite E.
      destruct (Hs c (first_maximal_in lower _ _ M)) as (H1 & H2 & H3).
      exists all_objects, (fst c). repeat split; assumption.
    + rewrite Hs. exact Hs.
  - destruct (is_Exception e) eqn:Ee; [reflexivity | exact Ee].
Qed.

(** *** The tip paths *)

Lemma resolve_tip_paths_failing
  (getObject : String.string -> result (option nat))
  (getObjectName : nat -> result String.string)
  (paths : list String.string) :
  (forall p, In p paths ->
     exists e, getObject p = Raise e /\ is_Exception e = true) ->
  forall tip_handle,
    resolve_tip_paths getObject getObjectName paths tip_handle
    = Ok tip_handle.
Proof.
  induction paths as [| p rest IH]; intros Hfail tip_handle;
    cbn [resolve_tip_paths]; [reflexivity |].
  destruct (Hfail p (or_introl eq_refl)) as (e & -> & ->).
  apply IH. intros q Hq. apply Hfail. right. exact Hq.
Qed.

(** X21.  The loop over the tip paths assigns [tip_handle] before it
    reads the name: when the name of a resolved handle cannot be read
    and every later path fails, the loop still ends with that handle,
    whatever [tip_handle] was before. *)
Theorem resolve_tip_paths_keeps_handle
  (getObject : String.string -> result (option nat))
  (getObjectName : nat -> result String.string)
  (path : String.string) (rest : list String.string)
  (h : nat) (e : exn) (tip_handle : option nat)
  (Hobj : getObject path = Ok (Some h))
  (Hname : getObjectName h = Raise e)
  (He : is_Exception e = true)
  (Hfail : forall p, In p rest ->
             exists e', getObject p = Raise e' /\ is_Exception e' = true) :
  resolve_tip_paths getObject getObjectName (path :: rest) tip_handle
  = Ok (Some h).
Proof.
  cbn [resolve_tip_paths]. rewrite Hobj, Hname, He.
  apply resolve_tip_paths_failing. exact Hfail.
Qed.

(** The theorem on a scene whose first tip path resolves to an object
    whose name cannot be read, every other path failing. *)
Lemma resolve_tip_paths_keeps_handle_witness :
  resolve_tip_paths
    (fun p => if String.eqb p "/Franka/panda_tip"
              then Ok (Some 3%nat) else Raise SimError)
    (fun _ => Raise SimError)
    TIP_PATHS_TO_TRY None
  = Ok (Some 3%nat).
Proof.
  apply (resolve_tip_paths_keeps_handle
           (fun p => if String.eqb p "/Franka/panda_tip"
                     then Ok (Some 3%nat) else Raise SimError)
           (fun _ => Raise SimError)
           "/Franka/panda_tip" (tl TIP_PATHS_TO_TRY) 3%nat SimError None).
  - reflexivity.
  - reflexivity.
  - reflexivity.
  - intros p Hp. exists SimError. split; [| reflexivity].
    cbn [tl TIP_PATHS_TO_TRY In] in Hp.
    repeat (destruct Hp as [<- | Hp]; [reflexivity |]). destruct Hp.
Defined.

(** *** Looking a joint up by name *)

(** X22.  [find_joint_handle_by_object_name] returns the first joint of
    the listing whose name is the wanted one, [None] when every name
    was read and none is the wanted one, and lets the first failure of
    [getObjectName] met before a match through. *)
Theorem find_joint_handle_by_object_name_first
  (getObjectName : nat -> result String.string)
  (wanted_name : String.string) (joints : list nat) :
  match find_joint_handle_by_object_name (Ok joints) getObjectName
          wanted_name with
  | Ok (Some h) =>
      exists pre post,
        joints = pre ++ h :: post
        /\ getObjectName h = Ok wanted_name
        /\ forall x, In x pre ->
             exists n, getObjectName x = Ok n /\ n <> wanted_name
  | Ok None =>
      forall x, In x joints ->
        exists n, getObjectName x = Ok n /\ n <> wanted_name
  | Raise e =>
      exists pre x post,
        joints = pre ++ x :: post
        /\ getObjectName x = Raise e
        /\ forall y, In y pre ->
             exists n, getObjectName y = Ok n /\ n <> wanted_name
  end.
Proof.
  unfold find_joint_handle_by_object_name. cbn [rbind].
  induction joints as [| j rest IH]; cbn [find_by_name].
  - intros x [].
  - destruct (getObjectName j) as [name | e] eqn:En; cbn [rbind].
    + destruct (String.eqb_spec name wanted_name) as [-> | Hneq].
      * exists [], rest. split; [reflexivity |]. split; [exact En |].
        intros x [].
      * assert (Hj : forall x, x = j \/ False ->
                  exists n, getObjectName x = Ok n /\ n <> wanted_name).
        { intros x [-> | []]. exists name. split; assumption. }
        destruct (find_by_name getObjectName wanted_name rest)
          as [[h |] | e].
        -- destruct IH as (pre & post & -> & Hh & Hpre).
           exists (j :: pre), post. split; [reflexivity |].
           split; [exact Hh |].
           intros x [<- | Hx]; [apply Hj; left; reflexivity | exact (Hpre x Hx)].
        -- intros x [<- | Hx]; [apply Hj; left; reflexivity | exact (IH x Hx)].
        -- destruct IH as (pre & x & post & -> & Hx & Hpre).
           exists (j :: pre), x, post. split; [reflexivity |].
           split; [exact Hx |].
           intros y [<- | Hy]; [apply Hj; left; reflexivity | exact (Hpre y Hy)].
    + exists [], j, rest. split; [reflexivity |]. split; [exact En |].
      intros y [].
Qed.

(** *** The search of the client folder *)

Lemma first_some_some {A B} (f : A -> option B) (l : list A) (b : B) :
  first_some f l = Some b -> exists a, In a l /\ f a = Some b.
Proof.
  induction l as [| a l IH]; cbn [first_some]; [discriminate |].
  destruct (f a) as [b' |] eqn:Ea.
  - intros [= <-]. exists a. split; [left; reflexivity | exact Ea].
  - intros H. destruct (IH H) as (a' & Hin & Ha').
    exists a'. split; [right; exact Hin | exact Ha'].
Qed.

Lemma first_some_none {A B} (f : A -> option B) (l : list A) :
  first_some f l = None -> forall a, In a l -> f a = None.
Proof.
  induction l as [| a l IH]; cbn [first_some]; [intros _ a [] |].
  destruct (f a) as [b' |] eqn:Ea; [discriminate |].
  intros H a' [<- | Hin]; [exact Ea | exact (IH H a' Hin)].
Qed.

Lemma is_valid_zmq_client_layout (fs : FileSystem) (p : path) :
  exists_ fs p && is_valid_zmq_client fs p = true <-> client_layout fs p.
Proof.
  unfold client_layout, is_valid_zmq_client.
  destruct (exists_ fs p), (is_dir fs (p ++ ["zmqRemoteApi"])),
    (is_dir fs (p ++ ["src"])), (is_dir fs (p ++ ["zmqRemoteApi"; "src"]));
    cbn; intuition discriminate.
Qed.

Lemma last_app_nonempty {A} (l l' : list A) (d : A) :
  l' <> [] -> last (l ++ l') d = last l' d.
Proof.
  intros Hne. induction l as [| a l IH]; [reflexivity |].
  cbn [app last]. rewrite IH.
  destruct (l ++ l') eqn:E; [| reflexivity].
  apply app_eq_nil in E. destruct E as [_ E]. contradiction.
Qed.

Lemma normalize_app (app internal : path) :
  internal <> [] ->
  normalize (app ++ internal)
  = if String.eqb (last internal "") "zmqRemoteApi"
    then app ++ removelast internal
    else app ++ internal.
Proof.
  intros Hne. unfold normalize.
  rewrite last_app_nonempty, removelast_app by exact Hne. reflexivity.
Qed.

(** The three internal candidates of an application normalise to its
    two client folders. *)
Lemma probe_app_folders (fs : FileSystem) (app : path) :
  probe_app fs app
  = first_some
      (fun p => if exists_ fs p && is_valid_zmq_client fs p
                then Some p else None)
      (client_folders app).
Proof.
  unfold probe_app, COPPELIA_INTERNAL_PY_CANDIDATES, client_folders, probe.
  cbn [first_some].
  rewrite !normalize_app by discriminate.
  cbn [last removelast String.eqb Ascii.eqb Bool.eqb].
  destruct (exists_ fs _ && is_valid_zmq_client fs _); reflexivity.
Qed.

Lemma probe_app_some (fs : FileSystem) (app p : path) :
  probe_app fs app = Some p ->
  In p (client_folders app) /\ client_layout fs p.
Proof.
  rewrite probe_app_folders. intros H.
  apply first_some_some in H. destruct H as (q & Hin & Hq).
  destruct (exists_ fs q && is_valid_zmq_client fs q) eqn:Ev;
    [| discriminate].
  injection Hq as <-. split; [exact Hin |].
  apply is_valid_zmq_client_layout. exact Ev.
Qed.

Lemma probe_app_none (fs : FileSystem) (app p : path) :
  probe_app fs app = None ->
  In p (client_folders app) -> ~ client_layout fs p.
Proof.
  rewrite probe_app_folders. intros H Hin Hl.
  pose proof (first_some_none _ _ H p Hin) as Hp. cbv beta in Hp.
  apply is_valid_zmq_client_layout in Hl. rewrite Hl in Hp. discriminate.
Qed.

(** X23.  [find_coppelia_python_folder] returns only a folder that
    exists and has the layout of the client, one of the two client
    folders of an application it considers; it raises
    [FileNotFoundError] only when no application it considers has such
    a folder; it ends in no other way.  The second internal candidate
    normalises to the first and contributes no folder of its own. *)
Theorem find_coppelia_python_folder_sound_complete
  (lower : String.string -> String.string) (fs : FileSystem) :
  match find_coppelia_python_folder lower fs with
  | Started p =>
      client_layout fs p
      /\ exists app, app_considered lower fs app /\ In p (client_folders app)
  | FileNotFoundError =>
      forall app p,
        app_considered lower fs app -> In p (client_folders app) ->
        ~ client_layout fs p
  | SysExit _ => False
  | Uncaught _ => False
  end.
Proof.
  unfold find_coppelia_python_folder.
  destruct (first_some (probe_app fs) (COPPELIA_APP_CANDIDATES (home fs)))
    as [p |] eqn:E1.
  - apply first_some_some in E1. destruct E1 as (app & Hin & Hp).
    apply probe_app_some in Hp. destruct Hp as [Hf Hl].
    split; [exact Hl |]. exists app. split; [left; exact Hin | exact Hf].
  - match goal with
    | |- match (match first_some ?f ?l with _ => _ end) with _ => _ end =>
        destruct (first_some f l) as [p |] eqn:E2
    end.
    + apply first_some_some in E2. destruct E2 as (base & Hbase & Hb).
      destruct (exists_ fs base) eqn:Eb; cbn [negb] in Hb; [| discriminate].
      apply first_some_some in Hb. destruct Hb as (app & Happ & Hp).
      destruct (likely_app lower app) eqn:El; [| discriminate].
      apply probe_app_some in Hp. destruct Hp as [Hf Hl].
      split; [exact Hl |]. exists app. split; [| exact Hf].
      right. exists base. repeat split; assumption.
    + intros app p [Hin | (base & Hbase & Eb & Happ & El)] Hf.
      * apply (probe_app_none fs app p); [| exact Hf].
        exact (first_some_none _ _ E1 app Hin).
      * pose proof (first_some_none _ _ E2 base Hbase) as Hb.
        cbv beta in Hb. rewrite Eb in Hb. cbn [negb] in Hb.
        pose proof (first_some_none _ _ Hb app Happ) as Ha.
        cbv beta in Ha. rewrite El in Ha.
        exact (probe_app_none fs app p Ha Hf).
Qed.

(** *** The order of [sys.path] *)

Lemma py_in_In (x : String.string) (l : list String.string) :
  py_in x l = true <-> In x l.
Proof.
  unfold py_in. rewrite existsb_exists. split.
  - intros (y & Hin & Hy). apply String.eqb_eq in Hy. subst y. exact Hin.
  - intros Hin. exists x. split; [exact Hin | apply String.eqb_refl].
Qed.

Lemma py_in_cons_other (x y : String.string) (l : list String.string) :
  y <> x -> py_in x (y :: l) = py_in x l.
Proof.
  intros Hne. unfold py_in. cbn [existsb].
  destruct (String.eqb_spec y x); [contradiction | reflexivity].
Qed.

Lemma py_remove_present (x : String.string) (l : list String.string) :
  py_in x l = true -> py_remove x l = Ok (without_first x l).
Proof.
  induction l as [| y l IH]; cbn [py_remove without_first];
    [discriminate |].
  unfold py_in. cbn [existsb].
  destruct (String.eqb y x); [reflexivity |].
  cbn [orb]. intros H. fold (py_in x l) in H. rewrite (IH H). reflexivity.
Qed.

Lemma without_first_absent (x : String.string) (l : list String.string) :
  py_in x l = false -> without_first x l = l.
Proof.
  induction l as [| y l IH]; cbn [without_first]; [reflexivity |].
  unfold py_in. cbn [existsb].
  destruct (String.eqb y x); [discriminate |].
  cbn [orb]. intros H. fold (py_in x l) in H. rewrite (IH H). reflexivity.
Qed.

Lemma py_in_without_other (x y : String.string) (l : list String.string) :
  y <> x -> py_in x (without_first y l) = py_in x l.
Proof.
  intros Hne. induction l as [| z l IH]; cbn [without_first];
    [reflexivity |].
  destruct (String.eqb_spec z y) as [-> | Hzy].
  - rewrite py_in_cons_other by exact Hne. reflexivity.
  - unfold py_in in *. cbn [existsb]. rewrite IH. reflexivity.
Qed.

Lemma without_first_cons_other (x y : String.string)
  (l : list String.string) :
  y <> x -> without_first x (y :: l) = y :: without_first x l.
Proof.
  intros Hne. cbn [without_first].
  destruct (String.eqb_spec y x); [contradiction | reflexivity].
Qed.

(** X24.  With distinct folder names, [ensure_coppelia_python_path]
    leaves [sys.path] as: the [src] folder when it exists and was not
    listed; then the script directory when it was listed; then
    [COPPELIA_PY_PATH]; then the former entries, less the first
    occurrence of [COPPELIA_PY_PATH] and of the script directory.  When
    no [src] folder is added the script directory, moved to index 1,
    comes after [COPPELIA_PY_PATH]; when one is added it comes before. *)
Theorem ensure_coppelia_python_path_order
  (COPPELIA_PY_PATH src_path_str script_dir : String.string)
  (src_exists : bool) (sys_path : list String.string)
  (Hsrc : src_path_str <> COPPELIA_PY_PATH)
  (Hdir : script_dir <> COPPELIA_PY_PATH)
  (Hdir' : script_dir <> src_path_str) :
  ensure_coppelia_python_path COPPELIA_PY_PATH src_path_str script_dir
    true src_exists sys_path
  = Started
      (match src_exists && negb (py_in src_path_str sys_path),
             py_in script_dir sys_path with
       | true, true =>
           src_path_str :: script_dir :: COPPELIA_PY_PATH
             :: without_first script_dir
                  (without_first COPPELIA_PY_PATH sys_path)
       | true, false =>
           src_path_str :: COPPELIA_PY_PATH
             :: without_first COPPELIA_PY_PATH sys_path
       | false, true =>
           COPPELIA_PY_PATH :: script_dir
             :: without_first script_dir
                  (without_first COPPELIA_PY_PATH sys_path)
       | false, false =>
           COPPELIA_PY_PATH :: without_first COPPELIA_PY_PATH sys_path
       end).
Proof.
  set (rest := without_first COPPELIA_PY_PATH sys_path).
  assert (Hp1 : (if py_in COPPELIA_PY_PATH sys_path
                 then py_remove COPPELIA_PY_PATH sys_path
                 else Ok sys_path) = Ok rest).
  { unfold rest. destruct (py_in COPPELIA_PY_PATH sys_path) eqn:Ein.
    - apply py_remove_present. exact Ein.
    - rewrite without_first_absent by exact Ein. reflexivity. }
  assert (Hin_src : py_in src_path_str rest = py_in src_path_str sys_path).
  { unfold rest. apply py_in_without_other. congruence. }
  assert (Hin_dir : py_in script_dir rest = py_in script_dir sys_path).
  { unfold rest. apply py_in_without_other. congruence. }
  clearbody rest.
  assert (Hcs : COPPELIA_PY_PATH <> src_path_str) by congruence.
  assert (Hcd : COPPELIA_PY_PATH <> script_dir) by congruence.
  assert (Hsd : src_path_str <> script_dir) by congruence.
  unfold ensure_coppelia_python_path. cbn [negb]. rewrite Hp1.
  unfold py_insert. cbn [firstn skipn app].
  rewrite (py_in_cons_other src_path_str COPPELIA_PY_PATH rest Hcs), Hin_src.
  destruct src_exists; cbn [andb];
    [destruct (py_in src_path_str sys_path); cbn [negb] |].
  - rewrite (py_in_cons_other script_dir COPPELIA_PY_PATH rest Hcd), Hin_dir.
    destruct (py_in script_dir sys_path) eqn:El; [| reflexivity].
    rewrite py_remove_present
      by (rewrite py_in_cons_other by exact Hcd; exact Hin_dir).
    rewrite without_first_cons_other by exact Hcd. reflexivity.
  - rewrite (py_in_cons_other script_dir src_path_str _ Hsd),
      (py_in_cons_other script_dir COPPELIA_PY_PATH rest Hcd), Hin_dir.
    destruct (py_in script_dir sys_path) eqn:El; [| reflexivity].
    rewrite py_remove_present
      by (rewrite !py_in_cons_other by assumption; exact Hin_dir).
    rewrite !without_first_cons_other by assumption. reflexivity.
  - rewrite (py_in_cons_other script_dir COPPELIA_PY_PATH rest Hcd), Hin_dir.
    destruct (py_in script_dir sys_path) eqn:El; [| reflexivity].
    rewrite py_remove_present
      by (rewrite py_in_cons_other by exact Hcd; exact Hin_dir).
    rewrite without_first_cons_other by exact Hcd. reflexivity.
Qed.

(** The theorem on a path that lists the script directory first and
    [COPPELIA_PY_PATH] last, with a [src] folder to add: the script
    directory ends up ahead of [COPPELIA_PY_PATH]. *)
Lemma ensure_coppelia_python_path_order_witness :
  ensure_coppelia_python_path "/app/python" "/app/python/src" "/work"
    true true ["/work"; "/usr/lib"; "/app/python"]
  = Started ["/app/python/src"; "/work"; "/app/python"; "/usr/lib"].
Proof.
  exact (ensure_coppelia_python_path_order "/app/python" "/app/python/src"
           "/work" true ["/work"; "/usr/lib"; "/app/python"]
           ltac:(discriminate) ltac:(discriminate) ltac:(discriminate)).
Defined.

(** *** The tip paths, continued *)

Lemma resolve_tip_paths_sound
  (getObject : String.string -> result (option nat))
  (getObjectName : nat -> result String.string)
  (paths : list String.string) :
  forall tip_handle,
    match resolve_tip_paths getObject getObjectName paths tip_handle with
    | Ok (Some h) =>
        tip_handle = Some h
        \/ exists path, In path paths /\ getObject path = Ok (Some h)
    | Ok None => True
    | Raise e => is_Exception e = false
    end.
Proof.
  induction paths as [| p rest IH]; intros tip_handle;
    cbn [resolve_tip_paths].
  - destruct tip_handle; [left; reflexivity | exact I].
  - destruct (getObject p) as [[h |] | e] eqn:Ep.
    + destruct (getObjectName h) as [name | e] eqn:En.
      * right. exists p. split; [left; reflexivity | exact Ep].
      * destruct (is_Exception e) eqn:Ee; [| exact Ee].
        specialize (IH (Some h)).
        destruct (resolve_tip_paths getObject getObjectName rest (Some h))
          as [[h' |] |]; [| exact I | exact IH].
        right. destruct IH as [[= <-] | (q & Hq & Eq)].
        -- exists p. split; [left; reflexivity | exact Ep].
        -- exists q. split; [right; exact Hq | exact Eq].
    + specialize (IH None).
      destruct (resolve_tip_paths getObject getObjectName rest None)
        as [[h' |] |]; [| exact I | exact IH].
      right. destruct IH as [[=] | (q & Hq & Eq)].
      exists q. split; [right; exact Hq | exact Eq].
    + destruct (is_Exception e) eqn:Ee; [| exact Ee].
      specialize (IH tip_handle).
      destruct (resolve_tip_paths getObject getObjectName rest tip_handle)
        as [[h' |] |]; [| exact I | exact IH].
      destruct IH as [IH | (q & Hq & Eq)]; [left; exact IH |].
      right. exists q. split; [right; exact Hq | exact Eq].
Qed.

(** X20.  Resolving the tip ends in one of three ways: with a handle
    that [getObject] answered for one of the listed paths, or else the
    handle of an object of the scene whose name was read and contains a
    keyword; through [sys.exit(1)], when the scan finds no candidate or
    the listing fails with an [Exception]; or with an exception that
    [except Exception] does not catch.  No failure of a single
    [getObject] or [getObjectName] call ends it. *)
Theorem resolve_tip_outcomes (lower : String.string -> String.string)
  (getObject : String.string -> result (option nat))
  (getObjectsInTree : result (list nat))
  (getObjectName : nat -> result String.string) :
  match resolve_tip lower getObject getObjectsInTree getObjectName with
  | Started h =>
      (exists path,
         In path TIP_PATHS_TO_TRY /\ getObject path = Ok (Some h))
      \/ (exists all_objects name,
            getObjectsInTree = Ok all_objects
            /\ In h all_objects
            /\ getObjectName h = Ok name
            /\ existsb (fun keyword => contains keyword (lower name))
                       TIP_KEYWORDS = true)
  | SysExit code => code = 1%nat
  | FileNotFoundError => False
  | Uncaught e => is_Exception e = false
  end.
Proof.
  unfold resolve_tip.
  pose proof (resolve_tip_paths_sound getObject getObjectName
                TIP_PATHS_TO_TRY None) as Hp.
  destruct (resolve_tip_paths getObject getObjectName TIP_PATHS_TO_TRY None)
    as [[h |] | e].
  - left. destruct Hp as [[=] | Hp]. exact Hp.
  - pose proof (search_scene_cases lower getObjectsInTree getObjectName)
      as Hs.
    destruct (search_scene lower getObjectsInTree getObjectName);
      [right; exact Hs | exact Hs | exact Hs | exact Hs].
  - exact Hp.
Qed.

(** *** The name test on globbed applications *)

Lemma substring_prefix (s : String.string) :
  forall m n k : nat,
    (n <= k)%nat ->
    String.substring 0 n (String.substring m k s) = String.substring m n s.
Proof.
  induction s as [| c s IH]; intros m n k Hnk.
  - destruct m, n, k; cbn; try reflexivity; lia.
  - destruct m as [| m].
    + destruct n as [| n].
      * destruct k; reflexivity.
      * destruct k as [| k]; [lia |]. cbn [String.substring].
        f_equal. apply (IH 0%nat n k). lia.
    + cbn [String.substring]. apply IH. exact Hnk.
Qed.

Lemma contains_coppeliasim (s : String.string) :
  contains "coppeliasim" s = true -> contains "coppelia" s = true.
Proof.
  unfold contains.
  destruct (String.index 0 "coppeliasim" s) as [m |] eqn:E1;
    [intros _ | discriminate].
  destruct (String.index 0 "coppelia" s) as [m' |] eqn:E2;
    [reflexivity | exfalso].
  apply String.index_correct1 in E1.
  apply (String.index_correct3 0 m "coppelia" s E2);
    [discriminate | lia |].
  change (String.length "coppelia") with 8%nat.
  change (String.length "coppeliasim") with 11%nat in E1.
  rewrite <- (substring_prefix s m 8 11) by lia.
  rewrite E1. reflexivity.
Qed.

(** X25.  In the name test on a globbed application the second
    disjunct never decides: a name that contains ["coppeliasim"]
    contains ["coppelia"], so the test is the first disjunct alone. *)
Theorem likely_app_first_test (lower : String.string -> String.string)
  (app : path) :
  likely_app lower app = contains "coppelia" (lower (last app "")).
Proof.
  unfold likely_app.
  destruct (contains "coppelia" (lower (last app ""))) eqn:E1;
    [reflexivity |].
  destruct (contains "coppeliasim" (lower (last app ""))) eqn:E2;
    [| reflexivity].
  apply contains_coppeliasim in E2. rewrite E2 in E1. discriminate.
Qed.
